(** * A shallow embedding of the zebra-puzzle solver

    The development follows the two modules of the repository:
    [constraints.py] (the clue factories) and [zebra_solver.py] (the
    [ZebraPuzzle] class: construction, propagation, backtracking search).

    Python values are modelled as follows.
    - [int] is [Z]; [range(n)] is [seqZ 0 n] (empty when [n <= 0]).
    - [str] is [string].
    - A [dict] is an association list in insertion order, because the code
      iterates over dictionaries and the iteration order decides which
      variable and which entry is met first.
    - A [set] of strings is a [gset string]; its iteration order, which
      CPython derives from string hashes and the history of the set object,
      is a parameter of the solver.
    - A call that may raise returns a [result]. *)

From stdpp Require Import base option list strings gmap sets.
From Stdlib Require Import ZArith Lia.

Open Scope string_scope.
Open Scope Z_scope.
Open Scope list_scope.

(** ** Exceptions and results *)

Inductive exn := ValueError | TypeError | KeyError.

(** [NoFuel] is the answer of a bounded loop of the model whose bound was
    reached, and of a callable that does not return. *)
Inductive result (A : Type) :=
| Ok (a : A)
| Raise (e : exn)
| NoFuel.
Arguments Ok {A} a.
Arguments Raise {A} e.
Arguments NoFuel {A}.

Definition rbind {A B} (r : result A) (k : A → result B) : result B :=
  match r with
  | Ok a => k a
  | Raise e => Raise e
  | NoFuel => NoFuel
  end.

Notation "x ←! r ; k" := (rbind r (λ x, k))
  (at level 20, r at level 100, k at level 200, right associativity,
   format "x  ←!  r ;  '/' k").

(** ** Dictionaries in insertion order *)

Definition dict (K V : Type) := list (K * V).

Section dict.
Context {K V : Type} `{EqDecision K}.

(** [d.get(k)]: the value stored under [k], if any. *)
Fixpoint dget (d : dict K V) (k : K) : option V :=
  match d with
  | [] => None
  | (k', v) :: d' => if decide (k = k') then Some v else dget d' k
  end.

(** [d[k] = v]: an existing key keeps its place, a new key goes last. *)
Fixpoint dset (d : dict K V) (k : K) (v : V) : dict K V :=
  match d with
  | [] => [(k, v)]
  | (k', v') :: d' =>
      if decide (k = k') then (k, v) :: d' else (k', v') :: dset d' k v
  end.

(** [k in d] *)
Definition dmem (d : dict K V) (k : K) : bool :=
  match dget d k with Some _ => true | None => false end.

(** [d.keys()] in iteration order. *)
Definition dkeys (d : dict K V) : list K := d.*1.
End dict.

(** An assignment maps a category to a dictionary from position to value. *)
Definition assignment := dict string (dict Z string).

(** A constraint is a callable from an assignment to a truth value. *)
Definition constraint := assignment → result bool.

(** ** constraints.py *)

(** The loop
    [for pos, val in assignment[category].items(): if val == value: ...]
    shared by every factory: the position of the first item holding
    [value]. *)
Fixpoint scan_items (items : dict Z string) (value : string) : option Z :=
  match items with
  | [] => None
  | (pos, val) :: rest =>
      if decide (val = value) then Some pos else scan_items rest value
  end.

(** [pos1]/[pos2] of the two-value factories: [None] when the category is
    not in the assignment or no item holds the value. *)
Definition position_of (a : assignment) (category value : string) : option Z :=
  match dget a category with
  | Some items => scan_items items value
  | None => None
  end.

(** The common shape of the two-value predicates. *)
Definition both_assigned (test : Z → Z → bool)
    (category1 value1 category2 value2 : string) : constraint := λ a,
  let pos1 := position_of a category1 value1 in
  let pos2 := position_of a category2 value2 in
  match pos1, pos2 with
  | Some pos1, Some pos2 => Ok (test pos1 pos2)
  | _, _ => Ok true
  end.

Definition same_position (category1 value1 category2 value2 : string)
    : result constraint :=
  Ok (both_assigned (λ pos1 pos2, bool_decide (pos1 = pos2))
        category1 value1 category2 value2).

Definition adjacent (category1 value1 category2 value2 : string)
    : result constraint :=
  Ok (both_assigned (λ pos1 pos2, bool_decide (Z.abs (pos1 - pos2) = 1))
        category1 value1 category2 value2).

Definition left_of (category1 value1 category2 value2 : string)
    : result constraint :=
  Ok (both_assigned (λ pos1 pos2, bool_decide (pos1 < pos2))
        category1 value1 category2 value2).

Definition immediately_right_of (category1 value1 category2 value2 : string)
    : result constraint :=
  Ok (both_assigned (λ pos1 pos2, bool_decide (pos1 = pos2 + 1))
        category1 value1 category2 value2).

Definition not_same_position (category1 value1 category2 value2 : string)
    : result constraint :=
  Ok (both_assigned (λ pos1 pos2, bool_decide (pos1 ≠ pos2))
        category1 value1 category2 value2).

Definition at_position (category value : string) (position : Z)
    : result constraint :=
  Ok (λ a,
    match dget a category with
    | None => Ok true
    | Some items =>
        match scan_items items value with
        | Some pos => Ok (bool_decide (pos = position))
        | None =>
            match dget items position with
            | Some val =>
                Ok (bool_decide (val ≠ value) || bool_decide (val = value))
            | None => Ok true
            end
        end
    end).

(** [max(keys)]: raises [ValueError] on an empty sequence. *)
Definition max_key (keys : list Z) : result Z :=
  match keys with
  | [] => Raise ValueError
  | k :: ks => Ok (foldl Z.max k ks)
  end.

Definition at_edge (category value edge : string) : result constraint :=
  Ok (λ a,
    match dget a category with
    | None => Ok true
    | Some items =>
        match scan_items items value with
        | None => Ok true
        | Some pos =>
            m ←! max_key (dkeys items);
            let num_positions := m + 1 in
            if decide (edge = "first") then Ok (bool_decide (pos = 0))
            else if decide (edge = "last") then
              Ok (bool_decide (pos = num_positions - 1))
            else if decide (edge = "either") then
              Ok (bool_decide (pos = 0)
                  || bool_decide (pos = num_positions - 1))
            else Raise ValueError
        end
    end).

Definition middle_position (category value : string) (num_positions : Z)
    : result constraint :=
  if decide (num_positions `mod` 2 = 0) then Raise ValueError
  else
    let middle := num_positions `div` 2 in
    Ok (λ a,
      match dget a category with
      | None => Ok true
      | Some items =>
          match scan_items items value with
          | Some pos => Ok (bool_decide (pos = middle))
          | None => Ok true
          end
      end).

Definition one_of_positions (category value : string) (positions : list Z)
    : result constraint :=
  Ok (λ a,
    match dget a category with
    | None => Ok true
    | Some items =>
        match scan_items items value with
        | Some pos => Ok (bool_decide (pos ∈ positions))
        | None => Ok true
        end
    end).

(** ** zebra_solver.py: the data of a puzzle *)

Record constraint_entry := { func : constraint; description : string }.

Record ZebraPuzzle := {
  num_positions : Z;
  categories : dict string (list string);
  constraints : list constraint_entry
}.

(** The validation loop of [__init__]. *)
Fixpoint validate (num_positions : Z) (items : dict string (list string))
    : result unit :=
  match items with
  | [] => Ok ()
  | (category, values) :: rest =>
      if decide (Z.of_nat (length values) ≠ num_positions)
      then Raise ValueError
      else validate num_positions rest
  end.

(** [ZebraPuzzle(num_positions, categories)] *)
Definition ZebraPuzzle_init (num_positions : Z)
    (categories : dict string (list string)) : result ZebraPuzzle :=
  _ ←! validate num_positions categories;
  Ok {| num_positions := num_positions;
        categories := categories;
        constraints := [] |}.

Definition add_constraint (self : ZebraPuzzle) (constraint_func : constraint)
    (description : string) : ZebraPuzzle :=
  {| num_positions := num_positions self;
     categories := categories self;
     constraints := constraints self
                    ++ [{| func := constraint_func;
                           description := description |}] |}.

(** Domains: category, then position, then the set of candidate values. *)
Definition domains := dict string (dict Z (gset string)).

(** [range(n)] *)
Definition range (n : Z) : list Z := seqZ 0 n.

(** The order in which [list(s)] enumerates a set, as a function of the
    search frame (the assignment built so far) and of the set. *)
Definition set_order := assignment → gset string → list string.

(** ** Control flow of the loops *)

(** A loop body either goes on with a new state ([Ok (Some s)]), leaves the
    function with [return None] ([Ok None]), or raises. *)
Definition fbind {A B} (r : result (option A)) (k : A → result (option B))
    : result (option B) :=
  match r with
  | Ok (Some a) => k a
  | Ok None => Ok None
  | Raise e => Raise e
  | NoFuel => NoFuel
  end.

Notation "x ←? r ; k" := (fbind r (λ x, k))
  (at level 20, r at level 100, k at level 200, right associativity,
   format "x  ←?  r ;  '/' k").

(** [for x in l: body] over a threaded state. *)
Fixpoint for_each {X S} (l : list X) (body : X → S → result (option S))
    (s : S) : result (option S) :=
  match l with
  | [] => Ok (Some s)
  | x :: l' => s' ←? body x s; for_each l' body s'
  end.

(** The same for loops that never return early. *)
Fixpoint rfold {X S} (l : list X) (body : X → S → result S) (s : S)
    : result S :=
  match l with
  | [] => Ok s
  | x :: l' => s' ←! body x s; rfold l' body s'
  end.

(** [d[k]] raises [KeyError] on a missing key. *)
Definition ditem {K V} `{EqDecision K} (d : dict K V) (k : K) : result V :=
  match dget d k with
  | Some v => Ok v
  | None => Raise KeyError
  end.

(** [domains[category][position]] *)
Definition getdom (d : domains) (category : string) (position : Z)
    : result (gset string) :=
  m ←! ditem d category; ditem m position.

(** [domains[category][position] = s]; removing an element of the set
    stored there is the same update. *)
Definition putdom (d : domains) (category : string) (position : Z)
    (s : gset string) : result domains :=
  m ←! ditem d category; Ok (dset d category (dset m position s)).

(** ** Propagation *)

(** The state of [_propagate_constraints]: the domain map it mutates and
    its [changed] flag. [seen] is a ghost history, never read by the code:
    the domain map on entry and after every mutation, latest first. *)
Record pstate := {
  doms : domains;
  changed : bool;
  seen : list domains
}.

(** A mutation of the domain map followed by [changed = True]. *)
Definition store (st : pstate) (category : string) (pos : Z)
    (s : gset string) : result (option pstate) :=
  d ←! putdom (doms st) category pos s;
  Ok (Some {| doms := d; changed := true; seen := d :: seen st |}).

(** Lines 207-211: the wipe-out check. *)
Definition check_wipeout (st : pstate) : result (option pstate) :=
  for_each (dkeys (doms st)) (λ category st,
    m ←! ditem (doms st) category;
    for_each (dkeys m) (λ position st,
      s ←! getdom (doms st) category position;
      if decide (size s = 0%nat) then Ok None else Ok (Some st)) st) st.

(** Lines 219-223: remove [value] from the other positions. *)
Definition remove_elsewhere (n : Z) (category : string) (position : Z)
    (value : string) (st : pstate) : result (option pstate) :=
  for_each (range n) (λ pos st,
    if decide (pos ≠ position) then
      s ←! getdom (doms st) category pos;
      if decide (value ∈ s) then store st category pos (s ∖ {[value]})
      else Ok (Some st)
    else Ok (Some st)) st.

(** Lines 213-223. [len(s) == 1] with [value = list(s)[0]] is the match on
    [elements s]. *)
Definition singleton_rule (n : Z) (st : pstate) : result (option pstate) :=
  for_each (dkeys (doms st)) (λ category st,
    m ←! ditem (doms st) category;
    for_each (dkeys m) (λ position st,
      s ←! getdom (doms st) category position;
      match elements s with
      | [value] => remove_elsewhere n category position value st
      | _ => Ok (Some st)
      end) st) st.

(** Lines 228-231: the list comprehension. *)
Fixpoint possible_positions (d : domains) (category value : string)
    (l : list Z) : result (list Z) :=
  match l with
  | [] => Ok []
  | pos :: l' =>
      s ←! getdom d category pos;
      rest ←! possible_positions d category value l';
      Ok (if decide (value ∈ s) then pos :: rest else rest)
  end.

(** Lines 225-239. *)
Definition unique_position_rule (self : ZebraPuzzle) (st : pstate)
    : result (option pstate) :=
  for_each (dkeys (doms st)) (λ category st,
    values ←! ditem (categories self) category;
    for_each values (λ value st,
      pp ←! possible_positions (doms st) category value
              (range (num_positions self));
      match pp with
      | [] => Ok None
      | [pos] =>
          s ←! getdom (doms st) category pos;
          if decide (1 < size s)%nat then store st category pos {[value]}
          else Ok (Some st)
      | _ => Ok (Some st)
      end) st) st.

(** One turn of the [while changed] loop. *)
Definition propagate_pass (self : ZebraPuzzle) (st : pstate)
    : result (option pstate) :=
  let st := {| doms := doms st; changed := false; seen := seen st |} in
  st ←? check_wipeout st;
  st ←? singleton_rule (num_positions self) st;
  unique_position_rule self st.

Fixpoint propagate_loop (self : ZebraPuzzle) (fuel : nat) (st : pstate)
    : result (option pstate) :=
  if changed st then
    match fuel with
    | O => NoFuel
    | S fuel' =>
        st' ←? propagate_pass self st; propagate_loop self fuel' st'
    end
  else Ok (Some st).

(** The number of candidate values left in a domain map. Every turn of
    the loop that sets [changed] lowers it, which bounds the loop. *)
Definition weight (d : domains) : nat :=
  sum_list ((λ cm, sum_list ((λ ps, size ps.2) <$> cm.2)) <$> d).

Definition propagate_run (self : ZebraPuzzle) (d : domains)
    : result (option pstate) :=
  propagate_loop self (S (weight d))
    {| doms := d; changed := true; seen := [d] |}.

(** [_propagate_constraints(domains)]; its second argument is not used by
    the code. [Ok None] is the sentinel. *)
Definition _propagate_constraints (self : ZebraPuzzle) (d : domains)
    : result (option domains) :=
  st ←! propagate_run self d; Ok (doms <$> st).

(** ** Search *)

Definition _is_complete (self : ZebraPuzzle) (a : assignment) : bool :=
  forallb (λ category,
    match dget a category with
    | None => false
    | Some items => bool_decide (Z.of_nat (length items) = num_positions self)
    end) (dkeys (categories self)).

(** [category in assignment and position in assignment[category]] *)
Definition assigned (a : assignment) (category : string) (position : Z)
    : bool :=
  match dget a category with
  | Some items => dmem items position
  | None => false
  end.

(** [remaining < min_remaining], where [None] is [float('inf')]. *)
Definition below (remaining : nat) (min_remaining : option nat) : bool :=
  match min_remaining with
  | None => true
  | Some m => bool_decide (remaining < m)%nat
  end.

(** The loop state is [(min_remaining, best_var)]; the function returns
    [best_var], which is [None] when no variable was met. *)
Definition _select_unassigned_variable (self : ZebraPuzzle) (a : assignment)
    (d : domains) : result (option (string * Z)) :=
  r ←! rfold (dkeys (categories self)) (λ category acc,
         rfold (range (num_positions self)) (λ position acc,
           if assigned a category position then Ok acc
           else
             s ←! getdom d category position;
             let remaining := size s in
             if below remaining acc.1
             then Ok (Some remaining, Some (category, position))
             else Ok acc) acc) (None, None);
  Ok r.2.

Fixpoint consistent_with (cs : list constraint_entry) (a : assignment)
    : result bool :=
  match cs with
  | [] => Ok true
  | c :: cs' =>
      b ←! func c a;
      if b then consistent_with cs' a else Ok false
  end.

Definition _is_consistent (self : ZebraPuzzle) (a : assignment)
    : result bool :=
  consistent_with (constraints self) a.

Definition _update_domains (self : ZebraPuzzle) (d : domains)
    (category : string) (position : Z) (value : string) : result domains :=
  new_domains ←! putdom d category position {[value]};
  rfold (range (num_positions self)) (λ pos new_domains,
    if decide (pos ≠ position) then
      s ←! getdom new_domains category pos;
      putdom new_domains category pos (s ∖ {[value]})
    else Ok new_domains) new_domains.

(** Lines 103-106: the copy of the assignment extended by one entry. *)
Definition extend (a : assignment) (category : string) (position : Z)
    (value : string) : assignment :=
  let a := if dmem a category then a else dset a category [] in
  dset a category (dset (default [] (dget a category)) position value).

(** Lines 101-120: the loop over the candidate values of the selected
    variable; [recurse] is the recursive call of [_backtrack]. *)
Definition try_values (self : ZebraPuzzle)
    (recurse : assignment → domains → result (option assignment))
    (a : assignment) (d : domains) (category : string) (position : Z)
    : list string → result (option assignment) :=
  fix try (candidates : list string) : result (option assignment) :=
    match candidates with
    | [] => Ok None
    | value :: rest =>
        let new_assignment := extend a category position value in
        ok ←! _is_consistent self new_assignment;
        if ok then
          new_domains ←! _update_domains self d category position value;
          new_domains ←! _propagate_constraints self new_domains;
          match new_domains with
          | Some new_domains =>
              r ←! recurse new_assignment new_domains;
              match r with
              | Some solution => Ok (Some solution)
              | None => try rest
              end
          | None => try rest
          end
        else try rest
    end.

(** [_backtrack]; [fuel] bounds the depth of the recursion. Unpacking the
    [None] of [_select_unassigned_variable] raises [TypeError]. *)
Fixpoint _backtrack (iter : set_order) (self : ZebraPuzzle) (fuel : nat)
    (a : assignment) (d : domains) : result (option assignment) :=
  match fuel with
  | O => NoFuel
  | S fuel' =>
      if _is_complete self a then Ok (Some a)
      else
        var ←! _select_unassigned_variable self a d;
        match var with
        | None => Raise TypeError
        | Some (category, position) =>
            s ←! getdom d category position;
            try_values self (_backtrack iter self fuel') a d
              category position (iter a s)
        end
  end.

(** Lines 66-68. *)
Definition initial_domains (self : ZebraPuzzle) : domains :=
  foldl (λ d cv,
    dset d cv.1 ((λ pos, (pos, list_to_set cv.2)) <$>
                   range (num_positions self)))
    [] (categories self).

(** The number of variables of the puzzle. *)
Definition variables (self : ZebraPuzzle) : nat :=
  (length (categories self) * Z.to_nat (num_positions self))%nat.

Definition solve (iter : set_order) (self : ZebraPuzzle)
    : result (option assignment) :=
  d ←! _propagate_constraints self (initial_domains self);
  match d with
  | None => Ok None
  | Some d => _backtrack iter self (S (variables self)) [] d
  end.

(** ** The example puzzle of example_puzzle.py *)

Definition unwrap (r : result constraint) : constraint :=
  match r with Ok f => f | _ => λ _, Raise ValueError end.

Definition example_categories : dict string (list string) :=
  [("nationality", ["English"; "Spanish"; "Japanese"]);
   ("color", ["red"; "green"; "ivory"]);
   ("pet", ["dog"; "snail"; "fox"]);
   ("drink", ["coffee"; "tea"; "water"])].

Definition example_puzzle : ZebraPuzzle :=
  {| num_positions := 3;
     categories := example_categories;
     constraints :=
       [ {| func := unwrap (same_position "nationality" "English" "color" "red");
            description := "The Englishman lives in the red house" |};
         {| func := unwrap (same_position "nationality" "Spanish" "pet" "dog");
            description := "The Spaniard owns the dog" |};
         {| func := unwrap (same_position "drink" "coffee" "color" "green");
            description := "Coffee is drunk in the green house" |};
         {| func := unwrap (immediately_right_of "color" "green" "color" "red");
            description := "The green house is immediately to the right of the red house" |};
         {| func := unwrap (adjacent "pet" "snail" "drink" "tea");
            description := "The person who owns the snail lives next to the person who drinks tea" |};
         {| func := unwrap (adjacent "nationality" "Japanese" "pet" "snail");
            description := "The Japanese lives next to the snail owner" |} ] |}.

(** An order of enumeration: that of [elements]. *)
Definition elements_order : set_order := λ _ s, elements s.

(** ** Vocabulary of the statements *)

(** A Python [dict] holds each key once. *)
Definition is_dict {K V} (d : dict K V) : Prop := NoDup (dkeys d).

(** The value is not in the assignment: its category is missing, or no
    item of that category holds it. *)
Definition absent (a : assignment) (category value : string) : Prop :=
  match dget a category with
  | None => True
  | Some items => ∀ pos, (pos, value) ∉ items
  end.

(** [built_by f refs]: the predicate [f] was returned by one of the nine
    factories, called on the (category, value) pairs [refs]. *)
Inductive built_by : constraint → list (string * string) → Prop :=
| built_same_position c1 v1 c2 v2 f :
    same_position c1 v1 c2 v2 = Ok f → built_by f [(c1, v1); (c2, v2)]
| built_adjacent c1 v1 c2 v2 f :
    adjacent c1 v1 c2 v2 = Ok f → built_by f [(c1, v1); (c2, v2)]
| built_left_of c1 v1 c2 v2 f :
    left_of c1 v1 c2 v2 = Ok f → built_by f [(c1, v1); (c2, v2)]
| built_immediately_right_of c1 v1 c2 v2 f :
    immediately_right_of c1 v1 c2 v2 = Ok f →
    built_by f [(c1, v1); (c2, v2)]
| built_not_same_position c1 v1 c2 v2 f :
    not_same_position c1 v1 c2 v2 = Ok f → built_by f [(c1, v1); (c2, v2)]
| built_at_position c v position f :
    at_position c v position = Ok f → built_by f [(c, v)]
| built_at_edge c v edge f :
    at_edge c v edge = Ok f → built_by f [(c, v)]
| built_middle_position c v n f :
    middle_position c v n = Ok f → built_by f [(c, v)]
| built_one_of_positions c v positions f :
    one_of_positions c v positions = Ok f → built_by f [(c, v)].

(** [pos] is at the requested edge of the positions [0 .. n-1]. *)
Definition on_edge (n : Z) (edge : string) (pos : Z) : Prop :=
  (edge = "first" ∧ pos = 0) ∨
  (edge = "last" ∧ pos = n - 1) ∨
  (edge = "either" ∧ (pos = 0 ∨ pos = n - 1)).

(** A puzzle obtained from the constructor and [add_constraint]. *)
Inductive constructed : ZebraPuzzle → Prop :=
| constructed_init n cats self :
    ZebraPuzzle_init n cats = Ok self → constructed self
| constructed_add self f descr :
    constructed self → constructed (add_constraint self f descr).

(** The items of one category form a bijection between the positions
    [0 .. n-1] and the values of the category. *)
Definition bijection_onto (n : Z) (values : list string)
    (items : dict Z string) : Prop :=
  (∀ pos, 0 ≤ pos < n → is_Some (dget items pos)) ∧
  (∀ pos v, dget items pos = Some v → 0 ≤ pos < n ∧ v ∈ values) ∧
  (∀ v, v ∈ values → ∃ pos, dget items pos = Some v) ∧
  (∀ p1 p2 v, dget items p1 = Some v → dget items p2 = Some v → p1 = p2).

(** Some domain of the map is empty. *)
Definition has_empty (d : domains) : Prop :=
  ∃ category position,
    getdom d category position = Ok ∅.

(** The domain map has a domain for every position of each of its
    categories, and its categories are declared by the puzzle. *)
Definition covers (self : ZebraPuzzle) (d : domains) : Prop :=
  ∀ category, category ∈ dkeys d →
    is_Some (dget (categories self) category) ∧
    ∀ pos, 0 ≤ pos < num_positions self →
      ∃ s, getdom d category pos = Ok s.


(** Every registered predicate answers [True] on the assignment. *)
Definition satisfies (self : ZebraPuzzle) (a : assignment) : Prop :=
  Forall (λ c, func c a = Ok true) (constraints self).


(** The assignment is incomplete at a declared category: the category is
    missing, or it holds fewer than [num_positions] entries. *)
Definition incomplete_at (self : ZebraPuzzle) (a : assignment)
    (category : string) : Prop :=
  category ∈ dkeys (categories self) ∧
  (dget a category = None ∨
   ∃ items, dget a category = Some items ∧ is_dict items ∧
            Z.of_nat (length items) < num_positions self).

(** The domain map has a domain for every variable of the puzzle. *)
Definition covers_variables (self : ZebraPuzzle) (d : domains) : Prop :=
  ∀ category pos,
    category ∈ dkeys (categories self) →
    0 ≤ pos < num_positions self →
    ∃ s, getdom d category pos = Ok s.

(** ** Vocabulary of the proofs about propagation *)

(** What holds once a loop body or a rule has run: [I] of the new state
    when the loop goes on, nothing when the function returned [None]; the
    bound of the model is never reached, and a [strict] statement also
    excludes exceptions. *)
Definition holds_after {S} (strict : bool) (I : S → Prop)
    (r : result (option S)) : Prop :=
  match r with
  | Ok (Some s) => I s
  | Ok None => True
  | Raise _ => strict = false
  | NoFuel => False
  end.

(** A property of the propagation state that survives every mutation the
    rules perform: replacing a domain by a strict subset of itself. *)
Definition store_stable (I : pstate → Prop) : Prop :=
  ∀ st category pos s s' st',
    I st →
    getdom (doms st) category pos = Ok s →
    s' ⊂ s →
    store st category pos s' = Ok (Some st') →
    I st'.

(** The state at the top of a turn of the loop: [changed = False]. *)
Definition reset (st : pstate) : pstate :=
  {| doms := doms st; changed := false; seen := seen st |}.

(** Two domain maps have the same categories and, in each category, the
    same positions, in the same order. *)
Definition same_shape (d0 d : domains) : Prop :=
  dkeys d = dkeys d0 ∧
  ∀ category, dkeys <$> dget d category = dkeys <$> dget d0 category.

(** Every domain of [d] is included in the domain of [d0] for the same
    variable. *)
Definition shrinks (d0 d : domains) : Prop :=
  ∀ category pos s, getdom d category pos = Ok s →
    ∃ s0, getdom d0 category pos = Ok s0 ∧ s ⊆ s0.

(** Two propagation states that differ at most in their ghost history. *)
Definition same_visible (st1 st2 : pstate) : Prop :=
  doms st1 = doms st2 ∧ changed st1 = changed st2.

(** Two runs end alike, with states related by [R] when they go on. *)
Definition rel_result {S} (R : S → S → Prop) (r1 r2 : result (option S))
    : Prop :=
  match r1, r2 with
  | Ok (Some s1), Ok (Some s2) => R s1 s2
  | Ok None, Ok None => True
  | Raise e1, Raise e2 => e1 = e2
  | NoFuel, NoFuel => True
  | _, _ => False
  end.

(** The ghost history is faithful and emptiness is never lost: the latest
    entry is the current map, the oldest is the map [d] the run started
    from, an empty domain met at any point is still empty now, and it
    has set [changed]. *)
Definition wipeout_tracked (d : domains) (st : pstate) : Prop :=
  head (seen st) = Some (doms st) ∧
  last (seen st) = Some d ∧
  (∀ d', d' ∈ seen st → has_empty d' → has_empty (doms st)) ∧
  (has_empty (doms st) → changed st = true).

(** A category with the same label twice: the first propagation of
    [solve] wipes a domain out. *)
Definition twin_puzzle : ZebraPuzzle :=
  {| num_positions := 2;
     categories := [("pet", ["dog"; "dog"])];
     constraints := [] |}.

(** What the search keeps true of its frames, for a puzzle [self]: the
    entries of the assignment are variables of the puzzle carrying values
    of their category, no value sits at two positions of a category, a
    value that is assigned has left the domains of the other positions of
    its category, and domains hold values of their category only. *)
Definition search_frame (self : ZebraPuzzle) (a : assignment) (d : domains)
    : Prop :=
  (∀ category items, dget a category = Some items →
     is_dict items ∧
     (∀ p1 p2 v, dget items p1 = Some v → dget items p2 = Some v → p1 = p2) ∧
     ∀ pos v, dget items pos = Some v →
       0 ≤ pos < num_positions self ∧
       (∃ values, dget (categories self) category = Some values ∧
                  v ∈ values) ∧
       ∀ q s, q ≠ pos → 0 ≤ q < num_positions self →
              getdom d category q = Ok s → v ∉ s) ∧
  (∀ category pos s, getdom d category pos = Ok s →
     ∃ values, dget (categories self) category = Some values ∧
               ∀ v, v ∈ s → v ∈ values).

(** ** Vocabulary of the statement that [solve] returns *)

(** No registered predicate raises or fails to return. *)
Definition total_constraints (self : ZebraPuzzle) : Prop :=
  ∀ c, c ∈ constraints self → ∀ a, ∃ b, func c a = Ok b.

(** The number of variables the assignment does not hold yet; it bounds
    the depth of the recursion that is left. *)
Definition unassigned_count (self : ZebraPuzzle) (a : assignment) : nat :=
  sum_list_with
    (λ cv, Z.to_nat (num_positions self)
           - length (default [] (dget a cv.1)))%nat
    (categories self).

(** The shape of a search frame: the assignment holds positions of the
    puzzle, once each, and the domain map has the shape of the initial
    one. *)
Definition search_shape (self : ZebraPuzzle) (a : assignment) (d : domains)
    : Prop :=
  (∀ category items, dget a category = Some items →
     is_dict items ∧
     ∀ pos, pos ∈ dkeys items → 0 ≤ pos < num_positions self) ∧
  same_shape (initial_domains self) d.

(** ** Vocabulary of further properties of the constraint library *)

(** Category [category] of the assignment holds [value] at [pos]. *)
Definition holds_at (a : assignment) (category : string) (pos : Z)
    (value : string) : Prop :=
  ∃ items, dget a category = Some items ∧ dget items pos = Some value.

(** The items of a category form a dictionary that holds no value at two
    positions. *)
Definition one_to_one (items : dict Z string) : Prop :=
  is_dict items ∧
  ∀ p1 p2 v, dget items p1 = Some v → dget items p2 = Some v → p1 = p2.

(** Every category of the assignment is one-to-one. *)
Definition values_once (a : assignment) : Prop :=
  ∀ category items, dget a category = Some items → one_to_one items.

(** The predicate a factory call returned, applied to an assignment; a
    factory call that raised gives its exception. *)
Definition run (r : result constraint) (a : assignment) : result bool :=
  f ←! r; f a.

(** ** Vocabulary of further properties of the solver *)

(** The variables of the puzzle in the order in which
    [_select_unassigned_variable] meets them: categories in declaration
    order, then positions upwards. *)
Definition puzzle_variables (self : ZebraPuzzle) : list (string * Z) :=
  category ← dkeys (categories self);
  (λ position, (category, position)) <$> range (num_positions self).

(** The variable is not in the assignment. *)
Definition free (a : assignment) (var : string * Z) : Prop :=
  assigned a var.1 var.2 = false.

(** ** zebra_solver.py: query_solution *)

(** [query_solution(solution, category, value)]; the [solution] may be
    [None]. The result dictionary is filled in the order of the
    categories of the solution; a category without the position found
    raises [KeyError]. *)
Definition query_solution (solution : option assignment)
    (category value : string) : result (option (dict string string)) :=
  match solution with
  | None => Ok None
  | Some solution =>
      match dget solution category with
      | None => Ok None
      | Some items =>
          match scan_items items value with
          | None => Ok None
          | Some position =>
              r ←! rfold solution (λ ca result,
                     v ←! ditem ca.2 position;
                     Ok (dset result ca.1 v)) [];
              Ok (Some r)
          end
      end
  end.

(** ** web_app.py: the rows sent back by [solve_puzzle] *)

(** A JSON number or string. *)
Inductive jvalue := JInt (z : Z) | JStr (s : string).

(** Lines 84-90 of web_app.py: one dictionary per position, holding the
    1-based position under 'position' and then the value of each
    category of the solution under the name of the category. *)
Definition format_solution (num_positions : Z) (solution : assignment)
    : result (list (dict string jvalue)) :=
  rfold (range num_positions) (λ pos formatted_solution,
    position_data ←! rfold solution (λ ca position_data,
                       v ←! ditem ca.2 pos;
                       Ok (dset position_data ca.1 (JStr v)))
                     [("position", JInt (pos + 1))];
    Ok (formatted_solution ++ [position_data])) [].

(** What the scan of [_select_unassigned_variable] has established once
    the variables [processed] are behind it, for its loop state
    [(min_remaining, best_var)]. *)
Definition mrv_invariant (a : assignment) (d : domains)
    (processed : list (string * Z))
    (acc : option nat * option (string * Z)) : Prop :=
  match acc.2 with
  | None => acc.1 = None ∧ ∀ var, var ∈ processed → ¬ free a var
  | Some best =>
      ∃ before after s,
        processed = before ++ best :: after ∧
        free a best ∧
        getdom d best.1 best.2 = Ok s ∧
        acc.1 = Some (size s) ∧
        (∀ var, var ∈ before → free a var →
           ∃ s', getdom d var.1 var.2 = Ok s' ∧ (size s < size s')%nat) ∧
        (∀ var, var ∈ after → free a var →
           ∃ s', getdom d var.1 var.2 = Ok s' ∧ (size s ≤ size s')%nat)
  end.

(** A well-formed assignment: a dictionary of dictionaries. *)
Definition is_assignment (a : assignment) : Prop :=
  is_dict a ∧ ∀ category items, (category, items) ∈ a → is_dict items.

(** Every category of the assignment has an entry at the position. *)
Definition all_hold (a : assignment) (position : Z) : Prop :=
  ∀ category items, (category, items) ∈ a → is_Some (dget items position).

(** What [_backtrack] keeps true of the assignment as a dictionary: it
    is well formed and its categories are declared by the puzzle. *)
Definition declared_frame (self : ZebraPuzzle) (a : assignment)
    (d : domains) : Prop :=
  search_frame self a d ∧ is_dict a ∧
  ∀ category, category ∈ dkeys a → category ∈ dkeys (categories self).

(** Row [row] of the web handler for position [pos]: the value of each
    category of the solution under its name, and the 1-based position
    under 'position' unless a category has that name. *)
Definition row_of (solution : assignment) (pos : Z)
    (row : dict string jvalue) : Prop :=
  (∀ category items, dget solution category = Some items →
     dget row category = JStr <$> dget items pos) ∧
  ("position" ∉ dkeys solution →
   dget row "position" = Some (JInt (pos + 1))).

(** ** Vocabulary of the statements about solution grids *)

(** A grid of the puzzle: every declared category maps the positions
    [0 .. num_positions-1] one-to-one onto its values. *)
Definition is_grid (self : ZebraPuzzle) (g : assignment) : Prop :=
  ∀ category values, dget (categories self) category = Some values →
    ∃ items, dget g category = Some items ∧
             bijection_onto (num_positions self) values items.

(** The domain map holds domains of variables of the puzzle only. *)
Definition only_variables (self : ZebraPuzzle) (d : domains) : Prop :=
  ∀ category pos s, getdom d category pos = Ok s →
    category ∈ dkeys (categories self) ∧ 0 ≤ pos < num_positions self.

(** The domain map allows the grid: the value the grid holds at a
    variable of the puzzle is in the domain of that variable. *)
Definition allows (self : ZebraPuzzle) (d : domains) (g : assignment)
    : Prop :=
  ∀ category pos v,
    category ∈ dkeys (categories self) →
    holds_at g category pos v →
    ∃ s, getdom d category pos = Ok s ∧ v ∈ s.

(** The assignment is a part of the grid: a well-formed assignment whose
    entries are entries of the grid. *)
Definition part_of (g a : assignment) : Prop :=
  is_assignment a ∧
  ∀ category pos v, holds_at a category pos v → holds_at g category pos v.

(** What holds once a loop body or a rule has run on a state that allows
    a grid: it has not returned [None], and [I] holds of the new state
    when it goes on. *)
Definition survives {S} (I : S → Prop) (r : result (option S)) : Prop :=
  match r with
  | Ok (Some s) => I s
  | Ok None => False
  | _ => True
  end.

(** The propagation state allows the grid. *)
Definition sound_state (self : ZebraPuzzle) (g : assignment) (st : pstate)
    : Prop :=
  only_variables self (doms st) ∧ allows self (doms st) g.

(** Every registered predicate was returned by a factory of the
    library. *)
Definition library_puzzle (self : ZebraPuzzle) : Prop :=
  ∀ c, c ∈ constraints self → ∃ refs, built_by (func c) refs.

(** ** Vocabulary of the statement about determinism *)






(** * Properties *)

(** ** Dictionaries *)

Section dict_facts.
Context {K V : Type} `{EqDecision K}.
Implicit Types (d : dict K V) (k : K) (v : V).

Lemma dget_Some_elem d k v : dget d k = Some v → (k, v) ∈ d.
Proof.
  induction d as [|[k' v'] d IH]; simpl; [done|].
  case_decide; intros; simplify_eq; [left | right; auto].
Qed.

Lemma dget_None d k : dget d k = None ↔ k ∉ dkeys d.
Proof.
  unfold dkeys. induction d as [|[k' v'] d IH]; simpl.
  - split; [intros _; apply not_elem_of_nil | done].
  - rewrite not_elem_of_cons. case_decide; simplify_eq.
    + split; [done | intros [? _]; done].
    + rewrite IH. split; [by split | by intros [_ ?]].
Qed.

Lemma dget_is_Some d k : is_Some (dget d k) ↔ k ∈ dkeys d.
Proof.
  rewrite <- not_eq_None_Some, dget_None.
  split; [apply dec_stable | auto].
Qed.

Lemma elem_dget d k v : is_dict d → (k, v) ∈ d → dget d k = Some v.
Proof.
  unfold is_dict, dkeys. induction d as [|[k' v'] d IH]; simpl.
  - intros _ Hin. by apply elem_of_nil in Hin.
  - rewrite NoDup_cons, elem_of_cons. intros [Hk Hd] [Heq|Hin].
    + simplify_eq. by rewrite decide_True.
    + rewrite decide_False; [auto|]. intros ->. apply Hk.
      apply list_elem_of_fmap. by exists (k', v).
Qed.

Lemma dget_dset d k k' v :
  dget (dset d k v) k' = if decide (k' = k) then Some v else dget d k'.
Proof.
  induction d as [|[k0 v0] d IH]; simpl.
  - done.
  - destruct (decide (k = k0)) as [->|]; simpl; repeat case_decide;
      simplify_eq; auto.
Qed.

Lemma dkeys_dset_mem d k v :
  k ∈ dkeys d → dkeys (dset d k v) = dkeys d.
Proof.
  unfold dkeys. induction d as [|[k0 v0] d IH]; simpl.
  - intros Hin. by apply elem_of_nil in Hin.
  - rewrite elem_of_cons. case_decide; simpl; [by simplify_eq|].
    intros [?|?]; [done|]. f_equal. auto.
Qed.

Lemma dkeys_dset_new d k v :
  k ∉ dkeys d → dkeys (dset d k v) = dkeys d ++ [k].
Proof.
  unfold dkeys. induction d as [|[k0 v0] d IH]; simpl; [done|].
  rewrite not_elem_of_cons. intros [? ?].
  rewrite decide_False by done. simpl. f_equal. auto.
Qed.

Lemma is_dict_dset d k v : is_dict d → is_dict (dset d k v).
Proof.
  unfold is_dict. intros Hd. destruct (decide (k ∈ dkeys d)).
  - by rewrite dkeys_dset_mem.
  - rewrite dkeys_dset_new by done. apply NoDup_app. split; [done|].
    split; [|apply NoDup_singleton].
    intros x Hx Hx'. apply list_elem_of_singleton in Hx'. by subst.
Qed.

Lemma length_dset_new d k v :
  k ∉ dkeys d → length (dset d k v) = S (length d).
Proof.
  intros Hk. rewrite <- (length_fmap fst (dset d k v)).
  change (fst <$> dset d k v) with (dkeys (dset d k v)).
  rewrite dkeys_dset_new, length_app by done. unfold dkeys.
  rewrite length_fmap. simpl. lia.
Qed.

End dict_facts.

(** ** The constraint library *)

Lemma scan_items_None items value :
  (∀ pos, (pos, value) ∉ items) → scan_items items value = None.
Proof.
  induction items as [|[pos val] items IH]; simpl; [done|].
  intros Habs. case_decide as Hval.
  - subst val. destruct (Habs pos). left.
  - apply IH. intros p Hp. apply (Habs p). by right.
Qed.

Lemma absent_position_of a category value :
  absent a category value → position_of a category value = None.
Proof.
  unfold absent, position_of. destruct (dget a category); [|done].
  apply scan_items_None.
Qed.

Lemma both_assigned_absent test c1 v1 c2 v2 a :
  absent a c1 v1 ∨ absent a c2 v2 →
  both_assigned test c1 v1 c2 v2 a = Ok true.
Proof.
  unfold both_assigned.
  intros [->%absent_position_of | ->%absent_position_of]; [done|].
  by destruct (position_of a c1 v1).
Qed.

Lemma max_key_spec keys k :
  k ∈ keys → (∀ p, p ∈ keys → p ≤ k) → max_key keys = Ok k.
Proof.
  destruct keys as [|k0 ks]; simpl.
  - intros Hk. by apply elem_of_nil in Hk.
  - intros Hk Hmax. f_equal.
    assert (Hgen : ∀ acc, (acc ≤ k) → (acc = k ∨ k ∈ ks) →
                          (∀ p, p ∈ ks → p ≤ k) → foldl Z.max acc ks = k).
    { clear. induction ks as [|x ks IH]; simpl; intros acc Hle Hin Hall.
      - destruct Hin as [?|Hin]; [done | by apply elem_of_nil in Hin].
      - assert (x ≤ k) by (apply Hall; left).
        apply IH; [lia| |intros p Hp; apply Hall; by right].
        destruct Hin as [->|[->|?]%elem_of_cons]; [| |by right].
        + left. lia.
        + left. lia. }
    apply Hgen.
    + apply Hmax. left.
    + apply elem_of_cons in Hk. destruct Hk; [by left | by right].
    + intros p Hp. apply Hmax. by right.
Qed.

(** C3. A predicate returned by any of the nine factories answers [True] on
    every assignment in which one of the values it refers to is absent
    (its category is missing, or no position of the category holds it). *)
Theorem open_world_vacuous_truth f refs a :
  built_by f refs →
  Exists (λ cv, absent a cv.1 cv.2) refs →
  f a = Ok true.
Proof.
  intros Hbuilt Habs.
  assert (Hone : ∀ c v, Exists (λ cv : string * string, absent a cv.1 cv.2)
                          [(c, v)] → absent a c v).
  { intros c v [?|Hnil]%Exists_cons; [done | by apply Exists_nil in Hnil]. }
  assert (Htwo : ∀ c1 v1 c2 v2,
             Exists (λ cv : string * string, absent a cv.1 cv.2)
               [(c1, v1); (c2, v2)] → absent a c1 v1 ∨ absent a c2 v2).
  { intros c1 v1 c2 v2 [?|?%Hone]%Exists_cons; auto. }
  destruct Hbuilt as
    [c1 v1 c2 v2 f Hf|c1 v1 c2 v2 f Hf|c1 v1 c2 v2 f Hf|c1 v1 c2 v2 f Hf
    |c1 v1 c2 v2 f Hf|c v position f Hf|c v edge f Hf|c v n f Hf
    |c v positions f Hf].
  1-5: injection Hf as <-; by apply both_assigned_absent, Htwo.
  all: apply Hone in Habs; unfold absent in Habs.
  - injection Hf as <-. destruct (dget a c) as [items|]; [|done].
    rewrite (scan_items_None _ _ Habs).
    destruct (dget items position) as [val|]; [|done].
    f_equal. destruct (decide (val = v)).
    + by rewrite (bool_decide_eq_true_2 (val = v)), orb_true_r.
    + by rewrite (bool_decide_eq_true_2 (val ≠ v)).
  - injection Hf as <-. destruct (dget a c) as [items|]; [|done].
    by rewrite (scan_items_None _ _ Habs).
  - unfold middle_position in Hf. case_decide; [done|].
    injection Hf as <-. destruct (dget a c) as [items|]; [|done].
    by rewrite (scan_items_None _ _ Habs).
  - injection Hf as <-. destruct (dget a c) as [items|]; [|done].
    by rewrite (scan_items_None _ _ Habs).
Qed.

Lemma open_world_vacuous_truth_witness :
  let f := unwrap (adjacent "pet" "snail" "drink" "tea") in
  let a := [("pet", [(1, "snail")]); ("drink", [(0, "water")])] in
  built_by f [("pet", "snail"); ("drink", "tea")] ∧
  Exists (λ cv, absent a cv.1 cv.2) [("pet", "snail"); ("drink", "tea")] ∧
  f a = Ok true.
Proof.
  intros f a.
  assert (Hb : built_by f [("pet", "snail"); ("drink", "tea")])
    by (by apply built_adjacent).
  assert (Ha : Exists (λ cv, absent a cv.1 cv.2)
                 [("pet", "snail"); ("drink", "tea")]).
  { apply Exists_cons_tl, Exists_cons_hd. simpl.
    intros pos Hin. apply list_elem_of_singleton in Hin. discriminate. }
  split; [exact Hb|]. split; [exact Ha|].
  exact (open_world_vacuous_truth f _ a Hb Ha).
Defined.

(** C5. The source of the defect: [at_edge] accepts an edge designator
    that is none of 'first', 'last', 'either' and returns a predicate; the
    predicate answers [True] as long as the value is not assigned and
    raises [ValueError] only once it is. [middle_position], next to it,
    rejects its bad argument in the factory call. *)
Lemma at_edge_rejects_late :
  ∃ f, at_edge "color" "yellow" "middle" = Ok f ∧
       f [] = Ok true ∧
       f [("color", [(0, "red")])] = Ok true ∧
       f [("color", [(0, "red"); (1, "yellow")])] = Raise ValueError ∧
       middle_position "drink" "milk" 4 = Raise ValueError.
Proof. eexists. split; [reflexivity|]. repeat split. Qed.

(** C6, as stated, fails: with five positions and only position 2 of the
    category assigned, the 'last' predicate accepts position 2. *)
Lemma at_edge_full_range_counterexample :
  let a := [("color", [(2, "yellow")])] in
  ∃ f, at_edge "color" "yellow" "last" = Ok f ∧
       position_of a "color" "yellow" = Some 2 ∧
       f a = Ok true ∧
       ¬ on_edge 5 "last" 2.
Proof.
  eexists. split; [reflexivity|]. repeat split.
  unfold on_edge. intros [[? _]|[[_ ?]|[? _]]]; discriminate.
Qed.

(** C6, amended. When the value is found at [pos], the predicate answers
    whether [pos] is at the requested edge of [0 .. k], where [k] is the
    largest position assigned so far in the category; it never raises for
    the three designators. With [k = num_positions - 1] this is the full
    range of the puzzle. *)
Theorem at_edge_assigned_range category value edge f a items pos k :
  at_edge category value edge = Ok f →
  edge ∈ ["first"; "last"; "either"] →
  dget a category = Some items →
  scan_items items value = Some pos →
  k ∈ dkeys items →
  (∀ p, p ∈ dkeys items → p ≤ k) →
  (∃ b, f a = Ok b) ∧ (f a = Ok true ↔ on_edge (k + 1) edge pos).
Proof.
  intros Hf Hedge Hcat Hscan Hk Hmax. injection Hf as <-.
  rewrite Hcat, Hscan, (max_key_spec _ k Hk Hmax). simpl.
  unfold on_edge.
  repeat (apply elem_of_cons in Hedge as [->|Hedge]);
    [| | |by apply elem_of_nil in Hedge]; simpl.
  - split; [eauto|]. split.
    + intros [= ?%bool_decide_eq_true]. auto.
    + intros [[_ ->]|[[? _]|[? _]]]; done.
  - split; [eauto|]. split.
    + intros [= ?%bool_decide_eq_true]. right. left. split; [done|lia].
    + intros [[? _]|[[_ ->]|[? _]]]; try done.
      f_equal. apply bool_decide_eq_true. lia.
  - split; [eauto|]. split.
    + intros [= [?%bool_decide_eq_true|?%bool_decide_eq_true]%orb_true_iff];
        right; right; (split; [done|lia]).
    + intros [[? _]|[[? _]|[_ [->| ->]]]]; try done.
      f_equal. apply orb_true_iff. right. apply bool_decide_eq_true. lia.
Qed.

Lemma at_edge_assigned_range_witness :
  let a := [("color", [(0, "red"); (4, "yellow")])] in
  let f := unwrap (at_edge "color" "yellow" "last") in
  at_edge "color" "yellow" "last" = Ok f ∧
  "last" ∈ ["first"; "last"; "either"] ∧
  dget a "color" = Some [(0, "red"); (4, "yellow")] ∧
  scan_items [(0, "red"); (4, "yellow")] "yellow" = Some 4 ∧
  4 ∈ dkeys [(0, "red"); (4, "yellow")] ∧
  (∀ p, p ∈ dkeys [(0, "red"); (4, "yellow")] → p ≤ 4) ∧
  (∃ b, f a = Ok b) ∧ (f a = Ok true ↔ on_edge (4 + 1) "last" 4).
Proof.
  intros a f.
  assert (H1 : at_edge "color" "yellow" "last" = Ok f) by reflexivity.
  assert (H2 : "last" ∈ ["first"; "last"; "either"])
    by (right; left).
  assert (H3 : dget a "color" = Some [(0, "red"); (4, "yellow")])
    by reflexivity.
  assert (H4 : scan_items [(0, "red"); (4, "yellow")] "yellow" = Some 4)
    by reflexivity.
  assert (H5 : 4 ∈ dkeys [(0, "red"); (4, "yellow")]) by (right; left).
  assert (H6 : ∀ p, p ∈ dkeys [(0, "red"); (4, "yellow")] → p ≤ 4).
  { intros p Hp. simpl in Hp.
    repeat (apply elem_of_cons in Hp as [->|Hp]); [lia|lia|].
    by apply elem_of_nil in Hp. }
  repeat (split; [assumption|]).
  exact (at_edge_assigned_range "color" "yellow" "last" f a _ 4 4
           H1 H2 H3 H4 H5 H6).
Defined.

(** ** Construction *)

Lemma validate_spec n cats :
  validate n cats =
    if decide (Forall (λ cv, Z.of_nat (length cv.2) = n) cats)
    then Ok () else Raise ValueError.
Proof.
  induction cats as [|[c values] cats IH]; simpl.
  - done.
  - destruct (decide (Z.of_nat (length values) ≠ n)) as [Hne|Heq].
    + rewrite decide_False; [done|]. by intros [? _]%Forall_cons.
    + apply dec_stable in Heq. rewrite IH.
      destruct (decide (Forall _ cats)) as [Hall|Hex].
      * rewrite decide_True; [done|]. by constructor.
      * rewrite decide_False; [done|]. by intros [_ ?]%Forall_cons.
Qed.

(** C4. The constructor raises [ValueError] exactly when some category has
    a value list whose length is not [num_positions]; otherwise it returns
    the puzzle, with no constraint yet. The check is the whole of the
    constructor: [solve] only takes a puzzle it returned. *)
Theorem init_checks_value_counts n cats :
  ZebraPuzzle_init n cats =
    if decide (Forall (λ cv, Z.of_nat (length cv.2) = n) cats)
    then Ok {| num_positions := n; categories := cats; constraints := [] |}
    else Raise ValueError.
Proof.
  unfold ZebraPuzzle_init. rewrite validate_spec. by case_decide.
Qed.

(** ** Search: what a returned solution went through *)

Lemma rbind_Ok {A B} (r : result A) (k : A → result B) b :
  rbind r k = Ok b → ∃ a, r = Ok a ∧ k a = Ok b.
Proof. destruct r; simpl; [eauto | done | done]. Qed.

Lemma consistent_with_true cs a :
  consistent_with cs a = Ok true ↔ Forall (λ c, func c a = Ok true) cs.
Proof.
  induction cs as [|c cs IH]; simpl.
  - split; [constructor | done].
  - rewrite Forall_cons, <- IH. destruct (func c a) as [[]| |]; simpl.
    + split; [by split | by intros [_ ?]].
    + split; [done | by intros [? _]].
    + split; [done | by intros [? _]].
    + split; [done | by intros [? _]].
Qed.

Lemma try_values_Some self recurse a d c p cands sol :
  try_values self recurse a d c p cands = Ok (Some sol) →
  ∃ value d1 d2,
    value ∈ cands ∧
    _is_consistent self (extend a c p value) = Ok true ∧
    _update_domains self d c p value = Ok d1 ∧
    _propagate_constraints self d1 = Ok (Some d2) ∧
    recurse (extend a c p value) d2 = Ok (Some sol).
Proof.
  induction cands as [|value rest IH]; simpl; [done|].
  assert (Hrest : try_values self recurse a d c p rest = Ok (Some sol) →
    ∃ v d1 d2, v ∈ value :: rest ∧
      _is_consistent self (extend a c p v) = Ok true ∧
      _update_domains self d c p v = Ok d1 ∧
      _propagate_constraints self d1 = Ok (Some d2) ∧
      recurse (extend a c p v) d2 = Ok (Some sol)).
  { intros (v & d1 & d2 & Hv & H)%IH. exists v, d1, d2.
    split; [by right | done]. }
  intros (ok & Hok & H)%rbind_Ok. destruct ok; [|by apply Hrest].
  apply rbind_Ok in H as (d1 & Hd1 & H).
  apply rbind_Ok in H as (od2 & Hd2 & H).
  destruct od2 as [d2|]; [|by apply Hrest].
  apply rbind_Ok in H as (r & Hr & H).
  destruct r as [sol'|]; [|by apply Hrest].
  simplify_eq. exists value, d1, d2. split; [left | done].
Qed.

(** A property of the search frames that every committed step preserves
    holds of the frame that returns the solution, and that frame is
    complete. *)
Lemma backtrack_invariant iter self (Inv : assignment → domains → Prop) :
  (∀ a d c p s value d1 d2,
     Inv a d →
     _is_complete self a = false →
     _select_unassigned_variable self a d = Ok (Some (c, p)) →
     getdom d c p = Ok s →
     value ∈ iter a s →
     _is_consistent self (extend a c p value) = Ok true →
     _update_domains self d c p value = Ok d1 →
     _propagate_constraints self d1 = Ok (Some d2) →
     Inv (extend a c p value) d2) →
  ∀ fuel a d sol,
    Inv a d →
    _backtrack iter self fuel a d = Ok (Some sol) →
    _is_complete self sol = true ∧ ∃ d', Inv sol d'.
Proof.
  intros Hstep. induction fuel as [|fuel IH]; intros a d sol HInv; simpl;
    [done|].
  destruct (_is_complete self a) eqn:Hc.
  - intros [= <-]. eauto.
  - intros (var & Hsel & H)%rbind_Ok. destruct var as [[c p]|]; [|done].
    apply rbind_Ok in H as (s & Hs & H).
    apply try_values_Some in H
      as (value & d1 & d2 & Hv & Hcons & Hd1 & Hd2 & Hrec).
    eapply IH; [|exact Hrec]. eapply Hstep; eauto.
Qed.

Lemma is_complete_nil self :
  _is_complete self [] = true → categories self = [].
Proof.
  unfold _is_complete. by destruct (categories self) as [|[c vs] cats].
Qed.

(** Outside the contract of constraints: a puzzle without categories is
    solved by the empty assignment, which is returned before any
    predicate is looked at, also a predicate that rejects the empty
    assignment. *)
Lemma empty_puzzle_unchecked :
  let self := {| num_positions := 3; categories := [];
                 constraints := [{| func := λ _, Ok false;
                                    description := "never" |}] |} in
  solve elements_order self = Ok (Some []) ∧ ¬ satisfies self [].
Proof.
  split; [reflexivity|].
  intros Hall. apply Forall_cons in Hall as [Hf _]. discriminate.
Qed.

(** C2. Every registered predicate answers [True] on the assignment that
    [solve] returns. The predicates follow the open-world contract of
    constraints as far as the empty assignment goes, on which they
    answer [True] since it holds no value at all; a puzzle that declares
    a category needs not even that. *)
Theorem solution_satisfies_constraints iter self sol :
  categories self ≠ [] ∨ satisfies self [] →
  solve iter self = Ok (Some sol) →
  satisfies self sol.
Proof.
  intros Hne (od & _ & H)%rbind_Ok. destruct od as [d|]; [|done].
  apply (backtrack_invariant iter self
           (λ a _, a = [] ∨ satisfies self a)) in H.
  - destruct H as [Hc [_ [->|Hsat]]]; [|done].
    apply is_complete_nil in Hc. by destruct Hne.
  - intros a d0 c p s value d1 d2 _ _ _ _ _ Hcons _ _. right.
    by apply consistent_with_true.
  - by left.
Qed.

Lemma solution_satisfies_constraints_witness :
  let sol := [("nationality",
                 [(0, "Spanish"); (1, "English"); (2, "Japanese")]);
              ("color", [(0, "ivory"); (1, "red"); (2, "green")]);
              ("pet", [(0, "dog"); (1, "snail"); (2, "fox")]);
              ("drink", [(0, "tea"); (1, "water"); (2, "coffee")])] in
  (categories example_puzzle ≠ [] ∨ satisfies example_puzzle []) ∧
  solve elements_order example_puzzle = Ok (Some sol) ∧
  satisfies example_puzzle sol.
Proof.
  intros sol.
  assert (H1 : categories example_puzzle ≠ [] ∨ satisfies example_puzzle [])
    by (by left).
  assert (H2 : solve elements_order example_puzzle = Ok (Some sol))
    by (vm_compute; reflexivity).
  split; [exact H1|]. split; [exact H2|].
  exact (solution_satisfies_constraints elements_order example_puzzle sol
           H1 H2).
Defined.

(** ** Determinism *)


Section same_definition.
Context (iter : set_order) (p1 p2 : ZebraPuzzle).
Hypothesis Hn : num_positions p1 = num_positions p2.
Hypothesis Hcats : categories p1 = categories p2.
Hypothesis Hcs :
  Forall2 (λ c1 c2, ∀ a, func c1 a = func c2 a)
    (constraints p1) (constraints p2).








End same_definition.


(** ** Variable selection *)

Lemma rfold_hit {X S} (I F : S → Prop) (hit : X → Prop)
    (body : X → S → result S) (l : list X) :
  ∀ s,
    I s →
    (∀ x s, x ∈ l → I s →
       ∃ s', body x s = Ok s' ∧ I s' ∧ (F s → F s') ∧ (hit x → F s')) →
    ∃ s', rfold l body s = Ok s' ∧ I s' ∧
          (F s ∨ (∃ x, x ∈ l ∧ hit x) → F s').
Proof.
  induction l as [|x l IH]; intros s HI Hstep; simpl.
  - exists s. split; [done|]. split; [done|].
    intros [?|(x & Hx & _)]; [done | by apply elem_of_nil in Hx].
  - destruct (Hstep x s) as (s1 & -> & HI1 & Hmono & Hhit);
      [left | done |]. simpl.
    destruct (IH s1 HI1) as (s' & Hs' & HI' & HF').
    { intros y t Hy. apply Hstep. by right. }
    exists s'. split; [done|]. split; [done|].
    intros [HF|(y & [->|Hy]%elem_of_cons & Hy')]; apply HF'; eauto.
Qed.

Lemma elem_of_range n pos : pos ∈ range n ↔ 0 ≤ pos < n.
Proof. unfold range. rewrite elem_of_seqZ. lia. Qed.

(** A dictionary with fewer than [n] keys misses a position of
    [0 .. n-1]. *)
Lemma free_position {V} (items : dict Z V) n :
  is_dict items → Z.of_nat (length items) < n →
  ∃ pos, 0 ≤ pos < n ∧ dget items pos = None.
Proof.
  intros Hd Hlen.
  destruct (decide (Forall (λ p, p ∈ dkeys items) (range n)))
    as [Hall|Hex].
  - exfalso. rewrite Forall_forall in Hall.
    assert (Hsub : range n ⊆+ dkeys items).
    { apply NoDup_submseteq; [apply NoDup_seqZ | done]. }
    apply submseteq_length in Hsub. unfold range, dkeys in Hsub.
    rewrite length_seqZ, length_fmap in Hsub. lia.
  - apply not_Forall_Exists in Hex; [|apply _].
    apply Exists_exists in Hex as (pos & Hpos & Hno). simpl in Hno.
    exists pos. split; [by apply elem_of_range | by apply dget_None].
Qed.

(** Outside the input contract, which asks for a positive number of
    positions: with no position at all, a declared category is missing
    from the empty assignment, yet no variable exists to be selected;
    [_backtrack] then fails to unpack the result. *)
Lemma select_without_positions :
  let self := {| num_positions := 0; categories := [("color", [])];
                 constraints := [] |} in
  ZebraPuzzle_init 0 [("color", [])] = Ok self ∧
  incomplete_at self [] "color" ∧
  covers_variables self (initial_domains self) ∧
  _select_unassigned_variable self [] (initial_domains self) = Ok None ∧
  solve elements_order self = Raise TypeError.
Proof.
  split; [reflexivity|]. split.
  { split; [left | by left]. }
  split.
  { intros c pos _ Hpos. simpl in Hpos. lia. }
  split; reflexivity.
Qed.

(** An incomplete category leaves a position free. *)
Lemma incomplete_free_position self a category :
  0 < num_positions self →
  incomplete_at self a category →
  ∃ pos, 0 ≤ pos < num_positions self ∧ assigned a category pos = false.
Proof.
  intros Hn [_ Hinc]. unfold assigned.
  destruct Hinc as [->|(items & -> & Hd & Hlen)].
  - exists 0. split; [lia | done].
  - destruct (free_position items _ Hd Hlen) as (pos & Hpos & Hget).
    exists pos. split; [done|]. unfold dmem. by rewrite Hget.
Qed.

(** As soon as one variable of the puzzle is free, the scan returns a
    free variable: once [best_var] is set it stays set, and the free
    variable sets it if it was not. *)
Lemma select_some_at self a d category pos0 :
  category ∈ dkeys (categories self) →
  0 ≤ pos0 < num_positions self →
  assigned a category pos0 = false →
  covers_variables self d →
  ∃ c pos,
    _select_unassigned_variable self a d = Ok (Some (c, pos)) ∧
    c ∈ dkeys (categories self) ∧
    0 ≤ pos < num_positions self ∧
    assigned a c pos = false.
Proof.
  intros Hcat Hpos0 Hfree Hcov.
  set (I := λ acc : option nat * option (string * Z),
         (is_Some acc.1 → is_Some acc.2) ∧
         ∀ c pos, acc.2 = Some (c, pos) →
           c ∈ dkeys (categories self) ∧
           0 ≤ pos < num_positions self ∧ assigned a c pos = false).
  set (F := λ acc : option nat * option (string * Z), is_Some acc.2).
  assert (Hpos : ∀ c, c ∈ dkeys (categories self) → ∀ pos acc,
            pos ∈ range (num_positions self) → I acc →
            ∃ acc',
              (if assigned a c pos then Ok acc
               else s ←! getdom d c pos;
                    if below (size s) acc.1
                    then Ok (Some (size s), Some (c, pos))
                    else Ok acc) = Ok acc' ∧
              I acc' ∧ (F acc → F acc') ∧
              (c = category ∧ pos = pos0 → F acc')).
  { intros c Hc pos acc Hpos%elem_of_range [HL HV].
    destruct (assigned a c pos) eqn:Has.
    - exists acc. split; [done|]. split; [done|]. split; [done|].
      intros [-> ->]. congruence.
    - destruct (Hcov c pos Hc Hpos) as [s ->]. simpl.
      destruct (below (size s) acc.1) eqn:Hbelow.
      + eexists. split; [done|]. split.
        { split; [by eauto|]. by intros c' pos' [= <- <-]. }
        split; intros; by eexists.
      + exists acc. split; [done|]. split; [done|]. split; [done|].
        intros _. apply HL. unfold below in Hbelow.
        by destruct acc.1. }
  unfold _select_unassigned_variable.
  destruct (rfold_hit I F (λ c, c = category)
              (λ c acc, rfold (range (num_positions self)) (λ pos acc,
                 if assigned a c pos then Ok acc
                 else s ←! getdom d c pos;
                      if below (size s) acc.1
                      then Ok (Some (size s), Some (c, pos))
                      else Ok acc) acc)
              (dkeys (categories self)) (None, None))
    as (acc & Hacc & HI & HF).
  - split; [by intros [? ?] | done].
  - intros c acc Hc HIacc.
    destruct (rfold_hit I F (λ pos, c = category ∧ pos = pos0) _
                (range (num_positions self)) acc HIacc
                (λ pos acc', Hpos c Hc pos acc'))
      as (acc' & Hacc' & HI' & HF').
    exists acc'. split; [done|]. split; [done|].
    split; [by auto|]. intros ->. apply HF'. right.
    exists pos0. split; [by apply elem_of_range | done].
  - rewrite Hacc. simpl. destruct acc as [m [[c pos]|]].
    + exists c, pos. split; [done|]. by apply (proj2 HI).
    + destruct HF as [? ?]; [|done]. right. by exists category.
Qed.

(** C10. In a puzzle with a positive number of positions, as the input
    contract has it, for an assignment that is incomplete at some
    declared category and a domain map that has a domain for every
    variable, [_select_unassigned_variable] returns a variable of the
    puzzle that the assignment does not hold, never [None]: the
    selection step of [_backtrack] succeeds. *)
Theorem select_finds_unassigned self a d category :
  0 < num_positions self →
  incomplete_at self a category →
  covers_variables self d →
  ∃ c pos,
    _select_unassigned_variable self a d = Ok (Some (c, pos)) ∧
    c ∈ dkeys (categories self) ∧
    0 ≤ pos < num_positions self ∧
    assigned a c pos = false.
Proof.
  intros Hn Hinc Hcov.
  destruct (incomplete_free_position self a category Hn Hinc)
    as (pos0 & Hpos0 & Hfree).
  destruct Hinc as [Hcat _].
  by apply (select_some_at self a d category pos0).
Qed.

Lemma select_finds_unassigned_witness :
  0 < num_positions example_puzzle ∧
  incomplete_at example_puzzle [] "color" ∧
  covers_variables example_puzzle (initial_domains example_puzzle) ∧
  ∃ c pos,
    _select_unassigned_variable example_puzzle []
      (initial_domains example_puzzle) = Ok (Some (c, pos)) ∧
    c ∈ dkeys (categories example_puzzle) ∧
    0 ≤ pos < num_positions example_puzzle ∧
    assigned [] c pos = false.
Proof.
  assert (H1 : 0 < num_positions example_puzzle) by (simpl; lia).
  assert (H2 : incomplete_at example_puzzle [] "color").
  { split; [right; left | by left]. }
  assert (H3 : covers_variables example_puzzle
                 (initial_domains example_puzzle)).
  { intros c pos Hc Hpos. simpl in Hc, Hpos.
    assert (pos = 0 ∨ pos = 1 ∨ pos = 2) as [->|[->| ->]] by lia;
      repeat (apply elem_of_cons in Hc as [->|Hc]);
      try (by apply elem_of_nil in Hc); by eexists. }
  split; [exact H1|]. split; [exact H2|]. split; [exact H3|].
  exact (select_finds_unassigned example_puzzle [] _ "color" H1 H2 H3).
Defined.

(** ** Propagation: loops and lookups *)

Lemma for_each_holds {X S} strict (I : S → Prop)
    (body : X → S → result (option S)) l :
  ∀ s,
    I s →
    (∀ x s, x ∈ l → I s → holds_after strict I (body x s)) →
    holds_after strict I (for_each l body s).
Proof.
  induction l as [|x l IH]; intros s HI Hbody; simpl; [done|].
  pose proof (Hbody x s (list_elem_of_here _ _) HI) as Hx.
  destruct (body x s) as [[s1|]| |]; simpl in *; try done.
  apply IH; [done|]. intros y t Hy. apply Hbody. by right.
Qed.

Lemma ditem_Ok {K V} `{EqDecision K} (d : dict K V) k v :
  ditem d k = Ok v ↔ dget d k = Some v.
Proof.
  unfold ditem. destruct (dget d k); split; intros; by simplify_eq.
Qed.

Lemma getdom_Ok d c p s :
  getdom d c p = Ok s ↔ ∃ m, dget d c = Some m ∧ dget m p = Some s.
Proof.
  unfold getdom, ditem. destruct (dget d c) as [m|]; simpl.
  - destruct (dget m p) eqn:Hp; split.
    + intros [= <-]. eauto.
    + intros (m' & [= <-] & ?). congruence.
    + done.
    + intros (m' & [= <-] & ?). congruence.
  - split; [done | by intros (m' & ? & _)].
Qed.

Lemma getdom_putdom d c p s d' c' p' :
  putdom d c p s = Ok d' →
  getdom d' c' p' =
    if decide (c' = c ∧ p' = p) then Ok s else getdom d c' p'.
Proof.
  unfold putdom, getdom, ditem.
  destruct (dget d c) as [m|] eqn:Hm; simpl; [|done]. intros [= <-].
  rewrite dget_dset. destruct (decide (c' = c)) as [->|Hc]; simpl.
  - rewrite dget_dset, Hm. simpl.
    destruct (decide (p' = p)) as [->|Hp].
    + by rewrite decide_True.
    + rewrite decide_False; [done|]. by intros [_ ?].
  - rewrite decide_False; [done|]. by intros [? _].
Qed.

Lemma putdom_Ok d c p s0 s :
  getdom d c p = Ok s0 → ∃ d', putdom d c p s = Ok d'.
Proof.
  intros (m & Hm & _)%getdom_Ok. unfold putdom, ditem. rewrite Hm.
  simpl. eauto.
Qed.

Lemma same_shape_refl d : same_shape d d.
Proof. done. Qed.

Lemma same_shape_trans d0 d1 d2 :
  same_shape d0 d1 → same_shape d1 d2 → same_shape d0 d2.
Proof.
  intros [Hk1 Hi1] [Hk2 Hi2]. split; [congruence|].
  intros c. by rewrite Hi2, Hi1.
Qed.

Lemma same_shape_putdom d c p s0 s d' :
  getdom d c p = Ok s0 → putdom d c p s = Ok d' → same_shape d d'.
Proof.
  intros (m & Hm & Hs0)%getdom_Ok. unfold putdom, ditem. rewrite Hm.
  simpl. intros [= <-]. split.
  - apply dkeys_dset_mem, dget_is_Some. eauto.
  - intros c'. rewrite dget_dset. case_decide as Hc; [|done]. subst c'.
    rewrite Hm. simpl. f_equal. apply dkeys_dset_mem, dget_is_Some. eauto.
Qed.

Lemma same_shape_getdom d0 d c p s0 :
  same_shape d0 d → getdom d0 c p = Ok s0 → ∃ s, getdom d c p = Ok s.
Proof.
  intros [_ Hi] (m0 & Hm0 & Hs0)%getdom_Ok. specialize (Hi c).
  rewrite Hm0 in Hi. destruct (dget d c) as [m|] eqn:Hm; [|done].
  simpl in Hi. injection Hi as Hi.
  assert (is_Some (dget m p)) as [s Hs].
  { apply dget_is_Some. rewrite Hi. apply dget_is_Some. eauto. }
  exists s. apply getdom_Ok. eauto.
Qed.

Lemma same_shape_covers self d0 d :
  same_shape d0 d → covers self d0 → covers self d.
Proof.
  intros Hsh Hcov c Hc. rewrite (proj1 Hsh) in Hc.
  destruct (Hcov c Hc) as [Hcat Hpos]. split; [done|].
  intros pos Hp. destruct (Hpos pos Hp) as [s0 Hs0].
  by eapply same_shape_getdom.
Qed.

Lemma possible_positions_spec d c v l pp :
  possible_positions d c v l = Ok pp →
  ∀ pos, pos ∈ pp → pos ∈ l ∧ ∃ s, getdom d c pos = Ok s ∧ v ∈ s.
Proof.
  revert pp. induction l as [|x l IH]; simpl; intros pp.
  - intros [= <-] pos Hpos. by apply elem_of_nil in Hpos.
  - intros (s & Hs & H)%rbind_Ok. apply rbind_Ok in H as (rest & Hr & H).
    injection H as <-. intros pos Hpos.
    destruct (decide (v ∈ s)).
    + apply elem_of_cons in Hpos as [->|Hpos].
      * split; [left | eauto].
      * destruct (IH _ Hr pos Hpos). split; [by right | done].
    + destruct (IH _ Hr pos Hpos). split; [by right | done].
Qed.

Lemma possible_positions_total d c v l :
  (∀ pos, pos ∈ l → ∃ s, getdom d c pos = Ok s) →
  ∃ pp, possible_positions d c v l = Ok pp.
Proof.
  induction l as [|x l IH]; simpl; intros Hl; [eauto|].
  destruct (Hl x) as [s ->]; [left|]. simpl.
  destruct IH as [rest ->]; [intros pos Hp; apply Hl; by right|].
  simpl. eauto.
Qed.

Lemma ditem_cases {K V} `{EqDecision K} (d : dict K V) k :
  (∃ v, dget d k = Some v ∧ ditem d k = Ok v) ∨
  (dget d k = None ∧ ditem d k = Raise KeyError).
Proof. unfold ditem. destruct (dget d k); eauto. Qed.

Lemma getdom_cases d c p :
  (∃ s, getdom d c p = Ok s) ∨ getdom d c p = Raise KeyError.
Proof.
  unfold getdom. destruct (ditem_cases d c) as [(m & _ & ->)|[_ ->]];
    simpl; [|by right].
  destruct (ditem_cases m p) as [(s & _ & ->)|[_ ->]]; eauto.
Qed.

Lemma possible_positions_cases d c v l :
  (∃ pp, possible_positions d c v l = Ok pp) ∨
  possible_positions d c v l = Raise KeyError.
Proof.
  induction l as [|x l IH]; simpl; [eauto|].
  destruct (getdom_cases d c x) as [[s ->]| ->]; simpl; [|by right].
  destruct IH as [[rest ->]| ->]; simpl; eauto.
Qed.

Lemma same_shape_position d0 d1 d2 c m p :
  same_shape d0 d1 → same_shape d0 d2 →
  dget d1 c = Some m → p ∈ dkeys m →
  ∃ s, getdom d2 c p = Ok s.
Proof.
  intros [_ H1] [_ H2] Hm Hp. specialize (H1 c). specialize (H2 c).
  rewrite Hm, <- H2 in H1. destruct (dget d2 c) as [m2|] eqn:Hm2; [|done].
  simpl in H1. injection H1 as H1.
  assert (is_Some (dget m2 p)) as [s Hs].
  { apply dget_is_Some. by rewrite <- H1. }
  exists s. apply getdom_Ok. eauto.
Qed.

(** ** Propagation: a rule for the two pruning rules *)

Section sweep.
Context (self : ZebraPuzzle) (strict : bool) (d0 : domains).
Context (I : pstate → Prop).
Hypothesis I_store : store_stable I.
Hypothesis I_shape : strict = true → ∀ st, I st → same_shape d0 (doms st).
Hypothesis d0_covers : strict = true → covers self d0.

Lemma store_holds st c pos s s' :
  I st → getdom (doms st) c pos = Ok s → s' ⊂ s →
  holds_after strict I (store st c pos s').
Proof.
  intros HI Hs Hsub. destruct (putdom_Ok _ _ _ _ s' Hs) as [d' Hd'].
  assert (Hst : store st c pos s'
                = Ok (Some {| doms := d'; changed := true;
                              seen := d' :: seen st |})).
  { unfold store. by rewrite Hd'. }
  rewrite Hst. simpl. by eapply I_store.
Qed.

Lemma lookup_strict st c pos :
  strict = true → I st → c ∈ dkeys d0 →
  pos ∈ range (num_positions self) →
  ∃ s, getdom (doms st) c pos = Ok s.
Proof.
  intros Hstrict HI Hc Hpos%elem_of_range.
  destruct (d0_covers Hstrict c Hc) as [_ Hcov].
  destruct (Hcov pos Hpos) as [s0 Hs0].
  eapply same_shape_getdom; [by apply I_shape | done].
Qed.

Lemma remove_elsewhere_holds c position value st :
  (strict = true → c ∈ dkeys d0) → I st →
  holds_after strict I
    (remove_elsewhere (num_positions self) c position value st).
Proof.
  intros Hc HI. unfold remove_elsewhere.
  apply for_each_holds; [done|]. clear st HI. intros pos st Hpos HI.
  case_decide; [|done].
  destruct (getdom_cases (doms st) c pos) as [[s Hs]|Hraise].
  - rewrite Hs. simpl. case_decide; [|done].
    eapply store_holds; [done..|]. by apply subset_difference_elem_of.
  - rewrite Hraise. simpl.
    destruct (decide (strict = true)) as [Hstrict|Hstrict];
      [|by apply not_true_is_false].
    destruct (lookup_strict st c pos) as [s Hs]; auto. congruence.
Qed.

Lemma singleton_rule_holds st :
  I st → holds_after strict I (singleton_rule (num_positions self) st).
Proof.
  intros HI. unfold singleton_rule.
  assert (Hkeys : strict = true → dkeys (doms st) = dkeys d0)
    by (intros Hs; by apply I_shape).
  generalize dependent (dkeys (doms st)). intros cats Hcats.
  apply for_each_holds; [done|]. clear st HI. intros c st Hc HI.
  assert (Hc0 : strict = true → c ∈ dkeys d0)
    by (intros Hs; by rewrite <- Hcats).
  destruct (ditem_cases (doms st) c) as [(m & Hm & ->)|[Hno ->]]; simpl.
  - apply for_each_holds; [done|]. intros position st' Hpos HI'.
    destruct (getdom_cases (doms st') c position) as [[s Hs]|Hraise].
    + rewrite Hs. simpl. destruct (elements s) as [|value [|? ?]]; try done.
      by apply remove_elsewhere_holds.
    + rewrite Hraise. simpl.
      destruct (decide (strict = true)) as [Hstrict|Hstrict];
        [|by apply not_true_is_false].
      destruct (same_shape_position d0 (doms st) (doms st') c m position)
        as [s Hs]; auto. congruence.
  - destruct (decide (strict = true)) as [Hstrict|Hstrict];
      [|by apply not_true_is_false].
    apply dget_None in Hno. destruct Hno.
    rewrite (proj1 (I_shape Hstrict st HI)). auto.
Qed.

Lemma unique_position_rule_holds st :
  I st → holds_after strict I (unique_position_rule self st).
Proof.
  intros HI. unfold unique_position_rule.
  assert (Hkeys : strict = true → dkeys (doms st) = dkeys d0)
    by (intros Hs; by apply I_shape).
  generalize dependent (dkeys (doms st)). intros cats Hcats.
  apply for_each_holds; [done|]. clear st HI. intros c st Hc HI.
  assert (Hc0 : strict = true → c ∈ dkeys d0)
    by (intros Hs; by rewrite <- Hcats).
  destruct (ditem_cases (categories self) c)
    as [(values & Hvalues & ->)|[Hno ->]]; simpl.
  - apply for_each_holds; [done|]. intros value st' Hvalue HI'.
    destruct (possible_positions_cases (doms st') c value
                (range (num_positions self))) as [[pp Hpp]|Hraise].
    + rewrite Hpp. simpl. destruct pp as [|pos [|? ?]]; try done.
      destruct (possible_positions_spec _ _ _ _ _ Hpp pos)
        as (_ & s & Hs & Hin); [left|].
      rewrite Hs. simpl. case_decide as Hsize; [|done].
      eapply store_holds; [done..|]. split.
      { by apply singleton_subseteq_l. }
      intros Hsub. apply subseteq_size in Hsub.
      rewrite size_singleton in Hsub. lia.
    + rewrite Hraise. simpl.
      destruct (decide (strict = true)) as [Hstrict|Hstrict];
        [|by apply not_true_is_false].
      destruct (possible_positions_total (doms st') c value
                  (range (num_positions self))) as [pp Hpp].
      * intros pos Hpos. by apply lookup_strict; auto.
      * congruence.
  - destruct (decide (strict = true)) as [Hstrict|Hstrict];
      [|by apply not_true_is_false].
    destruct (d0_covers Hstrict c (Hc0 Hstrict)) as [[v Hv] _]. congruence.
Qed.
End sweep.

(** ** Propagation: the wipe-out check *)

Lemma for_each_readonly {X S} (body : X → S → result (option S)) l (s : S) :
  (∀ x, x ∈ l → body x s = Ok (Some s) ∨ body x s = Ok None) →
  (for_each l body s = Ok (Some s) ∧ ∀ x, x ∈ l → body x s = Ok (Some s)) ∨
  (for_each l body s = Ok None ∧ ∃ x, x ∈ l ∧ body x s = Ok None).
Proof.
  induction l as [|x l IH]; intros Hbody; simpl.
  - left. split; [done|]. intros x Hx. by apply elem_of_nil in Hx.
  - destruct (Hbody x) as [Hx|Hx]; [left| |]; rewrite Hx; simpl.
    + destruct IH as [[-> Hall]|[-> (y & Hy & Hnone)]].
      * intros y Hy. apply Hbody. by right.
      * left. split; [done|].
        intros y [->|Hy]%elem_of_cons; [done | by apply Hall].
      * right. split; [done|]. exists y. split; [by right | done].
    + right. split; [done|]. exists x. split; [left | done].
Qed.

Lemma check_wipeout_spec st :
  (check_wipeout st = Ok (Some st) ∧ ¬ has_empty (doms st)) ∨
  (check_wipeout st = Ok None ∧ has_empty (doms st)).
Proof.
  set (inner := λ (c : string) (position : Z) (st' : pstate),
         s ←! getdom (doms st') c position;
         if decide (size s = 0%nat) then Ok None else Ok (Some st')).
  assert (Hinner : ∀ c m, dget (doms st) c = Some m →
    (for_each (dkeys m) (inner c) st = Ok (Some st) ∧
     ∀ p s, dget m p = Some s → s ≠ ∅) ∨
    (for_each (dkeys m) (inner c) st = Ok None ∧
     ∃ p, dget m p = Some ∅)).
  { intros c m Hm.
    assert (Hpos : ∀ p, p ∈ dkeys m →
              ∃ s, dget m p = Some s ∧
                   inner c p st = if decide (size s = 0%nat)
                                  then Ok None else Ok (Some st)).
    { intros p [s Hs]%dget_is_Some. exists s. split; [done|].
      unfold inner. assert (getdom (doms st) c p = Ok s) as ->; [|done].
      apply getdom_Ok. eauto. }
    destruct (for_each_readonly (inner c) (dkeys m) st)
      as [[Hr Hall]|[Hr (p & Hp & Hnone)]].
    - intros p (s & _ & ->)%Hpos. case_decide; auto.
    - left. split; [done|]. intros p s Hs ->.
      destruct (Hpos p) as (s' & Hs' & Hi); [apply dget_is_Some; eauto|].
      rewrite (Hall p) in Hi by (apply dget_is_Some; eauto).
      rewrite Hs in Hs'. injection Hs' as <-.
      by rewrite decide_True in Hi by apply size_empty.
    - right. split; [done|]. exists p.
      destruct (Hpos p Hp) as (s & Hs & Hi). rewrite Hnone in Hi.
      case_decide as Hsize; [|done]. apply size_empty_inv in Hsize.
      apply leibniz_equiv in Hsize. by subst. }
  unfold check_wipeout. fold inner.
  destruct (for_each_readonly
              (λ c st', m ←! ditem (doms st') c;
                        for_each (dkeys m) (inner c) st')
              (dkeys (doms st)) st) as [[Hr Hall]|[Hr (c & Hc & Hnone)]].
  - intros c [m Hm]%dget_is_Some.
    rewrite (proj2 (ditem_Ok _ _ _) Hm). simpl.
    destruct (Hinner c m Hm) as [[-> _]|[-> _]]; auto.
  - left. split; [done|]. intros (c & p & (m & Hm & Hp)%getdom_Ok).
    assert (Hc : c ∈ dkeys (doms st)) by (apply dget_is_Some; eauto).
    specialize (Hall c Hc). rewrite (proj2 (ditem_Ok _ _ _) Hm) in Hall.
    simpl in Hall. destruct (Hinner c m Hm) as [[_ Hne]|[Hr' _]].
    + by apply (Hne p ∅).
    + congruence.
  - right. split; [done|]. apply dget_is_Some in Hc as [m Hm].
    rewrite (proj2 (ditem_Ok _ _ _) Hm) in Hnone. simpl in Hnone.
    destruct (Hinner c m Hm) as [[Hr' _]|[_ (p & Hp)]]; [congruence|].
    exists c, p. apply getdom_Ok. eauto.
Qed.

(** ** Propagation: one turn of the loop *)

Lemma propagate_pass_holds self strict d0 (I : pstate → Prop) st :
  store_stable I →
  (strict = true → ∀ st, I st → same_shape d0 (doms st)) →
  (strict = true → covers self d0) →
  I (reset st) →
  holds_after strict I (propagate_pass self st).
Proof.
  intros Hstore Hshape Hcov HI. unfold propagate_pass. fold (reset st).
  destruct (check_wipeout_spec (reset st)) as [[-> _]|[-> _]]; [|done].
  simpl.
  pose proof (singleton_rule_holds self strict d0 I Hstore Hshape Hcov
                (reset st) HI) as H1.
  destruct (singleton_rule _ _) as [[st1|]| |]; simpl in *; try done.
  by eapply unique_position_rule_holds.
Qed.

Lemma store_inv st c pos s' st' :
  store st c pos s' = Ok (Some st') →
  putdom (doms st) c pos s' = Ok (doms st') ∧
  changed st' = true ∧ seen st' = doms st' :: seen st.
Proof.
  unfold store. intros (d & Hd & [= <-])%rbind_Ok. by simpl.
Qed.

(** A turn that leaves [changed] unset has mutated nothing. *)
Lemma propagate_pass_unchanged self st st' :
  propagate_pass self st = Ok (Some st') →
  changed st' = false → st' = reset st.
Proof.
  intros Hpass.
  pose proof (propagate_pass_holds self false []
    (λ st', changed st' = false → st' = reset st) st) as H.
  rewrite Hpass in H. apply H; try done.
  intros st1 c pos s s' st2 _ _ _ (_ & Hch & _)%store_inv. congruence.
Qed.

(** ** Propagation: the loop ends *)

Lemma sum_list_dset {K V} `{EqDecision K} (f : V → nat) (d : dict K V)
    k v0 v :
  dget d k = Some v0 →
  (sum_list ((λ kv, f kv.2) <$> dset d k v) + f v0
   = sum_list ((λ kv, f kv.2) <$> d) + f v)%nat.
Proof.
  induction d as [|[k' v'] d IH]; simpl; [done|].
  case_decide; simpl.
  - intros [= ->]. lia.
  - intros Hget. specialize (IH Hget). unfold fmap in IH. lia.
Qed.

Lemma weight_putdom d c p s s' d' :
  getdom d c p = Ok s → putdom d c p s' = Ok d' →
  (weight d' + size s = weight d + size s')%nat.
Proof.
  intros (m & Hm & Hs)%getdom_Ok. unfold putdom.
  rewrite (proj2 (ditem_Ok _ _ _) Hm). simpl. intros [= <-].
  set (W := λ m : dict Z (gset string),
         sum_list ((λ ps : Z * gset string, size ps.2) <$> m)).
  assert (H1 : (weight (dset d c (dset m p s')) + W m
                = weight d + W (dset m p s'))%nat)
    by exact (sum_list_dset W d c m (dset m p s') Hm).
  assert (H2 : (W (dset m p s') + size s = W m + size s')%nat)
    by exact (sum_list_dset (λ s : gset string, size s) m p s s' Hs).
  clearbody W. lia.
Qed.

Lemma propagate_pass_weight self st st' :
  propagate_pass self st = Ok (Some st') →
  (weight (doms st') ≤ weight (doms st))%nat ∧
  (changed st' = true → (weight (doms st') < weight (doms st))%nat).
Proof.
  intros Hpass.
  pose proof (propagate_pass_holds self false []
    (λ st', (weight (doms st') ≤ weight (doms st))%nat ∧
            (changed st' = true →
             (weight (doms st') < weight (doms st))%nat)) st) as H.
  rewrite Hpass in H. apply H; try done.
  intros st1 c pos s s' st2 [Hle _] Hs Hss (Hput & _)%store_inv.
  pose proof (weight_putdom _ _ _ _ _ _ Hs Hput).
  apply subset_size in Hss. lia.
Qed.

Lemma propagate_loop_stop self fuel st :
  changed st = false → propagate_loop self fuel st = Ok (Some st).
Proof. intros Hch. destruct fuel; simpl; by rewrite Hch. Qed.

(** A property that every turn of the loop preserves holds of the state
    the loop returns; with fuel above the weight of the domain map the
    bound of the model is not reached. *)
Lemma propagate_loop_holds self strict (I : pstate → Prop) :
  (∀ st, I st → changed st = true →
         holds_after strict I (propagate_pass self st)) →
  ∀ fuel st,
    (weight (doms st) < fuel)%nat → I st →
    holds_after strict I (propagate_loop self fuel st).
Proof.
  intros Hpass. induction fuel as [|fuel IH]; intros st Hfuel HI; [lia|].
  simpl. destruct (changed st) eqn:Hch; [|done].
  specialize (Hpass st HI Hch).
  destruct (propagate_pass self st) as [[st1|]| |] eqn:Hp; simpl in *;
    try done.
  destruct (changed st1) eqn:Hch1.
  - apply IH; [|done].
    destruct (propagate_pass_weight _ _ _ Hp) as [_ Hlt].
    specialize (Hlt Hch1). lia.
  - by rewrite propagate_loop_stop.
Qed.

Lemma propagate_loop_changed self fuel st st' :
  propagate_loop self fuel st = Ok (Some st') → changed st' = false.
Proof.
  revert st. induction fuel as [|fuel IH]; intros st; simpl.
  - destruct (changed st) eqn:Hch; [done|]. by intros [= <-].
  - destruct (changed st) eqn:Hch; [|by intros [= <-]].
    destruct (propagate_pass self st) as [[st1|]| |]; simpl; try done.
    apply IH.
Qed.

(** The state returned by the loop comes out of a turn that changed
    nothing. *)
Lemma propagate_loop_last self fuel st st' :
  propagate_loop self fuel st = Ok (Some st') → changed st = true →
  ∃ st1, propagate_pass self st1 = Ok (Some st') ∧ changed st' = false.
Proof.
  revert st. induction fuel as [|fuel IH]; intros st; simpl.
  - intros H Hch. by rewrite Hch in H.
  - intros H Hch. rewrite Hch in H.
    destruct (propagate_pass self st) as [[st1|]| |] eqn:Hp; simpl in H;
      try done.
    destruct (changed st1) eqn:Hch1; [by apply (IH st1)|].
    rewrite propagate_loop_stop in H by done. injection H as <-. eauto.
Qed.

Lemma propagate_run_Some self d st :
  propagate_run self d = Ok (Some st) →
  _propagate_constraints self d = Ok (Some (doms st)).
Proof. unfold _propagate_constraints. by intros ->. Qed.

Lemma propagate_constraints_Some self d d' :
  _propagate_constraints self d = Ok (Some d') →
  ∃ st, propagate_run self d = Ok (Some st) ∧ doms st = d'.
Proof.
  unfold _propagate_constraints. intros (ost & Hrun & H)%rbind_Ok.
  destruct ost as [st|]; [|done]. injection H as <-. eauto.
Qed.

(** ** Propagation: the ghost history is not read *)

Lemma for_each_rel {X S} (R : S → S → Prop)
    (body1 body2 : X → S → result (option S)) l :
  ∀ s1 s2,
    R s1 s2 →
    (∀ x s1 s2, R s1 s2 → rel_result R (body1 x s1) (body2 x s2)) →
    rel_result R (for_each l body1 s1) (for_each l body2 s2).
Proof.
  induction l as [|x l IH]; intros s1 s2 HR Hbody; simpl; [done|].
  specialize (Hbody x s1 s2 HR) as Hx.
  destruct (body1 x s1) as [[t1|]| |], (body2 x s2) as [[t2|]| |];
    simpl in *; try done.
  by apply IH.
Qed.

Lemma store_rel st1 st2 c pos s :
  same_visible st1 st2 →
  rel_result same_visible (store st1 c pos s) (store st2 c pos s).
Proof.
  intros [Hd _]. unfold store. rewrite Hd.
  by destruct (putdom (doms st2) c pos s).
Qed.

Lemma remove_elsewhere_rel n c position value st1 st2 :
  same_visible st1 st2 →
  rel_result same_visible (remove_elsewhere n c position value st1)
    (remove_elsewhere n c position value st2).
Proof.
  intros HR. apply for_each_rel; [done|]. clear. intros pos st1 st2 HR.
  case_decide; [|done]. rewrite (proj1 HR).
  destruct (getdom (doms st2) c pos) as [s| |]; simpl; try done.
  case_decide; [|done]. by apply store_rel.
Qed.

Lemma singleton_rule_rel n st1 st2 :
  same_visible st1 st2 →
  rel_result same_visible (singleton_rule n st1) (singleton_rule n st2).
Proof.
  intros HR. unfold singleton_rule. rewrite (proj1 HR).
  apply for_each_rel; [done|]. clear. intros c st1 st2 HR.
  rewrite (proj1 HR).
  destruct (ditem (doms st2) c) as [m| |]; simpl; try done.
  apply for_each_rel; [done|]. clear. intros position st1 st2 HR.
  rewrite (proj1 HR).
  destruct (getdom (doms st2) c position) as [s| |]; simpl; try done.
  destruct (elements s) as [|value [|? ?]]; try done.
  by apply remove_elsewhere_rel.
Qed.

Lemma unique_position_rule_rel self st1 st2 :
  same_visible st1 st2 →
  rel_result same_visible (unique_position_rule self st1)
    (unique_position_rule self st2).
Proof.
  intros HR. unfold unique_position_rule. rewrite (proj1 HR).
  apply for_each_rel; [done|]. clear. intros c st1 st2 HR.
  destruct (ditem (categories self) c) as [values| |]; simpl; try done.
  apply for_each_rel; [done|]. clear. intros value st1 st2 HR.
  rewrite (proj1 HR).
  destruct (possible_positions _ _ _ _) as [[|pos [|? ?]]| |]; simpl;
    try done.
  destruct (getdom (doms st2) c pos) as [s| |]; simpl; try done.
  case_decide; [|done]. by apply store_rel.
Qed.

Lemma propagate_pass_rel self st1 st2 :
  doms st1 = doms st2 →
  rel_result same_visible (propagate_pass self st1)
    (propagate_pass self st2).
Proof.
  intros Hd. unfold propagate_pass. fold (reset st1) (reset st2).
  assert (HR : same_visible (reset st1) (reset st2)) by done.
  destruct (check_wipeout_spec (reset st1)) as [[-> H1]|[-> H1]];
    destruct (check_wipeout_spec (reset st2)) as [[-> H2]|[-> H2]];
    simpl in *; try done; try (rewrite Hd in H1; done).
  pose proof (singleton_rule_rel (num_positions self) _ _ HR) as Hs.
  destruct (singleton_rule _ (reset st1)) as [[t1|]| |],
    (singleton_rule _ (reset st2)) as [[t2|]| |]; simpl in *; try done.
  by apply unique_position_rule_rel.
Qed.

(** C7. When [_propagate_constraints] returns a domain map, propagating
    that map again returns it as it is. *)
Theorem propagate_idempotent self d d' :
  _propagate_constraints self d = Ok (Some d') →
  _propagate_constraints self d' = Ok (Some d').
Proof.
  intros (st' & Hrun & <-)%propagate_constraints_Some.
  apply propagate_loop_last in Hrun as (st1 & Hpass & Hch); [|done].
  pose proof (propagate_pass_unchanged _ _ _ Hpass Hch) as Heq.
  set (st2 := {| doms := doms st'; changed := true;
                 seen := [doms st'] |}).
  pose proof (propagate_pass_rel self st1 st2) as Hrel.
  rewrite Hpass in Hrel.
  destruct (propagate_pass self st2) as [[st2'|]| |] eqn:Hpass2;
    try (by destruct Hrel; subst st').
  destruct Hrel as [Hd2 Hch2]; [by subst st'|].
  unfold _propagate_constraints, propagate_run. fold st2. simpl.
  rewrite Hpass2. simpl.
  rewrite propagate_loop_stop by congruence. simpl. by rewrite <- Hd2.
Qed.

Lemma propagate_idempotent_witness :
  let d := [("color", [(0, {["red"; "green"]} : gset string);
                       (1, {["red"]});
                       (2, {["red"; "green"; "ivory"]})])] in
  let d' := [("color", [(0, {["green"]} : gset string);
                        (1, {["red"]});
                        (2, {["ivory"]})])] in
  _propagate_constraints example_puzzle d = Ok (Some d') ∧
  _propagate_constraints example_puzzle d' = Ok (Some d').
Proof.
  intros d d'.
  assert (H : _propagate_constraints example_puzzle d = Ok (Some d'))
    by (vm_compute; reflexivity).
  split; [exact H|].
  exact (propagate_idempotent example_puzzle d d' H).
Defined.

(** ** Propagation: wipe-out *)

Lemma propagate_pass_wipeout self st :
  has_empty (doms st) → propagate_pass self st = Ok None.
Proof.
  intros Hempty. unfold propagate_pass. fold (reset st).
  by destruct (check_wipeout_spec (reset st)) as [[_ H]|[-> _]].
Qed.

Lemma propagate_wipeout self d :
  has_empty d → _propagate_constraints self d = Ok None.
Proof.
  intros Hempty. unfold _propagate_constraints, propagate_run. simpl.
  by rewrite propagate_pass_wipeout.
Qed.

Lemma has_empty_putdom d c pos s s' d' :
  getdom d c pos = Ok s → s' ⊂ s → putdom d c pos s' = Ok d' →
  has_empty d → has_empty d'.
Proof.
  intros Hs Hss Hput (c' & p' & Hempty). exists c', p'.
  rewrite (getdom_putdom _ _ _ _ _ c' p' Hput).
  case_decide as Heq; [|done]. destruct Heq as [-> ->].
  rewrite Hs in Hempty. injection Hempty as ->.
  destruct Hss as [_ Hno]. destruct Hno. apply empty_subseteq.
Qed.

Lemma wipeout_tracked_stable d : store_stable (wipeout_tracked d).
Proof.
  intros st c pos s s' st' (Hhead & Hlast & Hpast & _) Hs Hss
    (Hput & Hch & Hseen)%store_inv.
  split; [by rewrite Hseen|]. split.
  { rewrite Hseen. destruct (seen st); [done|]. by rewrite last_cons_cons. }
  split; [|done]. intros d' Hd' Hempty. rewrite Hseen in Hd'.
  apply elem_of_cons in Hd' as [->|Hd']; [done|].
  eapply has_empty_putdom; eauto.
Qed.

Lemma propagate_pass_tracked self d st :
  wipeout_tracked d st →
  holds_after false (wipeout_tracked d) (propagate_pass self st).
Proof.
  intros (Hhead & Hlast & Hpast & _).
  destruct (check_wipeout_spec (reset st)) as [[_ Hfull]|[_ Hempty]].
  - apply (propagate_pass_holds self false []);
      [apply wipeout_tracked_stable | done | done |].
    by repeat split.
  - by rewrite propagate_pass_wipeout.
Qed.

Lemma same_shape_stable d :
  store_stable (λ st, same_shape d (doms st)).
Proof.
  intros st c pos s s' st' Hsh Hs _ (Hput & _)%store_inv.
  eapply same_shape_trans; [done|]. by eapply same_shape_putdom.
Qed.

(** On a domain map that covers the positions of its categories,
    propagation returns: the sentinel, or a map of the same shape with a
    history in which no domain was ever empty. *)
Lemma propagate_run_covered self d :
  covers self d →
  propagate_run self d = Ok None ∨
  ∃ st, propagate_run self d = Ok (Some st) ∧
        same_shape d (doms st) ∧
        wipeout_tracked d st ∧
        ∀ d', d' ∈ seen st → ¬ has_empty d'.
Proof.
  intros Hcov. unfold propagate_run.
  set (st0 := {| doms := d; changed := true; seen := [d] |}).
  pose proof (propagate_loop_holds self true (λ st, same_shape d (doms st)))
    as Hsafe.
  specialize (Hsafe (λ st Hsh _,
    propagate_pass_holds self true d _ st (same_shape_stable d)
      (λ _ _ H, H) (λ _, Hcov) Hsh) (S (weight d)) st0).
  pose proof (propagate_loop_holds self false (wipeout_tracked d)
    (λ st Htr _, propagate_pass_tracked self d st Htr)
    (S (weight d)) st0) as Htrack.
  destruct (propagate_loop self (S (weight d)) st0) as [[st|]| |] eqn:Hrun.
  - right. exists st. split; [done|].
    split; [apply Hsafe; [simpl; lia | done]|].
    assert (Htr : wipeout_tracked d st).
    { apply Htrack; [simpl; lia|]. split; [done|]. split; [done|].
      split; [|done]. simpl. intros d' Hd'.
      apply list_elem_of_singleton in Hd'. by subst d'. }
    split; [done|]. intros d' Hd' Hempty.
    destruct Htr as (_ & _ & Hpast & Hch).
    apply propagate_loop_changed in Hrun. rewrite Hch in Hrun; [done|].
    by apply Hpast with d'.
  - by left.
  - specialize (Hsafe ltac:(simpl; lia) (same_shape_refl d)). done.
  - specialize (Hsafe ltac:(simpl; lia) (same_shape_refl d)). done.
Qed.

(** ** The domains [solve] starts from *)

Lemma dkeys_row {V} (v : V) (l : list Z) :
  dkeys ((λ pos, (pos, v)) <$> l) = l.
Proof.
  unfold dkeys. induction l as [|x l IH]; simpl; [done|]. by f_equal.
Qed.

Lemma dget_row {V} n (v : V) pos :
  dget ((λ pos, (pos, v)) <$> range n) pos
  = if decide (0 ≤ pos < n) then Some v else None.
Proof.
  case_decide as Hpos.
  - apply elem_dget.
    + unfold is_dict. rewrite dkeys_row. apply NoDup_seqZ.
    + apply list_elem_of_fmap. exists pos. by rewrite elem_of_range.
  - apply dget_None. by rewrite dkeys_row, elem_of_range.
Qed.

Lemma initial_domains_lookup self c :
  dget (initial_domains self) c
  = (λ values, (λ pos, (pos, list_to_set values)) <$>
                 range (num_positions self))
      <$> dget (reverse (categories self)) c.
Proof.
  unfold initial_domains.
  assert (Hgen : ∀ (cats : dict string (list string)) (acc : domains),
    dget (foldl (λ d cv, dset d cv.1
            ((λ pos, (pos, list_to_set cv.2)) <$>
               range (num_positions self))) acc cats) c
    = match dget (reverse cats) c with
      | Some values => Some ((λ pos, (pos, list_to_set values)) <$>
                               range (num_positions self))
      | None => dget acc c
      end).
  { induction cats as [|[c' values] cats IH] using rev_ind; intros acc.
    - done.
    - rewrite foldl_app, reverse_app. simpl. rewrite dget_dset.
      by case_decide. }
  rewrite Hgen. by destruct (dget (reverse (categories self)) c).
Qed.

Lemma dget_reverse {K V} `{EqDecision K} (d : dict K V) k :
  is_dict d → dget (reverse d) k = dget d k.
Proof.
  intros Hd. destruct (dget d k) as [v|] eqn:Hget.
  - apply elem_dget.
    + unfold is_dict, dkeys. rewrite fmap_reverse.
      by rewrite reverse_Permutation.
    + apply elem_of_reverse. by apply dget_Some_elem.
  - apply dget_None. apply dget_None in Hget. unfold dkeys in *.
    by rewrite fmap_reverse, elem_of_reverse.
Qed.

Lemma initial_domains_getdom self c pos s :
  getdom (initial_domains self) c pos = Ok s ↔
  0 ≤ pos < num_positions self ∧
  ∃ values, dget (reverse (categories self)) c = Some values ∧
            s = list_to_set values.
Proof.
  rewrite getdom_Ok. setoid_rewrite initial_domains_lookup.
  destruct (dget (reverse (categories self)) c) as [values|]; simpl.
  - split.
    + intros (m & [= <-] & Hs). rewrite dget_row in Hs.
      case_decide; [|done]. injection Hs as <-. eauto.
    + intros (Hpos & values' & [= <-] & ->). eexists. split; [done|].
      rewrite dget_row. by rewrite decide_True.
  - split; [by intros (m & ? & _) | by intros (_ & v & ? & _)].
Qed.

Lemma initial_domains_covers self : covers self (initial_domains self).
Proof.
  intros c [m Hm]%dget_is_Some. rewrite initial_domains_lookup in Hm.
  destruct (dget (reverse (categories self)) c) as [values|] eqn:Hc;
    [|done].
  split.
  - apply dget_is_Some. apply dget_Some_elem in Hc.
    rewrite elem_of_reverse in Hc. unfold dkeys.
    apply list_elem_of_fmap. exists (c, values). by split.
  - intros pos Hpos. exists (list_to_set values).
    apply initial_domains_getdom. eauto.
Qed.

(** ** Search: the frames *)

Lemma rfold_inv {X S} (I : S → Prop) (body : X → S → result S) l :
  ∀ s s',
    I s →
    (∀ x s s', x ∈ l → I s → body x s = Ok s' → I s') →
    rfold l body s = Ok s' → I s'.
Proof.
  induction l as [|x l IH]; intros s s' HI Hbody; simpl.
  - by intros [= <-].
  - intros (s1 & Hs1 & H)%rbind_Ok. eapply IH; [| |done].
    + eapply Hbody; [left|done..].
    + intros y t t' Hy. apply Hbody. by right.
Qed.

Lemma select_spec self a d c p :
  _select_unassigned_variable self a d = Ok (Some (c, p)) →
  c ∈ dkeys (categories self) ∧
  0 ≤ p < num_positions self ∧
  assigned a c p = false.
Proof.
  unfold _select_unassigned_variable.
  intros ([m best] & Hfold & [= ->])%rbind_Ok.
  set (I := λ acc : option nat * option (string * Z),
         ∀ c p, acc.2 = Some (c, p) →
           c ∈ dkeys (categories self) ∧
           0 ≤ p < num_positions self ∧ assigned a c p = false).
  apply (rfold_inv I) in Hfold; [by apply Hfold | done |].
  intros c' acc acc' Hc' HI Hinner.
  apply (rfold_inv I) in Hinner; [done..|].
  clear -Hc'. intros pos acc acc' Hpos%elem_of_range HI.
  destruct (assigned a c' pos) eqn:Has; [by intros [= <-]|].
  intros (s & _ & H)%rbind_Ok.
  destruct (below _ _); injection H as <-; [|done].
  by intros c p [= <- <-].
Qed.

Lemma update_fold c p value l :
  ∀ nd nd',
    rfold l (λ pos new_domains,
      if decide (pos ≠ p) then
        s ←! getdom new_domains c pos;
        putdom new_domains c pos (s ∖ {[value]})
      else Ok new_domains) nd = Ok nd' →
    ∀ c' q,
      getdom nd' c' q =
        match getdom nd c' q with
        | Ok s => Ok (if decide (c' = c ∧ q ≠ p ∧ q ∈ l)
                      then s ∖ {[value]} else s)
        | r => r
        end.
Proof.
  induction l as [|x l IH]; intros nd nd'; simpl.
  - intros [= <-] c' q. destruct (getdom nd c' q); [|done..].
    rewrite decide_False; [done|]. intros (_ & _ & H).
    by apply elem_of_nil in H.
  - intros (nd1 & Hx & Hrest)%rbind_Ok c' q.
    rewrite (IH _ _ Hrest c' q). case_decide as Hxp.
    + apply rbind_Ok in Hx as (s & Hs & Hput).
      rewrite (getdom_putdom _ _ _ _ _ c' q Hput).
      case_decide as Heq.
      * destruct Heq as [-> ->]. rewrite Hs. f_equal.
        rewrite (decide_True (P := c = c ∧ x ≠ p ∧ x ∈ x :: l))
          by (repeat split; [done | left]).
        case_decide; [|done]. apply difference_twice_L.
      * destruct (getdom nd c' q); [|done..]. f_equal.
        apply decide_ext. rewrite elem_of_cons. split.
        -- intros (? & ? & ?); auto.
        -- intros (-> & ? & [->|?]); [by destruct Heq | auto].
    + subst x. injection Hx as <-.
      destruct (getdom nd c' q); [|done..]. f_equal.
      apply decide_ext. rewrite elem_of_cons. split.
      * intros (? & ? & ?); auto.
      * intros (? & ? & [->|?]); [done | auto].
Qed.

Lemma update_domains_getdom self d c p value d1 :
  _update_domains self d c p value = Ok d1 →
  ∀ c' q,
    getdom d1 c' q =
      if decide (c' = c ∧ q = p) then Ok {[value]}
      else match getdom d c' q with
           | Ok s => Ok (if decide (c' = c ∧ 0 ≤ q < num_positions self)
                         then s ∖ {[value]} else s)
           | r => r
           end.
Proof.
  unfold _update_domains. intros (nd & Hput & Hfold)%rbind_Ok c' q.
  rewrite (update_fold _ _ _ _ _ _ Hfold c' q).
  rewrite (getdom_putdom _ _ _ _ _ c' q Hput).
  case_decide as Heq.
  - destruct Heq as [-> ->]. f_equal. rewrite decide_False; [done|].
    by intros (_ & ? & _).
  - destruct (getdom d c' q); [|done..]. f_equal. apply decide_ext.
    rewrite elem_of_range. split.
    + intros (? & _ & ?); auto.
    + intros [-> ?]. split; [done|]. split; [|done].
      intros ->. by destruct Heq.
Qed.

Lemma dget_extend a c p v c' :
  dget (extend a c p v) c'
  = if decide (c' = c) then Some (dset (default [] (dget a c)) p v)
    else dget a c'.
Proof.
  unfold extend, dmem. rewrite dget_dset. case_decide as Hc.
  - subst c'. destruct (dget a c) as [items|] eqn:Ha; simpl.
    + by rewrite Ha.
    + rewrite dget_dset. by rewrite decide_True.
  - destruct (dget a c); [done|]. rewrite dget_dset.
    by rewrite decide_False.
Qed.

Lemma shrinks_stable d : store_stable (λ st, shrinks d (doms st)).
Proof.
  intros st c pos s s' st' Hsub Hs Hss (Hput & _)%store_inv c' p' t.
  rewrite (getdom_putdom _ _ _ _ _ c' p' Hput). case_decide as Heq.
  - destruct Heq as [-> ->]. intros [= <-].
    destruct (Hsub _ _ _ Hs) as (s0 & Hs0 & Hincl).
    exists s0. split; [done|]. destruct Hss as [Hss _]. by etrans.
  - apply Hsub.
Qed.

Lemma propagate_constraints_shrinks self d1 d2 :
  _propagate_constraints self d1 = Ok (Some d2) → shrinks d1 d2.
Proof.
  intros (st & Hrun & <-)%propagate_constraints_Some.
  pose proof (propagate_loop_holds self false (λ st, shrinks d1 (doms st))
    (λ st Hsh _, propagate_pass_holds self false [] _ st
       (shrinks_stable d1) (λ H, False_ind _ (Bool.diff_false_true H))
       (λ H, False_ind _ (Bool.diff_false_true H)) Hsh)
    (S (weight d1)) {| doms := d1; changed := true; seen := [d1] |}) as H.
  unfold propagate_run in Hrun. rewrite Hrun in H. apply H; [simpl; lia|].
  intros c p s Hs. exists s. by split.
Qed.

Lemma constructed_lengths self :
  constructed self →
  Forall (λ cv, Z.of_nat (length cv.2) = num_positions self)
    (categories self).
Proof.
  induction 1 as [n cats self Hinit|self f descr _ IH]; [|done].
  unfold ZebraPuzzle_init in Hinit. rewrite validate_spec in Hinit.
  case_decide; [|done]. by injection Hinit as <-.
Qed.

Lemma search_frame_step self a d c p s value d1 d2 :
  search_frame self a d →
  _select_unassigned_variable self a d = Ok (Some (c, p)) →
  getdom d c p = Ok s →
  value ∈ s →
  _update_domains self d c p value = Ok d1 →
  _propagate_constraints self d1 = Ok (Some d2) →
  search_frame self (extend a c p value) d2.
Proof.
  intros [Hent Hdom] (Hc & Hp & Hfree)%select_spec Hs Hval Hupd Hprop.
  pose proof (propagate_constraints_shrinks _ _ _ Hprop) as Hsh.
  pose proof (update_domains_getdom _ _ _ _ _ _ Hupd) as Hd1.
  assert (F1 : ∀ c' q s2, getdom d2 c' q = Ok s2 →
    (c' = c ∧ q = p ∧ s2 ⊆ {[value]}) ∨
    (¬ (c' = c ∧ q = p) ∧
     ∃ s0, getdom d c' q = Ok s0 ∧ s2 ⊆ s0 ∧
           (c' = c → 0 ≤ q < num_positions self → value ∉ s2))).
  { intros c' q s2 (s1 & Hs1 & Hsub)%Hsh. rewrite Hd1 in Hs1.
    case_decide as Heq.
    - destruct Heq as [-> ->]. injection Hs1 as <-. by left.
    - right. split; [done|].
      destruct (getdom d c' q) as [s0| |]; [|done..]. exists s0.
      split; [done|]. injection Hs1 as <-. case_decide as Hrem.
      + split.
        * intros v Hv%Hsub. by apply elem_of_difference in Hv as [? _].
        * intros _ _ Hv%Hsub. apply elem_of_difference in Hv as [_ Hv].
          apply Hv. by apply elem_of_singleton.
      + split; [done|]. intros -> ?. by destruct Hrem. }
  set (items0 := default [] (dget a c)).
  assert (Hold : ∀ pos v, dget items0 pos = Some v →
            dget a c = Some items0).
  { unfold items0. intros pos v. by destruct (dget a c). }
  assert (Hd0 : is_dict items0).
  { unfold items0. destruct (dget a c) as [items|] eqn:Ha; simpl.
    - by apply (Hent c items).
    - apply NoDup_nil_2. }
  assert (Hfree' : dget items0 p = None).
  { unfold assigned, dmem in Hfree. unfold items0.
    destruct (dget a c) as [items|]; simpl; [|done].
    by destruct (dget items p). }
  assert (Hclash : ∀ pos, dget items0 pos = Some value → False).
  { intros pos Hpos. pose proof (Hold _ _ Hpos) as Ha.
    destruct (Hent c items0 Ha) as (_ & _ & Hentries).
    destruct (Hentries pos value Hpos) as (_ & _ & Hex).
    apply (Hex p s); [|done..]. intros ->. congruence. }
  split.
  - intros c' items' Hget. rewrite dget_extend in Hget.
    case_decide as Hcc.
    + subst c'. injection Hget as <-. fold items0.
      split; [by apply is_dict_dset|]. split.
      * intros p1 p2 v. rewrite !dget_dset.
        repeat case_decide; subst; intros H1 H2; simplify_eq;
          try done; try (by destruct (Hclash _ H1));
          try (by destruct (Hclash _ H2)).
        pose proof (Hold _ _ H1) as Ha.
        destruct (Hent c items0 Ha) as (_ & Hinj & _). by eapply Hinj.
      * intros pos v. rewrite dget_dset. case_decide as Hpp.
        -- subst pos. intros [= <-]. split; [done|]. split.
           { destruct (Hdom c p s Hs) as (values & Hvals & Hin). eauto. }
           intros q s2 Hq Hrange Hs2.
           destruct (F1 _ _ _ Hs2) as [(_ & -> & _)|(_ & s0 & _ & _ & Hex)];
             [done | by apply Hex].
        -- intros Hv. pose proof (Hold _ _ Hv) as Ha.
           destruct (Hent c items0 Ha) as (_ & _ & Hentries).
           destruct (Hentries pos v Hv) as (Hr & Hvals & Hex).
           split; [done|]. split; [done|]. intros q s2 Hq Hrange Hs2.
           destruct (F1 _ _ _ Hs2)
             as [(_ & -> & Hsub)|(_ & s0 & Hs0 & Hsub & _)].
           ++ intros Hin%Hsub. apply elem_of_singleton in Hin. subst v.
              by apply (Hclash pos).
           ++ intros Hin%Hsub. by apply (Hex q s0).
    + destruct (Hent c' items' Hget) as (Hd & Hinj & Hentries).
      split; [done|]. split; [done|]. intros pos v Hv.
      destruct (Hentries pos v Hv) as (Hr & Hvals & Hex).
      split; [done|]. split; [done|]. intros q s2 Hq Hrange Hs2.
      destruct (F1 _ _ _ Hs2) as [(-> & _)|(_ & s0 & Hs0 & Hsub & _)];
        [done|].
      intros Hin%Hsub. by apply (Hex q s0).
  - intros c' q s2 Hs2.
    destruct (F1 _ _ _ Hs2) as [(-> & -> & Hsub)|(_ & s0 & Hs0 & Hsub & _)].
    + destruct (Hdom c p s Hs) as (values & Hvals & Hin).
      exists values. split; [done|]. intros v Hv%Hsub.
      apply elem_of_singleton in Hv. subst v. by apply Hin.
    + destruct (Hdom c' q s0 Hs0) as (values & Hvals & Hin).
      exists values. split; [done|]. intros v Hv%Hsub. by apply Hin.
Qed.

Lemma is_complete_spec self a c :
  _is_complete self a = true → c ∈ dkeys (categories self) →
  ∃ items, dget a c = Some items ∧
           Z.of_nat (length items) = num_positions self.
Proof.
  unfold _is_complete. rewrite forallb_forall.
  intros Hall Hc%list_elem_of_In. specialize (Hall c Hc). simpl in Hall.
  destruct (dget a c) as [items|]; [|done]. exists items.
  split; [done|]. by apply bool_decide_eq_true in Hall.
Qed.

(** C1. In the assignment that [solve] returns for a constructed puzzle,
    every declared category maps the positions [0 .. num_positions-1]
    one-to-one onto its value list: every position holds a value, only
    positions of the puzzle and values of the list occur, every value
    of the list occurs, and none at two positions. The enumeration order
    of the sets may be any that lists elements of the set. *)
Theorem solution_is_bijection iter self sol category values :
  (∀ a s v, v ∈ iter a s → v ∈ s) →
  is_dict (categories self) →
  constructed self →
  solve iter self = Ok (Some sol) →
  (category, values) ∈ categories self →
  ∃ items, dget sol category = Some items ∧
           bijection_onto (num_positions self) values items.
Proof.
  intros Hiter Hdict Hcons (od & Hinit & H)%rbind_Ok Hin.
  destruct od as [d0|]; [|done].
  apply (backtrack_invariant iter self (search_frame self)) in H
    as [Hcomplete [d' [Hent Hdom]]].
  2:{ intros a d c p s value d1 d2 Hframe _ Hsel Hs Hv _ Hupd Hprop.
      eapply search_frame_step; eauto. }
  2:{ split; [done|]. intros c pos s Hs.
      apply (propagate_constraints_shrinks _ _ _ Hinit) in Hs
        as (s0 & Hs0 & Hsub).
      apply initial_domains_getdom in Hs0 as (_ & vs & Hvs & ->).
      rewrite dget_reverse in Hvs by done. exists vs. split; [done|].
      intros v Hv%Hsub. by apply elem_of_list_to_set in Hv. }
  pose proof (elem_dget _ _ _ Hdict Hin) as Hvalues.
  assert (Hc : category ∈ dkeys (categories self)).
  { apply dget_is_Some. eauto. }
  destruct (is_complete_spec _ _ _ Hcomplete Hc) as (items & Hitems & Hlen).
  destruct (Hent category items Hitems) as (Hd & Hinj & Hentries).
  pose proof (constructed_lengths self Hcons) as Hlens.
  rewrite Forall_forall in Hlens. specialize (Hlens _ Hin). simpl in Hlens.
  exists items. split; [done|].
  assert (Hinto : ∀ pos v, dget items pos = Some v →
            0 ≤ pos < num_positions self ∧ v ∈ values).
  { intros pos v Hv.
    destruct (Hentries pos v Hv) as (Hr & (vs & Hvs & Hvin) & _).
    split; [done | congruence]. }
  split; [|split; [done|split; [|done]]].
  - assert (Hperm : dkeys items ≡ₚ range (num_positions self)).
    { apply submseteq_length_Permutation.
      - apply NoDup_submseteq; [done|].
        intros pos [v Hv]%dget_is_Some. apply elem_of_range.
        by apply (Hinto pos v).
      - unfold range, dkeys. rewrite length_seqZ, length_fmap. lia. }
    intros pos Hpos%elem_of_range. apply dget_is_Some. by rewrite Hperm.
  - assert (Hitems_nodup : NoDup items)
      by (by apply (NoDup_fmap_1 fst)).
    assert (Hperm : items.*2 ≡ₚ values).
    { apply submseteq_length_Permutation.
      - apply NoDup_submseteq.
        + apply NoDup_fmap_2_strong; [|done].
          intros [p1 v1] [p2 v2] H1%(elem_dget _ _ _ Hd)
            H2%(elem_dget _ _ _ Hd) Heq.
          simpl in Heq. subst v2. f_equal. by eapply Hinj.
        + intros v ([pos v'] & -> & Hv)%list_elem_of_fmap.
          apply (elem_dget _ _ _ Hd) in Hv. by apply (Hinto pos v').
      - rewrite length_fmap. lia. }
    intros v Hv. rewrite <- Hperm in Hv.
    apply list_elem_of_fmap in Hv as ([pos v'] & -> & Hv).
    exists pos. by apply elem_dget.
Qed.

Lemma constructed_any n cats cs :
  Forall (λ cv, Z.of_nat (length cv.2) = n) cats →
  constructed {| num_positions := n; categories := cats;
                 constraints := cs |}.
Proof.
  intros Hlen. induction cs as [|[f descr] cs IH] using rev_ind.
  - apply (constructed_init n cats). unfold ZebraPuzzle_init.
    rewrite validate_spec. by rewrite decide_True.
  - by apply (constructed_add _ f descr) in IH.
Qed.

Lemma solution_is_bijection_witness :
  let sol := [("nationality",
                 [(0, "Spanish"); (1, "English"); (2, "Japanese")]);
              ("color", [(0, "ivory"); (1, "red"); (2, "green")]);
              ("pet", [(0, "dog"); (1, "snail"); (2, "fox")]);
              ("drink", [(0, "tea"); (1, "water"); (2, "coffee")])] in
  (∀ a s v, v ∈ elements_order a s → v ∈ s) ∧
  is_dict (categories example_puzzle) ∧
  constructed example_puzzle ∧
  solve elements_order example_puzzle = Ok (Some sol) ∧
  ("color", ["red"; "green"; "ivory"]) ∈ categories example_puzzle ∧
  ∃ items, dget sol "color" = Some items ∧
           bijection_onto 3 ["red"; "green"; "ivory"] items.
Proof.
  intros sol.
  assert (H1 : ∀ (a : assignment) (s : gset string) v,
            v ∈ elements_order a s → v ∈ s).
  { intros a s v. unfold elements_order. by rewrite elem_of_elements. }
  assert (H2 : is_dict (categories example_puzzle)).
  { apply (bool_decide_unpack _). by vm_compute. }
  assert (H3 : constructed example_puzzle).
  { apply constructed_any. simpl. by repeat constructor. }
  assert (H4 : solve elements_order example_puzzle = Ok (Some sol))
    by (vm_compute; reflexivity).
  assert (H5 : ("color", ["red"; "green"; "ivory"])
               ∈ categories example_puzzle) by (right; left).
  repeat (split; [assumption|]).
  exact (solution_is_bijection elements_order example_puzzle sol
           "color" ["red"; "green"; "ivory"] H1 H2 H3 H4 H5).
Defined.

(** ** Search: [solve] returns *)

Lemma forallb_false {A} (f : A → bool) l :
  forallb f l = false → ∃ x, x ∈ l ∧ f x = false.
Proof.
  induction l as [|x l IH]; simpl; [done|].
  destruct (f x) eqn:Hx; simpl.
  - intros (y & Hy & Hfy)%IH. exists y. split; [by right | done].
  - intros _. exists x. split; [left | done].
Qed.

Lemma dict_length_le {V} (items : dict Z V) n :
  is_dict items → (∀ pos, pos ∈ dkeys items → 0 ≤ pos < n) →
  (length items ≤ Z.to_nat n)%nat.
Proof.
  intros Hd Hkeys.
  assert (Hsub : dkeys items ⊆+ range n).
  { apply NoDup_submseteq; [done|]. intros pos Hpos.
    by apply elem_of_range, Hkeys. }
  apply submseteq_length in Hsub. unfold range, dkeys in Hsub.
  by rewrite length_seqZ, length_fmap in Hsub.
Qed.

Lemma is_complete_false self a d :
  0 < num_positions self →
  search_shape self a d → _is_complete self a = false →
  ∃ category, incomplete_at self a category.
Proof.
  intros Hn [Hent _] (c & Hc & Hf)%forallb_false. exists c.
  split; [done|]. destruct (dget a c) as [items|] eqn:Ha; [|by left].
  right. exists items. destruct (Hent c items Ha) as [Hd Hkeys].
  split; [done|]. split; [done|].
  apply bool_decide_eq_false in Hf.
  pose proof (dict_length_le items _ Hd Hkeys). lia.
Qed.

Lemma shape_covers self d :
  same_shape (initial_domains self) d → covers self d.
Proof.
  intros Hsh. eapply same_shape_covers; [done|].
  apply initial_domains_covers.
Qed.

Lemma shape_covers_variables self d :
  same_shape (initial_domains self) d → covers_variables self d.
Proof.
  intros Hsh c pos Hc Hpos.
  assert (is_Some (dget (reverse (categories self)) c)) as [values Hv].
  { apply dget_is_Some. unfold dkeys in *.
    by rewrite fmap_reverse, elem_of_reverse. }
  eapply same_shape_getdom; [done|].
  apply initial_domains_getdom. eauto.
Qed.

Lemma update_domains_total self d c p value s :
  (∀ pos, 0 ≤ pos < num_positions self → ∃ s, getdom d c pos = Ok s) →
  getdom d c p = Ok s →
  ∃ d1, _update_domains self d c p value = Ok d1 ∧ same_shape d d1.
Proof.
  intros Hcov Hs. unfold _update_domains.
  destruct (putdom_Ok _ _ _ _ {[value]} Hs) as [nd Hput]. rewrite Hput.
  simpl. pose proof (same_shape_putdom _ _ _ _ _ _ Hs Hput) as Hsh.
  destruct (rfold_hit (λ nd, same_shape d nd) (λ _, True) (λ _, False)
              (λ pos new_domains,
                 if decide (pos ≠ p) then
                   s ←! getdom new_domains c pos;
                   putdom new_domains c pos (s ∖ {[value]})
                 else Ok new_domains)
              (range (num_positions self)) nd Hsh)
    as (d1 & Hd1 & Hsh1 & _); [|by eauto].
  intros pos nd' Hpos%elem_of_range Hsh'. case_decide; [|by eauto].
  destruct (Hcov pos Hpos) as [s0 Hs0].
  destruct (same_shape_getdom _ _ _ _ _ Hsh' Hs0) as [s' Hs'].
  rewrite Hs'. simpl.
  destruct (putdom_Ok _ _ _ _ (s' ∖ {[value]}) Hs') as [nd'' Hput'].
  exists nd''. split; [done|]. split; [|done].
  eapply same_shape_trans; [done|]. by eapply same_shape_putdom.
Qed.

Lemma is_consistent_total self a :
  total_constraints self → ∃ b, _is_consistent self a = Ok b.
Proof.
  unfold total_constraints, _is_consistent.
  induction (constraints self) as [|c cs IH]; intros Htot; simpl;
    [by eauto|].
  destruct (Htot c (list_elem_of_here _ _) a) as [b ->]. simpl.
  destruct b; [|by eauto]. apply IH. intros c' Hc'. apply Htot.
  by right.
Qed.

Lemma propagate_constraints_covered self d :
  covers self d →
  _propagate_constraints self d = Ok None ∨
  ∃ d2, _propagate_constraints self d = Ok (Some d2) ∧ same_shape d d2.
Proof.
  intros Hcov. unfold _propagate_constraints.
  destruct (propagate_run_covered self d Hcov)
    as [->|(st & -> & Hsh & _)]; simpl; eauto.
Qed.

Lemma try_values_total self recurse a d c p s cands :
  total_constraints self →
  same_shape (initial_domains self) d →
  c ∈ dkeys (categories self) →
  getdom d c p = Ok s →
  (∀ value d2, same_shape (initial_domains self) d2 →
               ∃ r, recurse (extend a c p value) d2 = Ok r) →
  ∃ r, try_values self recurse a d c p cands = Ok r.
Proof.
  intros Htot Hsh Hc Hs Hrec.
  induction cands as [|value rest IH]; simpl; [by eauto|].
  destruct (is_consistent_total self (extend a c p value) Htot) as [b ->].
  simpl. destruct b; [|done].
  destruct (update_domains_total self d c p value s) as (d1 & -> & Hsh1);
    [|done|].
  { intros pos Hpos. by apply (shape_covers_variables self d Hsh). }
  simpl.
  assert (Hsh1' : same_shape (initial_domains self) d1)
    by (by eapply same_shape_trans).
  destruct (propagate_constraints_covered self d1 (shape_covers _ _ Hsh1'))
    as [->|(d2 & -> & Hsh2)]; simpl; [done|].
  destruct (Hrec value d2) as [r ->];
    [by eapply same_shape_trans|].
  simpl. destruct r; [by eauto | done].
Qed.

Lemma sum_list_with_lt {A} (f g : A → nat) l :
  (∀ x, x ∈ l → (f x ≤ g x)%nat) →
  (∃ x, x ∈ l ∧ (f x < g x)%nat) →
  (sum_list_with f l < sum_list_with g l)%nat.
Proof.
  intros Hle (x & Hx & Hlt).
  assert (Hsum : ∀ k : list A, (∀ z, z ∈ k → (f z ≤ g z)%nat) →
            (sum_list_with f k ≤ sum_list_with g k)%nat).
  { induction k as [|z k IH]; intros Hk; simpl; [done|].
    assert (f z ≤ g z)%nat by (apply Hk; left).
    assert (sum_list_with f k ≤ sum_list_with g k)%nat; [|lia].
    apply IH. intros w Hw. apply Hk. by right. }
  induction l as [|y l IH]; [by apply elem_of_nil in Hx|]. simpl.
  assert (f y ≤ g y)%nat by (apply Hle; left).
  assert (Hle' : ∀ z, z ∈ l → (f z ≤ g z)%nat)
    by (intros z Hz; apply Hle; by right).
  pose proof (Hsum l Hle').
  apply elem_of_cons in Hx as [->|Hx]; [lia|].
  specialize (IH Hle' Hx). lia.
Qed.

Lemma extend_count self a d c p value :
  search_shape self a d →
  c ∈ dkeys (categories self) →
  0 ≤ p < num_positions self →
  assigned a c p = false →
  search_shape self (extend a c p value) d ∧
  (unassigned_count self (extend a c p value)
   < unassigned_count self a)%nat.
Proof.
  intros [Hent Hsh] Hc Hp Hfree.
  set (items0 := default [] (dget a c)).
  assert (Hitems0 : is_dict items0 ∧
            ∀ pos, pos ∈ dkeys items0 → 0 ≤ pos < num_positions self).
  { unfold items0. destruct (dget a c) as [items|] eqn:Ha; simpl.
    - by apply (Hent c).
    - split; [apply NoDup_nil_2|]. intros pos Hpos.
      by apply elem_of_nil in Hpos. }
  destruct Hitems0 as [Hd0 Hkeys0].
  assert (Hfree' : p ∉ dkeys items0).
  { apply dget_None. unfold assigned, dmem in Hfree. unfold items0.
    destruct (dget a c) as [items|]; simpl; [|done].
    by destruct (dget items p). }
  assert (Hnew : is_dict (dset items0 p value) ∧
            ∀ pos, pos ∈ dkeys (dset items0 p value) →
                   0 ≤ pos < num_positions self).
  { split; [by apply is_dict_dset|]. intros pos.
    rewrite dkeys_dset_new by done.
    intros [?|Hpos]%elem_of_app; [by auto|].
    apply list_elem_of_singleton in Hpos. by subst pos. }
  split; [split; [|done]|].
  - intros c' items'. rewrite dget_extend. case_decide.
    + by intros [= <-].
    + apply Hent.
  - unfold unassigned_count. apply sum_list_with_lt.
    + intros [c' vs] _. simpl. rewrite dget_extend. case_decide; [|done].
      subst c'. simpl. fold items0. rewrite length_dset_new by done. lia.
    + unfold dkeys in Hc.
      apply list_elem_of_fmap in Hc as ([c' vs] & -> & Hin).
      exists (c', vs). split; [done|]. simpl. rewrite dget_extend.
      rewrite decide_True by done. simpl. fold items0.
      rewrite length_dset_new by done.
      pose proof (dict_length_le _ _ (proj1 Hnew) (proj2 Hnew)) as Hle.
      rewrite length_dset_new in Hle by done.
      subst items0. simpl in *. lia.
Qed.

(** With fuel above the number of unassigned variables, [_backtrack]
    returns: a solution or [None]. *)
Lemma backtrack_total iter self :
  0 < num_positions self →
  total_constraints self →
  ∀ fuel a d,
    search_shape self a d →
    (unassigned_count self a < fuel)%nat →
    ∃ r, _backtrack iter self fuel a d = Ok r.
Proof.
  intros Hn Htot. induction fuel as [|fuel IH]; intros a d Hshape Hfuel;
    [lia|].
  simpl. destruct (_is_complete self a) eqn:Hcomplete; [by eauto|].
  destruct (is_complete_false _ _ _ Hn Hshape Hcomplete)
    as [category Hinc].
  destruct (incomplete_free_position self a category Hn Hinc)
    as (pos0 & Hpos0 & Hfree0).
  destruct (select_some_at self a d category pos0 (proj1 Hinc) Hpos0 Hfree0
              (shape_covers_variables _ _ (proj2 Hshape)))
    as (c & p & -> & Hc & Hp & Hfree).
  simpl.
  destruct (shape_covers_variables _ _ (proj2 Hshape) c p Hc Hp)
    as [s Hs].
  rewrite Hs. simpl.
  apply (try_values_total self _ a d c p s); try done; [apply Hshape|].
  intros value d2 Hsh2.
  destruct (extend_count self a d c p value Hshape Hc Hp Hfree)
    as [[Hent _] Hlt].
  apply IH; [by split | lia].
Qed.

Lemma unassigned_count_nil self :
  unassigned_count self [] = variables self.
Proof.
  unfold unassigned_count, variables.
  induction (categories self) as [|cv cats IH]; [done|].
  simpl in *. lia.
Qed.

(** In a puzzle with at least one position whose predicates return,
    [solve] returns: a complete assignment or [None]. *)
Lemma solve_total iter self :
  0 < num_positions self →
  total_constraints self →
  solve iter self = Ok None ∨
  ∃ sol, solve iter self = Ok (Some sol) ∧ _is_complete self sol = true.
Proof.
  intros Hn Htot. unfold solve.
  destruct (propagate_constraints_covered self (initial_domains self)
              (initial_domains_covers self)) as [->|(d & -> & Hsh)];
    cbn [rbind]; [by left|].
  destruct (backtrack_total iter self Hn Htot (S (variables self)) [] d)
    as [r Hr].
  - split; [|done]. intros c items Hget. done.
  - rewrite unassigned_count_nil. lia.
  - rewrite Hr. destruct r as [sol|]; [|by left].
    right. exists sol. split; [done|].
    by apply (backtrack_invariant iter self (λ _ _, True)) in Hr as [? _].
Qed.

(** C9. Propagation reports a wipe-out with the sentinel. On a domain map
    that covers its categories, [_propagate_constraints] does not raise:
    it returns the sentinel, or a map together with a history, from the
    map it was given to the map it returns through every mutation, in
    which no domain is empty. A map with an empty domain gives the
    sentinel at once. The sentinel is no domain map, not even the empty
    one. When the first propagation of [solve] returns the sentinel,
    [solve] returns [None] without raising; an assignment that [solve]
    returns is complete; and in a puzzle with at least one position
    whose predicates return, [solve] does not raise: it returns [None]
    or an assignment. *)
Theorem wipeout_reported iter self d :
  covers self d →
  (_propagate_constraints self d = Ok None ∨
   ∃ st, propagate_run self d = Ok (Some st) ∧
         _propagate_constraints self d = Ok (Some (doms st)) ∧
         head (seen st) = Some (doms st) ∧
         last (seen st) = Some d ∧
         ∀ d', d' ∈ seen st → ¬ has_empty d') ∧
  (has_empty d → _propagate_constraints self d = Ok None) ∧
  (∀ d' : domains, Ok None ≠ Ok (Some d')) ∧
  (d = initial_domains self → _propagate_constraints self d = Ok None →
   solve iter self = Ok None) ∧
  (∀ a, solve iter self = Ok (Some a) → _is_complete self a = true) ∧
  (0 < num_positions self → total_constraints self →
   solve iter self = Ok None ∨ ∃ sol, solve iter self = Ok (Some sol)).
Proof.
  intros Hcov. split; [|split; [|split; [|split; [|split]]]].
  - destruct (propagate_run_covered self d Hcov)
      as [Hrun|(st & Hrun & _ & (Hhead & Hlast & _) & Hfull)].
    + left. unfold _propagate_constraints. by rewrite Hrun.
    + right. exists st. split; [done|].
      split; [by apply propagate_run_Some | done].
  - apply propagate_wipeout.
  - done.
  - intros -> Hnone. unfold solve. by rewrite Hnone.
  - intros a (od & _ & H)%rbind_Ok. destruct od as [d1|]; [|done].
    by apply (backtrack_invariant iter self (λ _ _, True)) in H as [? _].
  - intros Hn Htot.
    destruct (solve_total iter self Hn Htot) as [?|(sol & ? & _)]; eauto.
Qed.

Lemma wipeout_reported_witness :
  let d := initial_domains twin_puzzle in
  covers twin_puzzle d ∧
  ¬ has_empty d ∧
  _propagate_constraints twin_puzzle d = Ok None ∧
  solve elements_order twin_puzzle = Ok None.
Proof.
  intros d.
  assert (Hcov : covers twin_puzzle d).
  { intros c Hc. simpl in Hc. apply list_elem_of_singleton in Hc. subst c.
    split; [by eexists|]. intros pos Hpos. simpl in Hpos.
    assert (pos = 0 ∨ pos = 1) as [->| ->] by lia; by eexists. }
  destruct (wipeout_reported elements_order twin_puzzle d Hcov)
    as (_ & _ & _ & Hsolve & _ & _).
  assert (Hnone : _propagate_constraints twin_puzzle d = Ok None)
    by (vm_compute; reflexivity).
  split; [exact Hcov|]. split.
  { destruct (check_wipeout_spec
                {| doms := d; changed := false; seen := [] |})
      as [[_ H]|[H _]]; [exact H | vm_compute in H; discriminate]. }
  split; [exact Hnone|]. exact (Hsolve eq_refl Hnone).
Defined.

(** * Further properties *)

(** ** The constraint library on committed values *)

Lemma scan_items_elem items value pos :
  scan_items items value = Some pos → (pos, value) ∈ items.
Proof.
  induction items as [|[p val] items IH]; simpl; [done|].
  case_decide; intros; simplify_eq; [left | right; auto].
Qed.

Lemma scan_items_dget items value pos :
  one_to_one items →
  scan_items items value = Some pos ↔ dget items pos = Some value.
Proof.
  intros [Hd Hinj]. split.
  - intros Hscan%scan_items_elem. by apply elem_dget.
  - intros Hget. destruct (scan_items items value) as [p|] eqn:Hscan.
    + f_equal. apply scan_items_elem, (elem_dget _ _ _ Hd) in Hscan.
      by eapply Hinj.
    + apply dget_Some_elem in Hget.
      assert (Hno : ∀ items', scan_items items' value = None →
                ∀ p, (p, value) ∉ items').
      { clear. induction items' as [|[p' v'] items' IH]; simpl.
        - intros _ p. apply not_elem_of_nil.
        - case_decide; [done|]. intros Hn p [Heq|Hin]%elem_of_cons.
          + by simplify_eq.
          + by apply (IH Hn p). }
      by destruct (Hno items Hscan pos).
Qed.

Lemma position_of_holds a category value pos :
  values_once a →
  position_of a category value = Some pos ↔ holds_at a category pos value.
Proof.
  intros Honce. unfold position_of, holds_at.
  destruct (dget a category) as [items|] eqn:Ha.
  - rewrite (scan_items_dget _ _ _ (Honce _ _ Ha)). split; [by eauto|].
    by intros (items' & [= <-] & ?).
  - split; [done | by intros (? & ? & _)].
Qed.

(** X1. On an assignment that holds no value twice in a category, with
    [v1] at [p1] and [v2] at [p2], the five two-value predicates answer
    the relation between the two positions that their names say. *)
Theorem two_value_predicates_committed a c1 v1 p1 c2 v2 p2 :
  values_once a →
  holds_at a c1 p1 v1 →
  holds_at a c2 p2 v2 →
  run (same_position c1 v1 c2 v2) a = Ok (bool_decide (p1 = p2)) ∧
  run (not_same_position c1 v1 c2 v2) a = Ok (bool_decide (p1 ≠ p2)) ∧
  run (adjacent c1 v1 c2 v2) a
    = Ok (bool_decide (p1 = p2 + 1 ∨ p2 = p1 + 1)) ∧
  run (left_of c1 v1 c2 v2) a = Ok (bool_decide (p1 < p2)) ∧
  run (immediately_right_of c1 v1 c2 v2) a = Ok (bool_decide (p1 = p2 + 1)).
Proof.
  intros Honce H1%position_of_holds H2%position_of_holds; [|done..].
  unfold run, same_position, not_same_position, adjacent, left_of,
    immediately_right_of, both_assigned. simpl. rewrite H1, H2.
  repeat split. f_equal. apply bool_decide_ext. lia.
Qed.

Lemma two_value_predicates_committed_witness :
  let a := [("color", [(0, "red"); (1, "green")]);
            ("pet", [(1, "dog")])] in
  values_once a ∧ holds_at a "color" 0 "red" ∧ holds_at a "pet" 1 "dog" ∧
  run (adjacent "color" "red" "pet" "dog") a = Ok true.
Proof.
  intros a.
  assert (H1 : values_once a).
  { intros c items Hc. unfold a in Hc. simpl in Hc.
    repeat case_decide; simplify_eq; (split; [apply (bool_decide_unpack _);
      by vm_compute|]); intros p1 p2 v; simpl;
      repeat case_decide; intros; simplify_eq; done. }
  assert (H2 : holds_at a "color" 0 "red") by (by eexists).
  assert (H3 : holds_at a "pet" 1 "dog") by (by eexists).
  split; [exact H1|]. split; [exact H2|]. split; [exact H3|].
  destruct (two_value_predicates_committed a "color" "red" 0 "pet" "dog" 1
              H1 H2 H3) as (_ & _ & Hadj & _).
  exact Hadj.
Defined.

(** X2. In the same situation, with [value] at [pos], the single-value
    predicates answer whether [pos] is the fixed position, the middle
    position [num_positions // 2] (the factory raises [ValueError] for
    an even [num_positions]), or one of the listed positions. *)
Theorem one_value_predicates_committed a category value pos position n
    positions :
  values_once a →
  holds_at a category pos value →
  run (at_position category value position) a
    = Ok (bool_decide (pos = position)) ∧
  run (middle_position category value n) a
    = (if decide (n `mod` 2 = 0) then Raise ValueError
       else Ok (bool_decide (pos = n `div` 2))) ∧
  run (one_of_positions category value positions) a
    = Ok (bool_decide (pos ∈ positions)).
Proof.
  intros Honce Hpos. pose proof Hpos as (items & Ha & Hget).
  apply (scan_items_dget _ _ _ (Honce _ _ Ha)) in Hget.
  unfold run, at_position, middle_position, one_of_positions. simpl.
  rewrite Ha, Hget. split; [done|]. split; [|done].
  case_decide; simpl; [done|]. by rewrite Ha, Hget.
Qed.

Lemma one_value_predicates_committed_witness :
  let a := [("drink", [(2, "milk")])] in
  values_once a ∧ holds_at a "drink" 2 "milk" ∧
  run (middle_position "drink" "milk" 5) a = Ok true.
Proof.
  intros a.
  assert (H1 : values_once a).
  { intros c items Hc. unfold a in Hc. simpl in Hc.
    case_decide; simplify_eq. split; [apply (bool_decide_unpack _);
      by vm_compute|]. intros p1 p2 v; simpl.
    repeat case_decide; intros; simplify_eq; done. }
  assert (H2 : holds_at a "drink" 2 "milk") by (by eexists).
  split; [exact H1|]. split; [exact H2|].
  destruct (one_value_predicates_committed a "drink" "milk" 2 0 5 []
              H1 H2) as (_ & Hmid & _).
  exact Hmid.
Defined.

(** ** How the predicates relate, on every assignment *)

(** X3. [same_position], [adjacent] and [not_same_position] do not
    depend on the order of their two (category, value) pairs;
    [not_same_position] answers the opposite of [same_position] when
    both values are found and [True] like it otherwise; and two values
    are never each to the left of the other. *)
Theorem two_value_predicates_symmetry c1 v1 c2 v2 a :
  run (same_position c1 v1 c2 v2) a = run (same_position c2 v2 c1 v1) a ∧
  run (adjacent c1 v1 c2 v2) a = run (adjacent c2 v2 c1 v1) a ∧
  run (not_same_position c1 v1 c2 v2) a
    = run (not_same_position c2 v2 c1 v1) a ∧
  (∃ b, run (same_position c1 v1 c2 v2) a = Ok b ∧
        run (not_same_position c1 v1 c2 v2) a
        = Ok (match position_of a c1 v1, position_of a c2 v2 with
              | Some _, Some _ => negb b
              | _, _ => b
              end)) ∧
  (is_Some (position_of a c1 v1) → is_Some (position_of a c2 v2) →
   ¬ (run (left_of c1 v1 c2 v2) a = Ok true ∧
      run (left_of c2 v2 c1 v1) a = Ok true)).
Proof.
  unfold run, same_position, adjacent, not_same_position, left_of,
    both_assigned. simpl.
  destruct (position_of a c1 v1) as [p1|], (position_of a c2 v2) as [p2|];
    simpl.
  2-4: repeat split; try (eexists; split; reflexivity);
       by intros [? ?] [? ?].
  split; [f_equal; apply bool_decide_ext; lia|].
  split; [f_equal; apply bool_decide_ext; lia|].
  split; [f_equal; apply bool_decide_ext; lia|].
  split.
  - eexists. split; [done|]. f_equal.
    destruct (decide (p1 = p2)).
    + by rewrite bool_decide_eq_false_2, bool_decide_eq_true_2 by auto.
    + by rewrite bool_decide_eq_true_2, bool_decide_eq_false_2 by auto.
  - intros _ _ [[= H1%bool_decide_eq_true] [= H2%bool_decide_eq_true]].
    lia.
Qed.

(** X4. Whenever [immediately_right_of] holds of two values, so do
    [adjacent] for them and [left_of] for the two in the other order,
    and [same_position] fails once both values are found. *)
Theorem immediately_right_of_implies c1 v1 c2 v2 a :
  run (immediately_right_of c1 v1 c2 v2) a = Ok true →
  run (adjacent c1 v1 c2 v2) a = Ok true ∧
  run (left_of c2 v2 c1 v1) a = Ok true ∧
  (is_Some (position_of a c1 v1) → is_Some (position_of a c2 v2) →
   run (same_position c1 v1 c2 v2) a = Ok false).
Proof.
  unfold run, immediately_right_of, adjacent, left_of, same_position,
    both_assigned. simpl.
  destruct (position_of a c1 v1) as [p1|], (position_of a c2 v2) as [p2|];
    simpl.
  2-4: intros _; repeat split; by intros [? ?] [? ?].
  intros [= H%bool_decide_eq_true]. split.
  { f_equal. apply bool_decide_eq_true. lia. }
  split.
  { f_equal. apply bool_decide_eq_true. lia. }
  intros _ _. f_equal. apply bool_decide_eq_false. lia.
Qed.

Lemma immediately_right_of_implies_witness :
  let a := [("color", [(2, "green"); (1, "red")])] in
  run (immediately_right_of "color" "green" "color" "red") a = Ok true ∧
  run (adjacent "color" "green" "color" "red") a = Ok true ∧
  run (left_of "color" "red" "color" "green") a = Ok true.
Proof.
  intros a.
  assert (H : run (immediately_right_of "color" "green" "color" "red") a
              = Ok true) by reflexivity.
  split; [exact H|].
  destruct (immediately_right_of_implies "color" "green" "color" "red" a H)
    as (Hadj & Hleft & _).
  split; [exact Hadj | exact Hleft].
Defined.

(** X5. Three of the single-value factories are special cases of the
    others, on every assignment: [at_edge] with 'first' is [at_position]
    0, [middle_position] for an odd count is [at_position] at
    [num_positions // 2], and [at_position] is [one_of_positions] with
    that one position. *)
Theorem single_value_factories_agree category value position n a :
  run (at_edge category value "first") a
    = run (at_position category value 0) a ∧
  (n `mod` 2 ≠ 0 →
   run (middle_position category value n) a
     = run (at_position category value (n `div` 2)) a) ∧
  run (at_position category value position) a
    = run (one_of_positions category value [position]) a.
Proof.
  unfold run, at_edge, middle_position, at_position, one_of_positions.
  simpl. split; [|split].
  - destruct (dget a category) as [items|]; [|done].
    destruct (scan_items items value) as [pos|] eqn:Hscan.
    + destruct items as [|[k v] items]; [done|]. done.
    + destruct (dget items 0) as [val|]; [|done]. f_equal.
      destruct (decide (val = value)).
      * by rewrite (bool_decide_eq_true_2 (val = value)), orb_true_r.
      * by rewrite (bool_decide_eq_true_2 (val ≠ value)).
  - intros Hodd. rewrite decide_False by done. simpl.
    destruct (dget a category) as [items|]; [|done].
    destruct (scan_items items value) as [pos|]; [done|].
    destruct (dget items (n `div` 2)) as [val|]; [|done]. f_equal.
    destruct (decide (val = value)).
    + by rewrite (bool_decide_eq_true_2 (val = value)), orb_true_r.
    + by rewrite (bool_decide_eq_true_2 (val ≠ value)).
  - destruct (dget a category) as [items|]; [|done].
    destruct (scan_items items value) as [pos|].
    + f_equal. apply bool_decide_ext. rewrite list_elem_of_singleton.
      done.
    + destruct (dget items position) as [val|]; [|done]. f_equal.
      destruct (decide (val = value)).
      * by rewrite (bool_decide_eq_true_2 (val = value)), orb_true_r.
      * by rewrite (bool_decide_eq_true_2 (val ≠ value)).
Qed.

(** X6. The predicate of [at_edge] raises [ValueError] exactly when the
    edge designator is none of 'first', 'last', 'either' and the value
    is found in the assignment; in every other case it returns a truth
    value (the [max] over the assigned positions never fails). *)
Theorem at_edge_raises_iff category value edge a :
  (run (at_edge category value edge) a = Raise ValueError
   ↔ (edge ∉ ["first"; "last"; "either"])
     ∧ is_Some (position_of a category value)) ∧
  (run (at_edge category value edge) a = Raise ValueError ∨
   ∃ b, run (at_edge category value edge) a = Ok b).
Proof.
  unfold run, at_edge, position_of. simpl.
  destruct (dget a category) as [items|].
  2:{ split; [|by eauto]. split; [done | by intros [_ [? ?]]]. }
  destruct (scan_items items value) as [pos|] eqn:Hscan.
  2:{ split; [|by eauto]. split; [done | by intros [_ [? ?]]]. }
  assert (∃ m, max_key (dkeys items) = Ok m) as [m ->].
  { destruct items as [|[k v] items]; [done|]. simpl. eauto. }
  simpl. rewrite !not_elem_of_cons.
  destruct (decide (edge = "first")) as [->|H1].
  { split; [|by eauto]. split; [done|]. by intros [[? _] _]. }
  destruct (decide (edge = "last")) as [->|H2].
  { split; [|by eauto]. split; [done|]. by intros [[_ [? _]] _]. }
  destruct (decide (edge = "either")) as [->|H3].
  { split; [|by eauto]. split; [done|]. by intros [[_ [_ [? _]]] _]. }
  split; [|by left]. split; [|done]. intros _.
  split; [|by eauto]. repeat split; [done..|]. apply not_elem_of_nil.
Qed.

(** ** Registering and checking constraints *)

Lemma consistent_with_app cs1 cs2 a :
  consistent_with (cs1 ++ cs2) a
  = (b ←! consistent_with cs1 a;
     if b then consistent_with cs2 a else Ok false).
Proof.
  induction cs1 as [|c cs1 IH]; simpl; [done|].
  destruct (func c a) as [[]| |]; simpl; auto.
Qed.

(** X7. [add_constraint] leaves the positions, the categories and the
    constraints already registered as they are and puts the new
    predicate last: the extended puzzle is consistent with an
    assignment when the old one is and the new predicate holds, and the
    new predicate is not called when an earlier one fails. *)
Theorem add_constraint_checked_last self f descr a :
  num_positions (add_constraint self f descr) = num_positions self ∧
  categories (add_constraint self f descr) = categories self ∧
  constraints self `prefix_of` constraints (add_constraint self f descr) ∧
  _is_consistent (add_constraint self f descr) a
  = (b ←! _is_consistent self a; if b then f a else Ok false).
Proof.
  split; [done|]. split; [done|]. split.
  { by apply prefix_app_r. }
  unfold _is_consistent, add_constraint. simpl.
  rewrite consistent_with_app. simpl.
  destruct (consistent_with (constraints self) a) as [[]| |]; simpl;
    [|done..].
  by destruct (f a) as [[]| |].
Qed.

(** X8. [_is_consistent] is decided by the first predicate that does not
    return [True]: it returns [True] exactly when all predicates do, and
    with predicates [before] that hold followed by a predicate [c], the
    answer is [False] when [c] returns [False] and the exception of [c]
    when [c] raises, whatever the predicates after [c] would do. *)
Theorem is_consistent_first_failure self a :
  (_is_consistent self a = Ok true ↔ satisfies self a) ∧
  ∀ before c after,
    constraints self = before ++ c :: after →
    Forall (λ c', func c' a = Ok true) before →
    (func c a = Ok false → _is_consistent self a = Ok false) ∧
    (∀ e, func c a = Raise e → _is_consistent self a = Raise e).
Proof.
  split; [apply consistent_with_true|].
  intros before c after Hcs Hbefore. unfold _is_consistent.
  rewrite Hcs, consistent_with_app.
  rewrite (proj2 (consistent_with_true before a) Hbefore). simpl.
  split; [by intros ->|]. by intros e ->.
Qed.

(** ** Variable selection: minimum remaining values *)

Lemma rfold_app {X S} (body : X → S → result S) l1 l2 s :
  rfold (l1 ++ l2) body s = (s1 ←! rfold l1 body s; rfold l2 body s1).
Proof.
  revert s. induction l1 as [|x l1 IH]; intros s; simpl; [done|].
  destruct (body x s); simpl; auto.
Qed.

Lemma rfold_fmap {X Y S} (g : X → Y) (body : Y → S → result S) l s :
  rfold (g <$> l) body s = rfold l (λ x, body (g x)) s.
Proof.
  revert s. induction l as [|x l IH]; intros s; simpl; [done|].
  destruct (body (g x) s); simpl; auto.
Qed.

(** The two nested loops are one loop over [puzzle_variables]. *)
Lemma select_flat self a d :
  _select_unassigned_variable self a d
  = (r ←! rfold (puzzle_variables self) (λ var acc,
            if assigned a var.1 var.2 then Ok acc
            else
              s ←! getdom d var.1 var.2;
              if below (size s) acc.1
              then Ok (Some (size s), Some var)
              else Ok acc) (None, None);
     Ok r.2).
Proof.
  unfold _select_unassigned_variable, puzzle_variables. f_equal.
  generalize (None : option nat, None : option (string * Z)).
  induction (dkeys (categories self)) as [|c cs IH]; intros acc; [done|].
  simpl. rewrite rfold_app, rfold_fmap. simpl.
  destruct (rfold (range (num_positions self)) _ acc); simpl; auto.
Qed.

Lemma mrv_scan a d l :
  ∀ processed acc acc',
    mrv_invariant a d processed acc →
    rfold l (λ var acc,
      if assigned a var.1 var.2 then Ok acc
      else
        s ←! getdom d var.1 var.2;
        if below (size s) acc.1
        then Ok (Some (size s), Some var)
        else Ok acc) acc = Ok acc' →
    mrv_invariant a d (processed ++ l) acc'.
Proof.
  induction l as [|x l IH]; intros processed acc acc' Hinv; simpl.
  { intros [= <-]. by rewrite app_nil_r. }
  intros (acc1 & Hx & Hrest)%rbind_Ok.
  replace (processed ++ x :: l) with ((processed ++ [x]) ++ l)
    by (by rewrite <- app_assoc).
  apply (IH _ acc1); [|done]. clear IH Hrest. unfold mrv_invariant in *.
  destruct (assigned a x.1 x.2) eqn:Hass.
  - injection Hx as <-. destruct acc.2 as [best|].
    + destruct Hinv as (before & after & s & -> & Hfree & Hs & Hm & Hb & Ha).
      exists before, (after ++ [x]), s. rewrite <- app_assoc. simpl.
      repeat (split; [done|]). intros var [?|Hv]%elem_of_app; [by auto|].
      apply list_elem_of_singleton in Hv. subst var. unfold free.
      congruence.
    + destruct Hinv as [Hm Hnone]. split; [done|].
      intros var [?|Hv]%elem_of_app; [by auto|].
      apply list_elem_of_singleton in Hv. subst var. unfold free.
      congruence.
  - apply rbind_Ok in Hx as (sx & Hsx & Hx).
    destruct (below (size sx) acc.1) eqn:Hbelow; injection Hx as <-; simpl.
    + exists processed, [], sx. repeat (split; [done|]).
      split; [|intros var Hv; by apply elem_of_nil in Hv].
      intros var Hv Hfree. destruct acc.2 as [best|].
      * destruct Hinv as (before & after & s & -> & Hfb & Hs & Hm & Hb & Ha).
        rewrite Hm in Hbelow. simpl in Hbelow.
        apply bool_decide_eq_true in Hbelow.
        apply elem_of_app in Hv as [Hv|[->|Hv]%elem_of_cons].
        -- destruct (Hb var Hv Hfree) as (s' & Hs' & ?). exists s'.
           split; [done | lia].
        -- exists s. split; [done | lia].
        -- destruct (Ha var Hv Hfree) as (s' & Hs' & ?). exists s'.
           split; [done | lia].
      * destruct Hinv as [_ Hnone]. by destruct (Hnone var Hv).
    + destruct acc.2 as [best|].
      * destruct Hinv as (before & after & s & -> & Hfb & Hs & Hm & Hb & Ha).
        rewrite Hm in Hbelow. simpl in Hbelow.
        apply bool_decide_eq_false in Hbelow.
        exists before, (after ++ [x]), s. rewrite <- app_assoc. simpl.
        repeat (split; [done|]). intros var [?|Hv]%elem_of_app; [by auto|].
        apply list_elem_of_singleton in Hv. subst var. intros _.
        exists sx. split; [done | lia].
      * destruct Hinv as [Hm _]. rewrite Hm in Hbelow. done.
Qed.

Lemma mrv_invariant_nil a d : mrv_invariant a d [] (None, None).
Proof. split; [done|]. intros var Hv. by apply elem_of_nil in Hv. Qed.

(** X9. The variable that [_select_unassigned_variable] returns is a
    free variable with the fewest remaining values: every free variable
    met before it has strictly more candidates, every free variable
    after it has at least as many. So ties go to the first variable in
    category order, then position order. *)
Theorem select_minimum_remaining self a d c p :
  _select_unassigned_variable self a d = Ok (Some (c, p)) →
  ∃ before after s,
    puzzle_variables self = before ++ (c, p) :: after ∧
    free a (c, p) ∧
    getdom d c p = Ok s ∧
    (∀ var, var ∈ before → free a var →
       ∃ s', getdom d var.1 var.2 = Ok s' ∧ (size s < size s')%nat) ∧
    (∀ var, var ∈ after → free a var →
       ∃ s', getdom d var.1 var.2 = Ok s' ∧ (size s ≤ size s')%nat).
Proof.
  rewrite select_flat. intros ([m best] & Hfold & [= ->])%rbind_Ok.
  apply (mrv_scan a d _ []) in Hfold; [|apply mrv_invariant_nil].
  destruct Hfold as (before & after & s & Hvars & Hfree & Hs & _ & Hb & Ha).
  by exists before, after, s.
Qed.

Lemma select_minimum_remaining_witness :
  let d := [("color", [(0, {["red"; "green"]} : gset string);
                       (1, {["red"; "green"; "ivory"]});
                       (2, {["green"; "ivory"]})])] in
  let self := {| num_positions := 3;
                 categories := [("color", ["red"; "green"; "ivory"])];
                 constraints := [] |} in
  _select_unassigned_variable self [("color", [(0, "red")])] d
  = Ok (Some ("color", 2)) ∧
  ∃ before after s,
    puzzle_variables self = before ++ ("color", 2) :: after ∧
    getdom d "color" 2 = Ok s.
Proof.
  intros d self.
  assert (H : _select_unassigned_variable self [("color", [(0, "red")])] d
              = Ok (Some ("color", 2))) by (vm_compute; reflexivity).
  split; [exact H|].
  destruct (select_minimum_remaining self _ d "color" 2 H)
    as (before & after & s & Hv & _ & Hs & _).
  exists before, after, s. split; [exact Hv | exact Hs].
Defined.

(** X10. [_select_unassigned_variable] returns [None] exactly when the
    assignment holds every variable of the puzzle; it then never looks
    at the domain map. *)
Theorem select_none_iff_all_assigned self a d :
  _select_unassigned_variable self a d = Ok None ↔
  ∀ var, var ∈ puzzle_variables self → assigned a var.1 var.2 = true.
Proof.
  rewrite select_flat. split.
  - intros ([m best] & Hfold & [= ->])%rbind_Ok.
    apply (mrv_scan a d _ []) in Hfold; [|apply mrv_invariant_nil].
    destruct Hfold as [_ Hnone]. intros var Hvar.
    specialize (Hnone var Hvar). unfold free in Hnone.
    by destruct (assigned a var.1 var.2).
  - intros Hall.
    assert (Hfold : ∀ l acc,
      (∀ var, var ∈ l → assigned a var.1 var.2 = true) →
      rfold l (λ var acc,
        if assigned a var.1 var.2 then Ok acc
        else
          s ←! getdom d var.1 var.2;
          if below (size s) acc.1
          then Ok (Some (size s), Some var)
          else Ok acc) acc = Ok acc).
    { induction l as [|x l IH]; intros acc Hl; simpl; [done|].
      rewrite (Hl x) by left. simpl. apply IH. intros var Hv.
      apply Hl. by right. }
    by rewrite Hfold.
Qed.

(** ** Committing a value: [_update_domains] *)

Lemma putdom_dkeys d c p s d' :
  putdom d c p s = Ok d' → dkeys d' = dkeys d.
Proof.
  unfold putdom. intros (m & Hm%ditem_Ok & [= <-])%rbind_Ok.
  apply dkeys_dset_mem, dget_is_Some. eauto.
Qed.

Lemma putdom_cases d c p s :
  (∃ d', putdom d c p s = Ok d') ∨ putdom d c p s = Raise KeyError.
Proof.
  unfold putdom. destruct (ditem_cases d c) as [(m & _ & ->)|[_ ->]];
    simpl; eauto.
Qed.

(** X11. [_update_domains] succeeds exactly when the category is in the
    domain map and every other position of the puzzle has a domain in
    it, and raises [KeyError] when the category is missing. The map it
    returns has the same categories, the domain of the assigned position
    is the single value, the value has left the domains of the other
    positions of the category, and all other domains are as before. *)
Theorem update_domains_effect self d c p value :
  (dget d c = None → _update_domains self d c p value = Raise KeyError) ∧
  ((∃ d1, _update_domains self d c p value = Ok d1) ↔
   is_Some (dget d c) ∧
   ∀ q, 0 ≤ q < num_positions self → q ≠ p →
        ∃ s, getdom d c q = Ok s) ∧
  ∀ d1, _update_domains self d c p value = Ok d1 →
    dkeys d1 = dkeys d ∧
    getdom d1 c p = Ok {[value]} ∧
    (∀ q s, q ≠ p → 0 ≤ q < num_positions self →
            getdom d c q = Ok s → getdom d1 c q = Ok (s ∖ {[value]})) ∧
    (∀ c' q, c' ≠ c ∨ (q ≠ p ∧ ¬ 0 ≤ q < num_positions self) →
             getdom d1 c' q = getdom d c' q).
Proof.
  split; [|split].
  - intros Hno. unfold _update_domains, putdom, ditem. by rewrite Hno.
  - split.
    + intros [d1 Hupd]. unfold _update_domains in Hupd.
      apply rbind_Ok in Hupd as (nd & Hput & Hfold). split.
      { unfold putdom in Hput.
        apply rbind_Ok in Hput as (m & Hm%ditem_Ok & _). eauto. }
      intros q Hq%elem_of_range Hqp.
      apply list_elem_of_split in Hq as (l1 & l2 & Hl).
      rewrite Hl, rfold_app in Hfold.
      apply rbind_Ok in Hfold as (nd1 & Hl1 & Hl2). simpl in Hl2.
      rewrite decide_True in Hl2 by done.
      apply rbind_Ok in Hl2 as (nd2 & Hq & _).
      apply rbind_Ok in Hq as (s1 & Hs1 & _).
      rewrite (update_fold _ _ _ _ _ _ Hl1 c q) in Hs1.
      rewrite (getdom_putdom _ _ _ _ _ c q Hput) in Hs1.
      rewrite decide_False in Hs1 by (by intros [_ ?]).
      destruct (getdom d c q) as [s| |]; [by eauto | done..].
    + intros [[m Hm] Hpos]. unfold _update_domains, putdom.
      rewrite (proj2 (ditem_Ok _ _ _) Hm). simpl.
      set (nd := dset d c (dset m p {[value]})).
      assert (Hput : putdom d c p {[value]} = Ok nd).
      { unfold putdom. by rewrite (proj2 (ditem_Ok _ _ _) Hm). }
      destruct (rfold_hit
        (λ nd', ∀ q, 0 ≤ q < num_positions self → q ≠ p →
                     ∃ s, getdom nd' c q = Ok s)
        (λ _, True) (λ _, False)
        (λ pos new_domains,
           if decide (pos ≠ p) then
             s ←! getdom new_domains c pos;
             putdom new_domains c pos (s ∖ {[value]})
           else Ok new_domains)
        (range (num_positions self)) nd) as (d1 & Hd1 & _); [| |by eauto].
      * intros q Hq Hqp. rewrite (getdom_putdom _ _ _ _ _ c q Hput).
        rewrite decide_False by (by intros [_ ?]). auto.
      * intros pos nd' Hpos'%elem_of_range Hinv.
        case_decide as Hpp; [|by eauto].
        destruct (Hinv pos Hpos' Hpp) as [s Hs]. rewrite Hs. simpl.
        destruct (putdom_Ok _ _ _ _ (s ∖ {[value]}) Hs) as [nd'' Hput'].
        exists nd''. split; [done|]. split; [|done].
        intros q Hq Hqp. rewrite (getdom_putdom _ _ _ _ _ c q Hput').
        case_decide; [by eauto | auto].
  - intros d1 Hupd.
    pose proof (update_domains_getdom _ _ _ _ _ _ Hupd) as Hget. split.
    { unfold _update_domains in Hupd.
      apply rbind_Ok in Hupd as (nd & Hput & Hfold).
      apply (rfold_inv (λ nd', dkeys nd' = dkeys d)) in Hfold; [done| |].
      - by eapply putdom_dkeys.
      - intros pos nd1 nd2 _ Hk. case_decide; [|by intros [= <-]].
        intros (s & _ & Hput')%rbind_Ok.
        rewrite <- Hk. by eapply putdom_dkeys. }
    split; [|split].
    + rewrite Hget. by rewrite decide_True.
    + intros q s Hqp Hq Hs. rewrite Hget, Hs.
      rewrite decide_False by (by intros [_ ?]).
      by rewrite decide_True.
    + intros c' q Hother. rewrite Hget.
      rewrite decide_False by (intros [-> ->]; by destruct Hother as [?|[? _]]).
      destruct (getdom d c' q) as [s| |]; [|done..].
      rewrite decide_False; [done|].
      intros [-> Hq]. destruct Hother as [?|[_ ?]]; done.
Qed.

(** ** Reading a solution: [query_solution] and the rows of the web
    handler *)

Lemma filter_ext_in {A} (P Q : A → Prop) `{!∀ x, Decision (P x)}
    `{!∀ x, Decision (Q x)} (l : list A) :
  (∀ x, x ∈ l → P x ↔ Q x) → filter P l = filter Q l.
Proof.
  induction l as [|x l IH]; intros Hl; [done|].
  rewrite !filter_cons.
  rewrite IH by (intros y Hy; apply Hl; by right).
  pose proof (Hl x (list_elem_of_here _ _)) as Hx.
  destruct (decide (P x)), (decide (Q x)); tauto.
Qed.

Lemma filter_all {A} (P : A → Prop) `{!∀ x, Decision (P x)} (l : list A) :
  (∀ x, x ∈ l → P x) → filter P l = l.
Proof.
  induction l as [|x l IH]; intros Hl; [done|].
  rewrite filter_cons_True by (apply Hl; left).
  rewrite IH; [done|]. intros y Hy. apply Hl. by right.
Qed.

(** The loop that collects, for one position, the value of every
    category. *)
Lemma cross_section_fold {V} (g : string → V) (sol : assignment) position :
  all_hold sol position → is_dict sol →
  ∀ acc,
    ∃ r, rfold sol (λ ca result,
           v ←! ditem ca.2 position; Ok (dset result ca.1 (g v))) acc
         = Ok r ∧
         (∀ c, dget r c = match dget sol c with
                          | Some items => g <$> dget items position
                          | None => dget acc c
                          end) ∧
         dkeys r = dkeys acc ++ filter (λ c, c ∉ dkeys acc) (dkeys sol).
Proof.
  induction sol as [|[c items] sol IH]; intros Hall Hd acc.
  { exists acc. split; [done|]. split; [done|]. simpl.
    by rewrite app_nil_r. }
  assert (Hc : (c ∉ dkeys sol) ∧ is_dict sol).
  { unfold is_dict, dkeys in *. simpl in Hd. by apply NoDup_cons in Hd. }
  destruct Hc as [Hc Hd'].
  destruct (Hall c items) as [v Hv]; [left|].
  simpl. rewrite (proj2 (ditem_Ok _ _ _) Hv). simpl.
  destruct (IH (λ c' i' H, Hall c' i' (list_elem_of_further _ _ _ H)) Hd'
              (dset acc c (g v))) as (r & -> & Hget & Hkeys).
  exists r. split; [done|]. split.
  - intros c'. rewrite Hget. case_decide as Hcc.
    + subst c'. rewrite (proj2 (dget_None _ _) Hc).
      rewrite dget_dset, decide_True by done. by rewrite Hv.
    + destruct (dget sol c'); [done|]. rewrite dget_dset.
      by rewrite decide_False.
  - rewrite Hkeys.
    change (dkeys ((c, items) :: sol)) with (c :: dkeys sol).
    rewrite filter_cons.
    destruct (decide (c ∈ dkeys acc)) as [Hin|Hnin].
    + rewrite decide_False by (by intros ?).
      by rewrite dkeys_dset_mem.
    + rewrite decide_True by done.
      rewrite dkeys_dset_new by done. rewrite <- app_assoc. simpl.
      do 2 f_equal. apply filter_ext_in.
      intros c' Hc'. rewrite elem_of_app, list_elem_of_singleton.
      split; [by auto|]. intros Hno [?| ->]; done.
Qed.

Lemma cross_section_fold_error {V} (g : string → V) (sol : assignment)
    position :
  ¬ all_hold sol position →
  ∀ acc, rfold sol (λ ca result,
           v ←! ditem ca.2 position; Ok (dset result ca.1 (g v))) acc
         = Raise KeyError.
Proof.
  induction sol as [|[c items] sol IH]; intros Hnot acc; simpl.
  { destruct Hnot. intros c items Hin. by apply elem_of_nil in Hin. }
  destruct (ditem_cases items position) as [(v & Hv & ->)|[Hno ->]];
    [|done].
  simpl. apply IH. intros Hall. apply Hnot.
  intros c' items' [[= -> ->]|Hin]%elem_of_cons; [by eauto|].
  by apply (Hall c').
Qed.

(** X12. When [query_solution] finds the value at a position that every
    category of the solution holds, it returns the cross-section at
    that position: one entry per category of the solution, in the same
    order, each the value of that category at the position, and the
    entry of the queried category is the queried value. *)
Theorem query_solution_cross_section sol category value items position :
  is_assignment sol →
  dget sol category = Some items →
  scan_items items value = Some position →
  all_hold sol position →
  ∃ r, query_solution (Some sol) category value = Ok (Some r) ∧
       dkeys r = dkeys sol ∧
       dget r category = Some value ∧
       ∀ c items', dget sol c = Some items' →
                   dget r c = dget items' position.
Proof.
  intros [Hd Hitems] Hcat Hscan Hall. unfold query_solution.
  rewrite Hcat, Hscan.
  destruct (cross_section_fold (λ v, v) sol position Hall Hd [])
    as (r & -> & Hget & Hkeys).
  exists r. split; [done|]. split.
  { rewrite Hkeys. simpl. apply filter_all.
    intros c _. apply not_elem_of_nil. }
  assert (Hcross : ∀ c items', dget sol c = Some items' →
            dget r c = dget items' position).
  { intros c items' Hc. rewrite Hget, Hc. by destruct (dget items' position). }
  split; [|done]. rewrite (Hcross _ _ Hcat).
  apply elem_dget; [|by apply scan_items_elem].
  apply (Hitems category). by apply dget_Some_elem.
Qed.

Lemma query_solution_cross_section_witness :
  let sol := [("nationality", [(0, "Spanish"); (1, "English")]);
              ("pet", [(1, "snail"); (0, "dog")])] in
  is_assignment sol ∧
  dget sol "pet" = Some [(1, "snail"); (0, "dog")] ∧
  scan_items [(1, "snail"); (0, "dog")] "dog" = Some 0 ∧
  all_hold sol 0 ∧
  ∃ r, query_solution (Some sol) "pet" "dog" = Ok (Some r) ∧
       dget r "nationality" = Some "Spanish".
Proof.
  intros sol.
  assert (H1 : is_assignment sol).
  { split; [apply (bool_decide_unpack _); by vm_compute|].
    intros c items Hin. unfold sol in Hin.
    repeat (apply elem_of_cons in Hin as [Hin|Hin]; [simplify_eq;
      apply (bool_decide_unpack _); by vm_compute|]).
    by apply elem_of_nil in Hin. }
  assert (H2 : dget sol "pet" = Some [(1, "snail"); (0, "dog")])
    by reflexivity.
  assert (H3 : scan_items [(1, "snail"); (0, "dog")] "dog" = Some 0)
    by reflexivity.
  assert (H4 : all_hold sol 0).
  { intros c items Hin. unfold sol in Hin.
    repeat (apply elem_of_cons in Hin as [Hin|Hin]; [simplify_eq;
      by eexists|]).
    by apply elem_of_nil in Hin. }
  split; [exact H1|]. split; [exact H2|]. split; [exact H3|].
  split; [exact H4|].
  destruct (query_solution_cross_section sol "pet" "dog" _ 0 H1 H2 H3 H4)
    as (r & Hr & _ & _ & Hcross).
  exists r. split; [exact Hr|]. by rewrite (Hcross "nationality" _ eq_refl).
Defined.

(** X13. [query_solution] returns [None] exactly when there is no
    solution, the category is not in it or no position of the category
    holds the value; and when the value is found at a position that
    some category of the solution lacks, it raises [KeyError]. *)
Theorem query_solution_misses category value :
  query_solution None category value = Ok None ∧
  ∀ sol,
    (query_solution (Some sol) category value = Ok None ↔
     position_of sol category value = None) ∧
    ∀ position,
      position_of sol category value = Some position →
      ¬ all_hold sol position →
      query_solution (Some sol) category value = Raise KeyError.
Proof.
  split; [done|]. intros sol. unfold query_solution, position_of.
  destruct (dget sol category) as [items|]; [|done].
  destruct (scan_items items value) as [position|]; [|done]. split.
  - split; [|done]. by intros (r & _ & [=])%rbind_Ok.
  - intros ? [= <-] Hnot.
    by rewrite (cross_section_fold_error (λ v, v) sol position Hnot).
Qed.

Lemma is_dict_extend a c p v : is_dict a → is_dict (extend a c p v).
Proof.
  intros Ha. unfold extend. apply is_dict_dset.
  destruct (dmem a c); [done | by apply is_dict_dset].
Qed.

Lemma dkeys_extend a c p v c' :
  c' ∈ dkeys (extend a c p v) → c' = c ∨ c' ∈ dkeys a.
Proof.
  rewrite <- !dget_is_Some, dget_extend. case_decide; auto.
Qed.

(** What [solve] returns went through the frames of the search. *)
Lemma solve_returns_frame iter self sol :
  (∀ a s v, v ∈ iter a s → v ∈ s) →
  is_dict (categories self) →
  solve iter self = Ok (Some sol) →
  _is_complete self sol = true ∧ ∃ d, declared_frame self sol d.
Proof.
  intros Hiter Hdict (od & Hinit & H)%rbind_Ok.
  destruct od as [d0|]; [|done].
  apply (backtrack_invariant iter self (declared_frame self)) in H; [done| |].
  - intros a d c p s value d1 d2 (Hframe & Ha & Hkeys) _ Hsel Hs Hv _
      Hupd Hprop.
    split; [eapply search_frame_step; by eauto|].
    split; [by apply is_dict_extend|].
    intros c' [->|?]%dkeys_extend; [|by auto].
    by apply select_spec in Hsel as [? _].
  - split; [|split; [apply NoDup_nil_2|]].
    + split; [done|]. intros c pos s Hs.
      apply (propagate_constraints_shrinks _ _ _ Hinit) in Hs
        as (s0 & Hs0 & Hsub).
      apply initial_domains_getdom in Hs0 as (_ & vs & Hvs & ->).
      rewrite dget_reverse in Hvs by done. exists vs. split; [done|].
      intros v Hv%Hsub. by apply elem_of_list_to_set in Hv.
    + intros c Hc. by apply elem_of_nil in Hc.
Qed.

(** A complete frame of a constructed puzzle holds a bijection in every
    declared category. *)
Lemma complete_frame_bijection self sol d category values :
  is_dict (categories self) →
  constructed self →
  search_frame self sol d →
  _is_complete self sol = true →
  dget (categories self) category = Some values →
  ∃ items, dget sol category = Some items ∧ one_to_one items ∧
           bijection_onto (num_positions self) values items.
Proof.
  intros Hdict Hcons [Hent _] Hcomplete Hvalues.
  assert (Hc : category ∈ dkeys (categories self)).
  { apply dget_is_Some. eauto. }
  destruct (is_complete_spec _ _ _ Hcomplete Hc) as (items & Hitems & Hlen).
  destruct (Hent category items Hitems) as (Hd & Hinj & Hentries).
  pose proof (constructed_lengths self Hcons) as Hlens.
  rewrite Forall_forall in Hlens.
  specialize (Hlens _ (dget_Some_elem _ _ _ Hvalues)). simpl in Hlens.
  exists items. split; [done|]. split; [done|].
  assert (Hinto : ∀ pos v, dget items pos = Some v →
            0 ≤ pos < num_positions self ∧ v ∈ values).
  { intros pos v Hv.
    destruct (Hentries pos v Hv) as (Hr & (vs & Hvs & Hvin) & _).
    split; [done | congruence]. }
  split; [|split; [done|split; [|done]]].
  - assert (Hperm : dkeys items ≡ₚ range (num_positions self)).
    { apply submseteq_length_Permutation.
      - apply NoDup_submseteq; [done|].
        intros pos [v Hv]%dget_is_Some. apply elem_of_range.
        by apply (Hinto pos v).
      - unfold range, dkeys. rewrite length_seqZ, length_fmap. lia. }
    intros pos Hpos%elem_of_range. apply dget_is_Some. by rewrite Hperm.
  - assert (Hitems_nodup : NoDup items)
      by (by apply (NoDup_fmap_1 fst)).
    assert (Hperm : items.*2 ≡ₚ values).
    { apply submseteq_length_Permutation.
      - apply NoDup_submseteq.
        + apply NoDup_fmap_2_strong; [|done].
          intros [p1 v1] [p2 v2] H1%(elem_dget _ _ _ Hd)
            H2%(elem_dget _ _ _ Hd) Heq.
          simpl in Heq. subst v2. f_equal. by eapply Hinj.
        + intros v ([pos v'] & -> & Hv)%list_elem_of_fmap.
          apply (elem_dget _ _ _ Hd) in Hv. by apply (Hinto pos v').
      - rewrite length_fmap. lia. }
    intros v Hv. rewrite <- Hperm in Hv.
    apply list_elem_of_fmap in Hv as ([pos v'] & -> & Hv).
    exists pos. by apply elem_dget.
Qed.

(** In what [solve] returns, every category holds every position. *)
Lemma solve_returns_rows iter self sol pos :
  (∀ a s v, v ∈ iter a s → v ∈ s) →
  is_dict (categories self) →
  constructed self →
  solve iter self = Ok (Some sol) →
  0 ≤ pos < num_positions self →
  is_assignment sol ∧ all_hold sol pos.
Proof.
  intros Hiter Hdict Hcons Hsolve Hpos.
  destruct (solve_returns_frame iter self sol Hiter Hdict Hsolve)
    as (Hcomplete & d & Hframe & Hsol & Hkeys).
  split.
  - split; [done|]. intros c items Hin%(elem_dget _ _ _ Hsol).
    by apply (proj1 Hframe c items).
  - intros c items Hin. pose proof (elem_dget _ _ _ Hsol Hin) as Hget.
    assert (is_Some (dget (categories self) c)) as [values Hvalues].
    { apply dget_is_Some, Hkeys, dget_is_Some. eauto. }
    destruct (complete_frame_bijection self sol d c values Hdict Hcons
                Hframe Hcomplete Hvalues) as (items' & Hget' & _ & Hall & _).
    rewrite Hget in Hget'. injection Hget' as <-. by apply Hall.
Qed.

(** X14. For a solution returned by [solve] on a constructed puzzle,
    [query_solution] asked for any value of a declared category does
    not raise and does not return [None]: it returns a cross-section
    with an entry for every declared category, the entry of the queried
    category being the queried value. *)
Theorem query_solution_of_solve iter self sol category values value :
  (∀ a s v, v ∈ iter a s → v ∈ s) →
  is_dict (categories self) →
  constructed self →
  solve iter self = Ok (Some sol) →
  (category, values) ∈ categories self →
  value ∈ values →
  ∃ r, query_solution (Some sol) category value = Ok (Some r) ∧
       dget r category = Some value ∧
       ∀ c, c ∈ dkeys (categories self) →
            ∃ v pos, dget r c = Some v ∧ holds_at sol c pos v ∧
                     holds_at sol category pos value.
Proof.
  intros Hiter Hdict Hcons Hsolve Hin Hvalue.
  destruct (solve_returns_frame iter self sol Hiter Hdict Hsolve)
    as (Hcomplete & d & Hframe & Hsol & Hkeys).
  pose proof (elem_dget _ _ _ Hdict Hin) as Hvalues.
  destruct (complete_frame_bijection self sol d category values Hdict Hcons
              Hframe Hcomplete Hvalues)
    as (items & Hitems & Hone & _ & Hinto & Honto & _).
  destruct (Honto value Hvalue) as [pos Hpos].
  destruct (Hinto pos value Hpos) as [Hrange _].
  destruct (solve_returns_rows iter self sol pos Hiter Hdict Hcons Hsolve
              Hrange) as [Hass Hall].
  unfold query_solution. rewrite Hitems.
  rewrite (proj2 (scan_items_dget items value pos Hone) Hpos).
  destruct (cross_section_fold (λ v, v) sol pos Hall Hsol [])
    as (r & -> & Hget & _).
  exists r. split; [done|]. split.
  { rewrite Hget, Hitems, Hpos. done. }
  intros c Hc.
  assert (is_Some (dget (categories self) c)) as [vs Hvs]
    by (by apply dget_is_Some).
  destruct (complete_frame_bijection self sol d c vs Hdict Hcons
              Hframe Hcomplete Hvs) as (items' & Hget' & _ & Hall' & _).
  destruct (Hall' pos Hrange) as [v Hv].
  exists v, pos. split; [by rewrite Hget, Hget', Hv|].
  split; [by exists items' | by exists items].
Qed.

Lemma query_solution_of_solve_witness :
  (∀ a s v, v ∈ elements_order a s → v ∈ s) ∧
  is_dict (categories example_puzzle) ∧
  constructed example_puzzle ∧
  ("pet", ["dog"; "snail"; "fox"]) ∈ categories example_puzzle ∧
  "dog" ∈ ["dog"; "snail"; "fox"] ∧
  ∃ sol r, solve elements_order example_puzzle = Ok (Some sol) ∧
           query_solution (Some sol) "pet" "dog" = Ok (Some r) ∧
           dget r "pet" = Some "dog".
Proof.
  assert (H1 : ∀ (a : assignment) (s : gset string) v,
            v ∈ elements_order a s → v ∈ s).
  { intros a s v. unfold elements_order. by rewrite elem_of_elements. }
  assert (H2 : is_dict (categories example_puzzle)).
  { apply (bool_decide_unpack _). by vm_compute. }
  assert (H3 : constructed example_puzzle).
  { apply constructed_any. simpl. by repeat constructor. }
  assert (H5 : ("pet", ["dog"; "snail"; "fox"]) ∈ categories example_puzzle)
    by (right; right; left).
  assert (H6 : "dog" ∈ ["dog"; "snail"; "fox"]) by left.
  repeat (split; [assumption|]).
  eexists. 
  assert (H4 : solve elements_order example_puzzle = Ok (Some _))
    by (vm_compute; reflexivity).
  destruct (query_solution_of_solve elements_order example_puzzle _
              "pet" _ "dog" H1 H2 H3 H4 H5 H6) as (r & Hr & Hpet & _).
  exists r. split; [exact H4|]. split; [exact Hr | exact Hpet].
Defined.

Lemma cross_section_fold_cases {V} (g : string → V) (sol : assignment)
    position acc :
  (∃ r, rfold sol (λ ca result,
          v ←! ditem ca.2 position; Ok (dset result ca.1 (g v))) acc
        = Ok r) ∨
  rfold sol (λ ca result,
    v ←! ditem ca.2 position; Ok (dset result ca.1 (g v))) acc
  = Raise KeyError.
Proof.
  revert acc. induction sol as [|[c items] sol IH]; intros acc; simpl;
    [by eauto|].
  destruct (ditem_cases items position) as [(v & _ & ->)|[_ ->]]; simpl;
    [apply IH | by right].
Qed.

(** X15. The rows of the web handler, for a well-formed solution. When
    every category holds every position below [num_positions], there is
    one row per position, in order, and the row of a position holds the
    value of each category under the name of the category, and the
    1-based position under 'position' unless a category is called
    'position', whose value then takes its place. When some category
    lacks a position, the rows are not built: [KeyError]. *)
Theorem format_solution_rows n sol :
  is_dict sol →
  ((∀ pos, 0 ≤ pos < n → all_hold sol pos) →
   ∃ rows, format_solution n sol = Ok rows ∧
           Forall2 (row_of sol) (range n) rows) ∧
  ((∃ pos, 0 ≤ pos < n ∧ ¬ all_hold sol pos) →
   format_solution n sol = Raise KeyError).
Proof.
  intros Hd. unfold format_solution. split.
  - intros Hall.
    assert (Hgen : ∀ l acc, (∀ pos, pos ∈ l → all_hold sol pos) →
      ∃ rows,
        rfold l (λ pos formatted_solution,
          position_data ←! rfold sol (λ ca position_data,
                             v ←! ditem ca.2 pos;
                             Ok (dset position_data ca.1 (JStr v)))
                           [("position", JInt (pos + 1))];
          Ok (formatted_solution ++ [position_data])) acc
        = Ok (acc ++ rows) ∧
        Forall2 (row_of sol) l rows).
    { induction l as [|pos l IH]; intros acc Hl; simpl.
      - exists []. by rewrite app_nil_r.
      - destruct (cross_section_fold JStr sol pos
                    (Hl pos (list_elem_of_here _ _)) Hd
                    [("position", JInt (pos + 1))]) as (row & -> & Hget & _).
        simpl.
        destruct (IH (acc ++ [row]))
          as (rows & -> & Hrows); [intros q Hq; apply Hl; by right|].
        exists (row :: rows). rewrite <- app_assoc. split; [done|].
        constructor; [|done]. split.
        + intros c items Hc. by rewrite Hget, Hc.
        + intros Hno%dget_None. by rewrite Hget, Hno. }
    destruct (Hgen (range n) []) as (rows & Hrows & Hall2); [|by eauto].
    intros pos Hpos%elem_of_range. by apply Hall.
  - intros (pos0 & Hpos0%elem_of_range & Hnot).
    assert (Hgen : ∀ l acc, pos0 ∈ l →
      rfold l (λ pos formatted_solution,
        position_data ←! rfold sol (λ ca position_data,
                           v ←! ditem ca.2 pos;
                           Ok (dset position_data ca.1 (JStr v)))
                         [("position", JInt (pos + 1))];
        Ok (formatted_solution ++ [position_data])) acc
      = Raise KeyError); [|by apply Hgen].
    clear Hpos0. induction l as [|pos l IH]; intros acc Hpos0;
      [by apply elem_of_nil in Hpos0|].
    simpl.
    destruct (cross_section_fold_cases JStr sol pos
                [("position", JInt (pos + 1))]) as [[row Hrow]|Hraise].
    + rewrite Hrow. simpl. apply elem_of_cons in Hpos0 as [->|Hin].
      * by rewrite (cross_section_fold_error JStr sol pos Hnot) in Hrow.
      * by apply IH.
    + by rewrite Hraise.
Qed.

Lemma format_solution_rows_witness :
  let sol := [("color", [(0, "red"); (1, "green")]);
              ("position", [(1, "left"); (0, "right")])] in
  is_dict sol ∧
  (∀ pos, 0 ≤ pos < 2 → all_hold sol pos) ∧
  format_solution 2 sol
  = Ok [[("position", JStr "right"); ("color", JStr "red")];
        [("position", JStr "left"); ("color", JStr "green")]] ∧
  ∃ rows, format_solution 2 sol = Ok rows ∧
          Forall2 (row_of sol) (range 2) rows.
Proof.
  intros sol.
  assert (H1 : is_dict sol) by (apply (bool_decide_unpack _); by vm_compute).
  assert (H2 : ∀ pos, 0 ≤ pos < 2 → all_hold sol pos).
  { intros pos Hpos c items Hin. unfold sol in Hin.
    assert (pos = 0 ∨ pos = 1) as [->| ->] by lia;
      repeat (apply elem_of_cons in Hin as [Hin|Hin]; [simplify_eq;
        by eexists|]); by apply elem_of_nil in Hin. }
  split; [exact H1|]. split; [exact H2|]. split; [reflexivity|].
  exact (proj1 (format_solution_rows 2 sol H1) H2).
Defined.

(** X16. The web handler can always build its rows from what [solve]
    returns for a constructed puzzle: no [KeyError], one row per
    position, and in every row a value for every declared category. *)
Theorem format_solution_of_solve iter self sol :
  (∀ a s v, v ∈ iter a s → v ∈ s) →
  is_dict (categories self) →
  constructed self →
  solve iter self = Ok (Some sol) →
  ∃ rows, format_solution (num_positions self) sol = Ok rows ∧
          Forall2 (row_of sol) (range (num_positions self)) rows ∧
          ∀ row c, row ∈ rows → c ∈ dkeys (categories self) →
                   ∃ v, dget row c = Some (JStr v).
Proof.
  intros Hiter Hdict Hcons Hsolve.
  destruct (solve_returns_frame iter self sol Hiter Hdict Hsolve)
    as (Hcomplete & d & Hframe & Hsol & Hkeys).
  destruct (format_solution_rows (num_positions self) sol Hsol)
    as [Hrows _].
  destruct Hrows as (rows & Hfmt & Hall2).
  { intros pos Hpos.
    by apply (solve_returns_rows iter self sol pos Hiter Hdict Hcons). }
  exists rows. split; [done|]. split; [done|].
  intros row c Hrow Hc.
  apply list_elem_of_lookup in Hrow as [i Hi].
  destruct (Forall2_lookup_r _ _ _ _ _ Hall2 Hi) as (pos & Hpos & Hrow_of).
  apply list_elem_of_lookup_2, elem_of_range in Hpos.
  assert (is_Some (dget (categories self) c)) as [vs Hvs]
    by (by apply dget_is_Some).
  destruct (complete_frame_bijection self sol d c vs Hdict Hcons
              Hframe Hcomplete Hvs)
    as (items & Hitems & _ & Hall & _).
  destruct (Hall pos Hpos) as [v Hv]. exists v.
  by rewrite (proj1 Hrow_of c items Hitems), Hv.
Qed.

Lemma format_solution_of_solve_witness :
  (∀ a s v, v ∈ elements_order a s → v ∈ s) ∧
  is_dict (categories example_puzzle) ∧
  constructed example_puzzle ∧
  ∃ sol rows,
    solve elements_order example_puzzle = Ok (Some sol) ∧
    format_solution (num_positions example_puzzle) sol = Ok rows ∧
    Forall2 (row_of sol) (range (num_positions example_puzzle)) rows.
Proof.
  assert (H1 : ∀ (a : assignment) (s : gset string) v,
            v ∈ elements_order a s → v ∈ s).
  { intros a s v. unfold elements_order. by rewrite elem_of_elements. }
  assert (H2 : is_dict (categories example_puzzle)).
  { apply (bool_decide_unpack _). by vm_compute. }
  assert (H3 : constructed example_puzzle).
  { apply constructed_any. simpl. by repeat constructor. }
  repeat (split; [assumption|]).
  eexists.
  assert (H4 : solve elements_order example_puzzle = Ok (Some _))
    by (vm_compute; reflexivity).
  destruct (format_solution_of_solve elements_order example_puzzle _
              H1 H2 H3 H4) as (rows & Hfmt & Hrows & _).
  exists rows. split; [exact H4|]. split; [exact Hfmt | exact Hrows].
Defined.

(** ** Solution grids *)

Lemma grid_value self g c p :
  is_grid self g → c ∈ dkeys (categories self) →
  0 ≤ p < num_positions self →
  ∃ v, holds_at g c p v.
Proof.
  intros Hg [values Hv]%dget_is_Some Hp.
  destruct (Hg c values Hv) as (items & Hitems & Hall & _).
  destruct (Hall p Hp) as [v Hpv]. exists v, items. by split.
Qed.

Lemma holds_at_functional a c p v v' :
  holds_at a c p v → holds_at a c p v' → v = v'.
Proof. intros (i & Hi & Hv) (i' & Hi' & Hv'). congruence. Qed.

Lemma grid_injective self g c p q v :
  is_grid self g → c ∈ dkeys (categories self) →
  holds_at g c p v → holds_at g c q v → p = q.
Proof.
  intros Hg [values Hv]%dget_is_Some (i & Hi & Hp) (i' & Hi' & Hq).
  destruct (Hg c values Hv) as (items & Hitems & _ & _ & _ & Hinj).
  assert (i = items) by congruence. assert (i' = items) by congruence.
  subst i i'. by eapply Hinj.
Qed.

Lemma grid_onto self g c values v :
  is_grid self g → dget (categories self) c = Some values → v ∈ values →
  ∃ p, holds_at g c p v ∧ 0 ≤ p < num_positions self.
Proof.
  intros Hg Hv Hin.
  destruct (Hg c values Hv) as (items & Hitems & _ & Hinto & Honto & _).
  destruct (Honto v Hin) as [p Hp]. exists p. split; [by exists items|].
  by destruct (Hinto p v Hp).
Qed.

(** ** Propagation never excludes a grid *)

Lemma possible_positions_complete d c v l pp :
  possible_positions d c v l = Ok pp →
  ∀ pos s, pos ∈ l → getdom d c pos = Ok s → v ∈ s → pos ∈ pp.
Proof.
  revert pp. induction l as [|x l IH]; simpl; intros pp.
  - intros _ pos s Hpos. by apply elem_of_nil in Hpos.
  - intros (s0 & Hs0 & H)%rbind_Ok. apply rbind_Ok in H as (rest & Hr & H).
    injection H as <-. intros pos s [->|Hpos]%elem_of_cons Hs Hin.
    + rewrite Hs in Hs0. injection Hs0 as <-.
      rewrite decide_True by done. left.
    + case_decide; [right|]; by eapply IH.
Qed.

Lemma elements_one (s : gset string) v : elements s = [v] → s = {[v]}.
Proof.
  intros He. apply set_eq. intros x.
  by rewrite <- elem_of_elements, He, list_elem_of_singleton,
    elem_of_singleton.
Qed.

Lemma for_each_survives {X S} (I : S → Prop)
    (body : X → S → result (option S)) l :
  ∀ s,
    I s →
    (∀ x s, x ∈ l → I s → survives I (body x s)) →
    survives I (for_each l body s).
Proof.
  induction l as [|x l IH]; intros s HI Hbody; simpl; [done|].
  pose proof (Hbody x s (list_elem_of_here _ _) HI) as Hx.
  destruct (body x s) as [[s1|]| |]; simpl in *; try done.
  apply IH; [done|]. intros y t Hy. apply Hbody. by right.
Qed.

Lemma survives_mono {S} (I J : S → Prop) (r : result (option S)) :
  (∀ s, I s → J s) → survives I r → survives J r.
Proof. intros HIJ. destruct r as [[s|]| |]; simpl; auto. Qed.

Lemma store_sound self g st c pos s s' :
  sound_state self g st →
  getdom (doms st) c pos = Ok s →
  (∀ v, c ∈ dkeys (categories self) → holds_at g c pos v → v ∈ s') →
  ∃ st', store st c pos s' = Ok (Some st') ∧
         sound_state self g st' ∧
         putdom (doms st) c pos s' = Ok (doms st').
Proof.
  intros [Hvars Hallow] Hs Hin.
  destruct (putdom_Ok _ _ _ _ s' Hs) as [d' Hd'].
  exists {| doms := d'; changed := true; seen := d' :: seen st |}.
  split; [unfold store; by rewrite Hd'|]. split; [|done]. split; simpl.
  - intros c' p' t. rewrite (getdom_putdom _ _ _ _ _ c' p' Hd').
    case_decide as Heq; [|apply Hvars]. destruct Heq as [-> ->].
    intros _. by eapply Hvars.
  - intros c' p' v Hc' Hv. rewrite (getdom_putdom _ _ _ _ _ c' p' Hd').
    case_decide as Heq; [|by apply Hallow]. destruct Heq as [-> ->].
    exists s'. split; [done|]. by apply Hin.
Qed.

Lemma remove_elsewhere_sound self g c position value st :
  is_grid self g → sound_state self g st →
  getdom (doms st) c position = Ok {[value]} →
  survives (sound_state self g)
    (remove_elsewhere (num_positions self) c position value st).
Proof.
  intros Hg HI Hone. unfold remove_elsewhere.
  apply (survives_mono (λ st, sound_state self g st ∧
           getdom (doms st) c position = Ok {[value]}));
    [by intros ? [? _]|].
  apply for_each_survives; [done|]. clear st HI Hone.
  intros pos st _ [HI Hone]. case_decide as Hpos; [|done].
  destruct (getdom_cases (doms st) c pos) as [[s Hs]|Hraise];
    [|rewrite Hraise; by simpl].
  rewrite Hs. simpl. case_decide as Hin; [|done].
  destruct (store_sound self g st c pos s (s ∖ {[value]}) HI Hs)
    as (st' & -> & HI' & Hput).
  { intros v Hc Hv. destruct HI as [Hvars Hallow].
    destruct (Hallow c pos v Hc Hv) as (s1 & Hs1 & Hv1).
    rewrite Hs in Hs1. injection Hs1 as <-.
    apply elem_of_difference. split; [done|].
    rewrite elem_of_singleton. intros ->.
    destruct (Hvars c position _ Hone) as [_ Hrange].
    destruct (grid_value self g c position Hg Hc Hrange) as [v' Hv'].
    destruct (Hallow c position v' Hc Hv') as (s2 & Hs2 & Hv2).
    rewrite Hone in Hs2. injection Hs2 as <-.
    apply elem_of_singleton in Hv2. subst v'.
    apply Hpos. by eapply grid_injective. }
  simpl. split; [done|].
  rewrite (getdom_putdom _ _ _ _ _ c position Hput).
  rewrite decide_False; [done|]. intros [_ Heq]. by apply Hpos.
Qed.

Lemma singleton_rule_sound self g st :
  is_grid self g → sound_state self g st →
  survives (sound_state self g) (singleton_rule (num_positions self) st).
Proof.
  intros Hg HI. unfold singleton_rule.
  generalize (dkeys (doms st)). intros cats.
  apply for_each_survives; [done|]. clear st HI. intros c st _ HI.
  destruct (ditem_cases (doms st) c) as [(m & Hm & ->)|[_ ->]]; simpl;
    [|done].
  apply for_each_survives; [done|]. intros position st' _ HI'.
  destruct (getdom_cases (doms st') c position) as [[s Hs]|Hraise];
    [|rewrite Hraise; by simpl].
  rewrite Hs. simpl.
  destruct (elements s) as [|value [|? ?]] eqn:He; try done.
  apply remove_elsewhere_sound; [done..|].
  by rewrite <- (elements_one _ _ He).
Qed.

Lemma unique_position_rule_sound self g st :
  is_grid self g → sound_state self g st →
  survives (sound_state self g) (unique_position_rule self st).
Proof.
  intros Hg HI. unfold unique_position_rule.
  generalize (dkeys (doms st)). intros cats.
  apply for_each_survives; [done|]. clear st HI. intros c st _ HI.
  destruct (ditem_cases (categories self) c)
    as [(values & Hvalues & ->)|[_ ->]]; simpl; [|done].
  apply for_each_survives; [done|]. intros value st' Hvalue HI'.
  destruct (possible_positions_cases (doms st') c value
              (range (num_positions self))) as [[pp Hpp]|Hraise];
    [|rewrite Hraise; by simpl].
  rewrite Hpp. simpl.
  destruct (grid_onto self g c values value Hg Hvalues Hvalue)
    as (p0 & Hp0 & Hrange).
  assert (Hc : c ∈ dkeys (categories self)) by (apply dget_is_Some; eauto).
  destruct (proj2 HI' c p0 value Hc Hp0) as (s0 & Hs0 & Hin0).
  pose proof (possible_positions_complete _ _ _ _ _ Hpp p0 s0
                (proj2 (elem_of_range _ _) Hrange) Hs0 Hin0) as Hmem.
  destruct pp as [|pos [|? ?]]; [by apply elem_of_nil in Hmem| |done].
  apply list_elem_of_singleton in Hmem. subst pos.
  rewrite Hs0. simpl. case_decide; [|done].
  destruct (store_sound self g st' c p0 s0 {[value]} HI' Hs0)
    as (st2 & -> & HI2 & _); [|done].
  intros v _ Hv. apply elem_of_singleton. by eapply holds_at_functional.
Qed.

Lemma sound_full self g st :
  is_grid self g → sound_state self g st → ¬ has_empty (doms st).
Proof.
  intros Hg [Hvars Hallow] (c & p & Hempty).
  destruct (Hvars c p _ Hempty) as [Hc Hp].
  destruct (grid_value self g c p Hg Hc Hp) as [v Hv].
  destruct (Hallow c p v Hc Hv) as (s & Hs & Hin).
  rewrite Hempty in Hs. injection Hs as <-.
  by apply not_elem_of_empty in Hin.
Qed.

Lemma propagate_pass_sound self g st :
  is_grid self g → sound_state self g st →
  survives (sound_state self g) (propagate_pass self st).
Proof.
  intros Hg HI. unfold propagate_pass. fold (reset st).
  destruct (check_wipeout_spec (reset st)) as [[-> _]|[_ Hempty]].
  2:{ by destruct (sound_full self g (reset st) Hg HI). }
  simpl.
  pose proof (singleton_rule_sound self g (reset st) Hg HI) as H1.
  destruct (singleton_rule _ _) as [[st1|]| |]; simpl in *; try done.
  by apply unique_position_rule_sound.
Qed.

Lemma propagate_loop_sound self g fuel :
  is_grid self g →
  ∀ st, sound_state self g st →
        survives (sound_state self g) (propagate_loop self fuel st).
Proof.
  intros Hg. induction fuel as [|fuel IH]; intros st HI; simpl.
  - by destruct (changed st).
  - destruct (changed st); [|done].
    pose proof (propagate_pass_sound self g st Hg HI) as H.
    destruct (propagate_pass self st) as [[st1|]| |]; simpl in *; try done.
    by apply IH.
Qed.

Lemma propagate_constraints_sound self g d :
  is_grid self g → only_variables self d → allows self d g →
  _propagate_constraints self d ≠ Ok None ∧
  ∀ d', _propagate_constraints self d = Ok (Some d') →
        only_variables self d' ∧ allows self d' g.
Proof.
  intros Hg Hvars Hallow. unfold _propagate_constraints, propagate_run.
  pose proof (propagate_loop_sound self g (S (weight d)) Hg
                {| doms := d; changed := true; seen := [d] |}
                (conj Hvars Hallow)) as H.
  destruct (propagate_loop self (S (weight d)) _) as [[st|]| |];
    simpl in *; [|done..].
  split; [done|]. by intros d' [= <-].
Qed.

Lemma initial_only_variables self :
  only_variables self (initial_domains self).
Proof.
  intros c pos s (Hpos & values & Hv & _)%initial_domains_getdom.
  split; [|done]. apply dget_Some_elem in Hv.
  rewrite elem_of_reverse in Hv. unfold dkeys.
  apply list_elem_of_fmap. exists (c, values). by split.
Qed.

Lemma initial_allows self g :
  is_dict (categories self) → is_grid self g →
  allows self (initial_domains self) g.
Proof.
  intros Hd Hg c pos v [values Hvalues]%dget_is_Some (items & Hi & Hv).
  destruct (Hg c values Hvalues) as (items' & Hi' & _ & Hinto & _).
  assert (items' = items) by congruence. subst items'.
  destruct (Hinto pos v Hv) as [Hpos Hin].
  exists (list_to_set values). split.
  - apply initial_domains_getdom. split; [done|]. exists values.
    split; [|done]. by rewrite dget_reverse.
  - by apply elem_of_list_to_set.
Qed.

(** What [solve] returns is a grid of the puzzle. *)
Lemma solve_returns_grid iter self sol :
  (∀ a s v, v ∈ iter a s → v ∈ s) →
  is_dict (categories self) →
  constructed self →
  solve iter self = Ok (Some sol) →
  is_grid self sol.
Proof.
  intros Hiter Hdict Hcons Hsolve.
  destruct (solve_returns_frame iter self sol Hiter Hdict Hsolve)
    as (Hcomplete & d & Hframe & Hsol & Hkeys).
  intros c values Hvalues.
  destruct (complete_frame_bijection self sol d c values Hdict Hcons
              Hframe Hcomplete Hvalues) as (items & Hitems & _ & Hbij).
  eauto.
Qed.

Lemma solve_returns_values_once iter self sol :
  (∀ a s v, v ∈ iter a s → v ∈ s) →
  is_dict (categories self) →
  solve iter self = Ok (Some sol) →
  values_once sol.
Proof.
  intros Hiter Hdict Hsolve.
  destruct (solve_returns_frame iter self sol Hiter Hdict Hsolve)
    as (_ & d & [Hent _] & _ & _).
  intros c items Hget. destruct (Hent c items Hget) as (Hd & Hinj & _).
  by split.
Qed.



(** ** Committing the value of a grid *)

Lemma update_domains_sound self g d c p v d1 :
  is_grid self g → only_variables self d → allows self d g →
  c ∈ dkeys (categories self) → 0 ≤ p < num_positions self →
  holds_at g c p v →
  _update_domains self d c p v = Ok d1 →
  only_variables self d1 ∧ allows self d1 g.
Proof.
  intros Hg Hvars Hallow Hc Hp Hv Hupd.
  pose proof (update_domains_getdom _ _ _ _ _ _ Hupd) as Hget. split.
  - intros c' q s. rewrite Hget. case_decide as Heq.
    + by destruct Heq as [-> ->].
    + destruct (getdom d c' q) as [s0| |] eqn:Hs0; [|done..].
      intros _. by eapply Hvars.
  - intros c' q v' Hc' Hv'. rewrite Hget. case_decide as Heq.
    + destruct Heq as [-> ->]. exists {[v]}. split; [done|].
      apply elem_of_singleton. by eapply holds_at_functional.
    + destruct (Hallow c' q v' Hc' Hv') as (s & -> & Hin).
      eexists. split; [done|].
      case_decide as Hcq; [|done]. destruct Hcq as [-> Hq].
      apply elem_of_difference. split; [done|].
      rewrite elem_of_singleton. intros ->.
      apply Heq. split; [done|]. by eapply grid_injective.
Qed.

Lemma part_of_extend g a c p v :
  part_of g a → holds_at g c p v → part_of g (extend a c p v).
Proof.
  intros [[Hd Hitems] Hsub] Hv.
  assert (Hd0 : is_dict (default [] (dget a c))).
  { destruct (dget a c) as [items|] eqn:Ha; simpl; [|apply NoDup_nil_2].
    apply (Hitems c). by apply dget_Some_elem. }
  split; [split|].
  - by apply is_dict_extend.
  - intros c' items' Hin. apply elem_dget in Hin; [|by apply is_dict_extend].
    rewrite dget_extend in Hin. case_decide.
    + injection Hin as <-. by apply is_dict_dset.
    + apply (Hitems c'). by apply dget_Some_elem.
  - intros c' p' v' (items' & Hget & Hv'). rewrite dget_extend in Hget.
    case_decide as Hc.
    + subst c'. injection Hget as <-. rewrite dget_dset in Hv'.
      case_decide as Hp.
      * subst p'. by injection Hv' as <-.
      * apply Hsub. revert Hv'.
        destruct (dget a c) as [items|] eqn:Ha; simpl; [|done].
        intros Hv'. by exists items.
    + apply Hsub. by exists items'.
Qed.

Lemma part_of_nil g : part_of g [].
Proof.
  split; [split|].
  - apply NoDup_nil_2.
  - intros c items Hin. by apply elem_of_nil in Hin.
  - by intros c p v (items & ? & _).
Qed.

(** ** The search finds a grid when there is one *)

Lemma try_values_complete self recurse a d c p v0 cands :
  v0 ∈ cands →
  _is_consistent self (extend a c p v0) = Ok true →
  (∀ d1, _update_domains self d c p v0 = Ok d1 →
     _propagate_constraints self d1 ≠ Ok None ∧
     ∀ d2, _propagate_constraints self d1 = Ok (Some d2) →
           recurse (extend a c p v0) d2 ≠ Ok None) →
  try_values self recurse a d c p cands ≠ Ok None.
Proof.
  intros Hin Hcons Hstep.
  induction cands as [|value rest IH]; [by apply elem_of_nil in Hin|].
  simpl. destruct (decide (value = v0)) as [->|Hne].
  - rewrite Hcons. simpl.
    destruct (_update_domains self d c p v0) as [d1| |] eqn:Hupd; simpl;
      [|done..].
    destruct (Hstep d1 eq_refl) as [Hnot Hrec].
    destruct (_propagate_constraints self d1) as [[d2|]| |] eqn:Hprop;
      simpl; [|by destruct Hnot|done..].
    specialize (Hrec d2 eq_refl).
    destruct (recurse (extend a c p v0) d2) as [[sol|]| |]; simpl; done.
  - assert (Hrest : try_values self recurse a d c p rest ≠ Ok None).
    { apply IH. apply elem_of_cons in Hin as [?|?]; [congruence|done]. }
    destruct (_is_consistent self (extend a c p value)) as [[]| |]; simpl;
      [|done..].
    destruct (_update_domains self d c p value) as [d1| |]; simpl;
      [|done..].
    destruct (_propagate_constraints self d1) as [[d2|]| |]; simpl;
      [|done..].
    destruct (recurse (extend a c p value) d2) as [[sol|]| |]; simpl; done.
Qed.

Lemma backtrack_complete iter self g :
  (∀ a s v, v ∈ s → v ∈ iter a s) →
  is_grid self g →
  (∀ a, part_of g a → satisfies self a) →
  ∀ fuel a d,
    part_of g a → only_variables self d → allows self d g →
    _backtrack iter self fuel a d ≠ Ok None.
Proof.
  intros Hiter Hg Hsat.
  induction fuel as [|fuel IH]; intros a d Hpart Hvars Hallow; simpl;
    [done|].
  destruct (_is_complete self a); [done|].
  destruct (_select_unassigned_variable self a d) as [[[c p]|]| |] eqn:Hsel;
    simpl; [|done..].
  apply select_spec in Hsel as (Hc & Hp & _).
  destruct (grid_value self g c p Hg Hc Hp) as [v0 Hv0].
  destruct (Hallow c p v0 Hc Hv0) as (s & -> & Hin). simpl.
  apply (try_values_complete self _ a d c p v0); [by apply Hiter| |].
  - apply consistent_with_true, Hsat. by apply part_of_extend.
  - intros d1 Hupd.
    destruct (update_domains_sound self g d c p v0 d1) as [Hvars1 Hallow1];
      try done.
    destruct (propagate_constraints_sound self g d1 Hg Hvars1 Hallow1)
      as [Hnot Hkeep].
    split; [done|]. intros d2 Hprop. destruct (Hkeep d2 Hprop).
    apply IH; [by apply part_of_extend | done..].
Qed.

Lemma solve_complete_grid iter self g :
  (∀ a s v, v ∈ s → v ∈ iter a s) →
  is_dict (categories self) →
  is_grid self g →
  (∀ a, part_of g a → satisfies self a) →
  solve iter self ≠ Ok None.
Proof.
  intros Hiter Hdict Hg Hsat. unfold solve.
  destruct (propagate_constraints_sound self g (initial_domains self) Hg
              (initial_only_variables self) (initial_allows self g Hdict Hg))
    as [Hnot Hkeep].
  destruct (_propagate_constraints self (initial_domains self))
    as [[d|]| |] eqn:Hprop; cbn [rbind]; [|done..].
  destruct (Hkeep d eq_refl).
  apply (backtrack_complete iter self g); try done. apply part_of_nil.
Qed.

(** ** The library predicates on the parts of a grid *)

Lemma part_holds g a c items pos v :
  part_of g a → dget a c = Some items → (pos, v) ∈ items →
  holds_at g c pos v.
Proof.
  intros [[Hd Hitems] Hsub] Ha Hin. apply Hsub. exists items.
  split; [done|]. apply elem_dget; [|done]. apply (Hitems c).
  by apply dget_Some_elem.
Qed.

Lemma position_of_part g a c v p :
  values_once g → part_of g a →
  position_of a c v = Some p → position_of g c v = Some p.
Proof.
  intros Honce Hpart. unfold position_of at 1.
  destruct (dget a c) as [items|] eqn:Ha; [|done].
  intros Hscan%scan_items_elem.
  apply position_of_holds; [done|]. by eapply part_holds.
Qed.

Lemma both_assigned_part test c1 v1 c2 v2 g a :
  values_once g → part_of g a →
  both_assigned test c1 v1 c2 v2 g = Ok true →
  both_assigned test c1 v1 c2 v2 a = Ok true.
Proof.
  intros Honce Hpart. unfold both_assigned.
  destruct (position_of a c1 v1) as [p1|] eqn:H1; [|done].
  destruct (position_of a c2 v2) as [p2|] eqn:H2; [|done].
  by rewrite (position_of_part _ _ _ _ _ Honce Hpart H1),
    (position_of_part _ _ _ _ _ Honce Hpart H2).
Qed.

Lemma max_key_upper keys m :
  max_key keys = Ok m → ∀ p, p ∈ keys → p ≤ m.
Proof.
  destruct keys as [|k ks]; simpl; [done|]. intros [= <-].
  assert (Hgen : ∀ acc, acc ≤ foldl Z.max acc ks ∧
                        ∀ p, p ∈ ks → p ≤ foldl Z.max acc ks).
  { clear. induction ks as [|x ks IH]; intros acc; simpl.
    - split; [lia|]. intros p Hp. by apply elem_of_nil in Hp.
    - destruct (IH (acc `max` x)) as [H1 H2]. split; [lia|].
      intros p [->|Hp]%elem_of_cons; [lia | by apply H2]. }
  destruct (Hgen k) as [H1 H2].
  intros p [->|Hp]%elem_of_cons; [done | by apply H2].
Qed.

(** A value found in a part of the grid is found at the same position in
    the grid, whose category holds every position that the part
    holds. *)
Lemma scan_part g a c items v p :
  values_once g → part_of g a →
  dget a c = Some items → scan_items items v = Some p →
  ∃ items_g, dget g c = Some items_g ∧
             scan_items items_g v = Some p ∧
             p ∈ dkeys items ∧
             ∀ k, k ∈ dkeys items → k ∈ dkeys items_g.
Proof.
  intros Honce Hpart Ha Hscan%scan_items_elem.
  pose proof (part_holds _ _ _ _ _ _ Hpart Ha Hscan) as (ig & Hg & Hv).
  exists ig. split; [done|]. split.
  { by apply (scan_items_dget _ _ _ (Honce _ _ Hg)). }
  split.
  { unfold dkeys. apply list_elem_of_fmap. by exists (p, v). }
  intros k [v' Hv']%dget_is_Some.
  destruct (proj2 Hpart c k v') as (ig' & Hg' & Hk); [by exists items|].
  assert (ig' = ig) by congruence. subst ig'.
  apply dget_is_Some. eauto.
Qed.

Lemma library_hereditary f refs g a :
  built_by f refs → values_once g → part_of g a →
  f g = Ok true → f a = Ok true.
Proof.
  intros Hbuilt Honce Hpart.
  destruct Hbuilt as [c1 v1 c2 v2 f H|c1 v1 c2 v2 f H|c1 v1 c2 v2 f H
                     |c1 v1 c2 v2 f H|c1 v1 c2 v2 f H|c v position f H
                     |c v edge f H|c v n f H|c v positions f H].
  1-5: injection H as <-; by apply both_assigned_part.
  - injection H as <-. cbv beta.
    destruct (dget a c) as [items|] eqn:Ha; [|done].
    destruct (scan_items items v) as [p|] eqn:Hscan.
    + destruct (scan_part _ _ _ _ _ _ Honce Hpart Ha Hscan)
        as (ig & Hg & Hsg & _).
      by rewrite Hg, Hsg.
    + intros _. destruct (dget items position) as [val|]; [|done].
      f_equal. destruct (decide (val = v)).
      * by rewrite (bool_decide_eq_true_2 (val = v)), orb_true_r.
      * by rewrite (bool_decide_eq_true_2 (val ≠ v)).
  - injection H as <-. cbv beta.
    destruct (dget a c) as [items|] eqn:Ha; [|done].
    destruct (scan_items items v) as [p|] eqn:Hscan; [|done].
    destruct (scan_part _ _ _ _ _ _ Honce Hpart Ha Hscan)
      as (ig & Hg & Hsg & Hp & Hkeys).
    rewrite Hg, Hsg.
    destruct (max_key (dkeys ig)) as [m| |] eqn:Hm; simpl; [|done..].
    assert (Hlast : p = m → max_key (dkeys items) = Ok p).
    { intros ->. apply max_key_spec; [done|]. intros k Hk%Hkeys.
      by apply (max_key_upper _ _ Hm). }
    assert (∃ ma, max_key (dkeys items) = Ok ma) as [ma Hma].
    { destruct items as [|[k0 v0] items]; [done|]. simpl. eauto. }
    rewrite Hma. simpl.
    destruct (decide (edge = "first")); [done|].
    destruct (decide (edge = "last")).
    { intros [= Hb%bool_decide_eq_true]. f_equal.
      apply bool_decide_eq_true.
      assert (p = m) as Hpm by lia. rewrite (Hlast Hpm) in Hma.
      injection Hma as <-. lia. }
    destruct (decide (edge = "either")); [|done].
    intros [= Hb]. f_equal. apply orb_true_iff in Hb as [Hb|Hb].
    + by rewrite Hb.
    + apply bool_decide_eq_true in Hb.
      assert (p = m) as Hpm by lia. rewrite (Hlast Hpm) in Hma.
      injection Hma as <-. apply orb_true_iff. right.
      apply bool_decide_eq_true. lia.
  - unfold middle_position in H. case_decide; [done|]. injection H as <-.
    cbv beta.
    destruct (dget a c) as [items|] eqn:Ha; [|done].
    destruct (scan_items items v) as [p|] eqn:Hscan; [|done].
    destruct (scan_part _ _ _ _ _ _ Honce Hpart Ha Hscan)
      as (ig & Hg & Hsg & _).
    by rewrite Hg, Hsg.
  - injection H as <-. cbv beta.
    destruct (dget a c) as [items|] eqn:Ha; [|done].
    destruct (scan_items items v) as [p|] eqn:Hscan; [|done].
    destruct (scan_part _ _ _ _ _ _ Honce Hpart Ha Hscan)
      as (ig & Hg & Hsg & _).
    by rewrite Hg, Hsg.
Qed.

(** X18. The predicates of the library are hereditary on a grid: a
    predicate returned by any of the nine factories that answers [True]
    on an assignment holding no value twice in a category also answers
    [True] on every well-formed part of that assignment. *)
Theorem library_predicates_hereditary f refs g a :
  built_by f refs → values_once g → part_of g a →
  f g = Ok true → f a = Ok true.
Proof. apply library_hereditary. Qed.

Lemma library_predicates_hereditary_witness :
  let g := [("color", [(0, "red"); (1, "ivory"); (2, "green")])] in
  let a := [("color", [(2, "green")])] in
  ∃ f, at_edge "color" "green" "last" = Ok f ∧
       built_by f [("color", "green")] ∧
       values_once g ∧ part_of g a ∧
       f g = Ok true ∧ f a = Ok true.
Proof.
  intros g a. eexists. split; [reflexivity|].
  assert (H1 : built_by
            (unwrap (at_edge "color" "green" "last")) [("color", "green")])
    by (by eapply built_at_edge).
  assert (H2 : values_once g).
  { intros c items Hc. unfold g in Hc. simpl in Hc.
    case_decide; simplify_eq. split; [apply (bool_decide_unpack _);
      by vm_compute|]. intros p1 p2 v; simpl.
    repeat case_decide; intros; simplify_eq; done. }
  assert (H3 : part_of g a).
  { split; [split|].
    - apply (bool_decide_unpack _). by vm_compute.
    - intros c items Hin. apply list_elem_of_singleton in Hin.
      simplify_eq. apply (bool_decide_unpack _). by vm_compute.
    - intros c p v (items & Hget & Hv). unfold a in Hget. simpl in Hget.
      case_decide; simplify_eq. simpl in Hv.
      case_decide; simplify_eq. by eexists. }
  assert (H4 : unwrap (at_edge "color" "green" "last") g = Ok true)
    by reflexivity.
  split; [exact H1|]. split; [exact H2|]. split; [exact H3|].
  split; [exact H4|].
  exact (library_predicates_hereditary _ _ g a H1 H2 H3 H4).
Defined.

Lemma library_nil f refs : built_by f refs → f [] = Ok true.
Proof.
  intros [c1 v1 c2 v2 ? H|c1 v1 c2 v2 ? H|c1 v1 c2 v2 ? H
         |c1 v1 c2 v2 ? H|c1 v1 c2 v2 ? H|c v position ? H
         |c v edge ? H|c v n ? H|c v positions ? H].
  1-7,9: by injection H as <-.
  unfold middle_position in H. case_decide; [done|]. by injection H as <-.
Qed.

Lemma library_parts_satisfy self g a :
  library_puzzle self → values_once g → satisfies self g →
  part_of g a → satisfies self a.
Proof.
  intros Hlib Honce Hsat Hpart. unfold satisfies in *.
  rewrite Forall_forall in Hsat. apply Forall_forall. intros c Hc.
  destruct (Hlib c Hc) as [refs Hbuilt].
  eapply library_hereditary; eauto.
Qed.

Lemma example_puzzle_library : library_puzzle example_puzzle.
Proof.
  intros c Hin. unfold example_puzzle in Hin. simpl in Hin.
  apply elem_of_cons in Hin as [->|Hin].
  { eexists. exact (built_same_position "nationality" "English"
                      "color" "red" _ eq_refl). }
  apply elem_of_cons in Hin as [->|Hin].
  { eexists. exact (built_same_position "nationality" "Spanish"
                      "pet" "dog" _ eq_refl). }
  apply elem_of_cons in Hin as [->|Hin].
  { eexists. exact (built_same_position "drink" "coffee"
                      "color" "green" _ eq_refl). }
  apply elem_of_cons in Hin as [->|Hin].
  { eexists. exact (built_immediately_right_of "color" "green"
                      "color" "red" _ eq_refl). }
  apply elem_of_cons in Hin as [->|Hin].
  { eexists. exact (built_adjacent "pet" "snail" "drink" "tea" _ eq_refl). }
  apply elem_of_cons in Hin as [->|Hin].
  { eexists. exact (built_adjacent "nationality" "Japanese"
                      "pet" "snail" _ eq_refl). }
  by apply elem_of_nil in Hin.
Qed.

Lemma both_assigned_total test c1 v1 c2 v2 a :
  ∃ b, both_assigned test c1 v1 c2 v2 a = Ok b.
Proof.
  unfold both_assigned.
  destruct (position_of a c1 v1); [|by eauto].
  destruct (position_of a c2 v2); by eauto.
Qed.

Lemma example_puzzle_total : total_constraints example_puzzle.
Proof.
  intros c Hin a. unfold example_puzzle in Hin. simpl in Hin.
  apply elem_of_cons in Hin as [->|Hin]; [apply both_assigned_total|].
  apply elem_of_cons in Hin as [->|Hin]; [apply both_assigned_total|].
  apply elem_of_cons in Hin as [->|Hin]; [apply both_assigned_total|].
  apply elem_of_cons in Hin as [->|Hin]; [apply both_assigned_total|].
  apply elem_of_cons in Hin as [->|Hin]; [apply both_assigned_total|].
  apply elem_of_cons in Hin as [->|Hin]; [apply both_assigned_total|].
  by apply elem_of_nil in Hin.
Qed.

(** ** Completeness of the search *)

(** X19. The search is complete for hereditary constraints. When a grid
    of the puzzle exists on all of whose well-formed parts every
    registered predicate answers [True], and the enumeration of a
    domain lists every value of it, [solve] does not return [None]; in
    a puzzle with at least one position whose predicates never raise it
    returns a complete assignment. *)
Theorem solve_finds_grid iter self g :
  (∀ a s v, v ∈ s → v ∈ iter a s) →
  is_dict (categories self) →
  is_grid self g →
  (∀ a, part_of g a → satisfies self a) →
  solve iter self ≠ Ok None ∧
  (0 < num_positions self → total_constraints self →
   ∃ sol, solve iter self = Ok (Some sol) ∧ _is_complete self sol = true).
Proof.
  intros Hiter Hdict Hg Hsat.
  pose proof (solve_complete_grid iter self g Hiter Hdict Hg Hsat) as Hnot.
  split; [done|]. intros Hn Htot.
  by destruct (solve_total iter self Hn Htot) as [?|?].
Qed.

Lemma solve_finds_grid_witness :
  let g := [("nationality",
               [(0, "Spanish"); (1, "English"); (2, "Japanese")]);
            ("color", [(0, "ivory"); (1, "red"); (2, "green")]);
            ("pet", [(0, "dog"); (1, "snail"); (2, "fox")]);
            ("drink", [(0, "tea"); (1, "water"); (2, "coffee")])] in
  (∀ a s v, v ∈ s → v ∈ elements_order a s) ∧
  is_dict (categories example_puzzle) ∧
  is_grid example_puzzle g ∧
  (∀ a, part_of g a → satisfies example_puzzle a) ∧
  solve elements_order example_puzzle ≠ Ok None.
Proof.
  intros g.
  assert (H0 : ∀ (a : assignment) (s : gset string) v,
            v ∈ elements_order a s → v ∈ s).
  { intros a s v. unfold elements_order. by rewrite elem_of_elements. }
  assert (H1 : ∀ (a : assignment) (s : gset string) v,
            v ∈ s → v ∈ elements_order a s).
  { intros a s v. unfold elements_order. by rewrite elem_of_elements. }
  assert (H2 : is_dict (categories example_puzzle)).
  { apply (bool_decide_unpack _). by vm_compute. }
  assert (Hc : constructed example_puzzle).
  { apply constructed_any. simpl. by repeat constructor. }
  assert (Hs : solve elements_order example_puzzle = Ok (Some g))
    by (vm_compute; reflexivity).
  assert (H3 : is_grid example_puzzle g)
    by exact (solve_returns_grid _ _ _ H0 H2 Hc Hs).
  assert (H4 : ∀ a, part_of g a → satisfies example_puzzle a).
  { intros a. apply library_parts_satisfy.
    - exact example_puzzle_library.
    - exact (solve_returns_values_once _ _ _ H0 H2 Hs).
    - apply consistent_with_true. vm_compute. reflexivity. }
  split; [exact H1|]. split; [exact H2|]. split; [exact H3|].
  split; [exact H4|].
  exact (proj1 (solve_finds_grid elements_order example_puzzle g
                  H1 H2 H3 H4)).
Defined.

(** X20. [solve] decides the puzzles built from the library. For a
    constructed puzzle with at least one position whose predicates all
    come from the factories and never raise, [solve] returns an
    assignment exactly when some grid of the puzzle, holding no value
    twice in a category, satisfies every predicate; the assignment
    returned is such a grid; and [solve] returns [None] exactly when
    there is none. *)
Theorem solve_decides_library_puzzle iter self :
  (∀ a s v, v ∈ iter a s ↔ v ∈ s) →
  is_dict (categories self) →
  constructed self →
  0 < num_positions self →
  library_puzzle self →
  total_constraints self →
  (∀ sol, solve iter self = Ok (Some sol) →
          is_grid self sol ∧ values_once sol ∧ satisfies self sol) ∧
  ((∃ sol, solve iter self = Ok (Some sol)) ↔
   (∃ g, is_grid self g ∧ values_once g ∧ satisfies self g)) ∧
  (solve iter self = Ok None ↔
   ¬ ∃ g, is_grid self g ∧ values_once g ∧ satisfies self g).
Proof.
  intros Hiter Hdict Hcons Hn Hlib Htot.
  assert (Hin : ∀ a s v, v ∈ iter a s → v ∈ s)
    by (intros a s v; apply Hiter).
  assert (Hout : ∀ a s v, v ∈ s → v ∈ iter a s)
    by (intros a s v; apply Hiter).
  assert (Hsound : ∀ sol, solve iter self = Ok (Some sol) →
            is_grid self sol ∧ values_once sol ∧ satisfies self sol).
  { intros sol Hsolve.
    split; [by eapply solve_returns_grid|].
    split; [by eapply solve_returns_values_once|].
    apply rbind_Ok in Hsolve as (od & _ & H).
    destruct od as [d|]; [|done].
    apply (backtrack_invariant iter self (λ a _, satisfies self a)) in H.
    - by destruct H as [_ [_ ?]].
    - intros a d0 c p s value d1 d2 _ _ _ _ _ Hc _ _.
      by apply consistent_with_true.
    - apply Forall_forall. intros c Hc.
      destruct (Hlib c Hc) as [refs Hbuilt]. by eapply library_nil. }
  assert (Hcomplete : (∃ g, is_grid self g ∧ values_once g ∧
                            satisfies self g) →
            solve iter self ≠ Ok None).
  { intros (g & Hg & Honce & Hsat).
    apply (solve_complete_grid iter self g); try done.
    intros a. by apply library_parts_satisfy. }
  split; [done|]. split.
  - split.
    + intros [sol Hsolve]. exists sol. by apply Hsound.
    + intros Hex.
      destruct (solve_total iter self Hn Htot) as [Hnone|(sol & ? & _)];
        [by destruct (Hcomplete Hex) | by eauto].
  - split.
    + intros Hnone Hex. by destruct (Hcomplete Hex).
    + intros Hno.
      destruct (solve_total iter self Hn Htot) as [Hnone|(sol & Hs & _)];
        [done|].
      destruct Hno. exists sol. by apply Hsound.
Qed.

Lemma solve_decides_library_puzzle_witness :
  (∀ a s v, v ∈ elements_order a s ↔ v ∈ s) ∧
  is_dict (categories example_puzzle) ∧
  constructed example_puzzle ∧
  0 < num_positions example_puzzle ∧
  library_puzzle example_puzzle ∧
  total_constraints example_puzzle ∧
  ∃ g, is_grid example_puzzle g ∧ values_once g ∧
       satisfies example_puzzle g.
Proof.
  assert (H1 : ∀ (a : assignment) (s : gset string) v,
            v ∈ elements_order a s ↔ v ∈ s).
  { intros a s v. unfold elements_order. by rewrite elem_of_elements. }
  assert (H2 : is_dict (categories example_puzzle)).
  { apply (bool_decide_unpack _). by vm_compute. }
  assert (H3 : constructed example_puzzle).
  { apply constructed_any. simpl. by repeat constructor. }
  assert (H4 : 0 < num_positions example_puzzle) by (simpl; lia).
  pose proof example_puzzle_library as H5.
  pose proof example_puzzle_total as H6.
  split; [exact H1|]. split; [exact H2|]. split; [exact H3|].
  split; [exact H4|]. split; [exact H5|]. split; [exact H6|].
  destruct (solve_decides_library_puzzle elements_order example_puzzle
              H1 H2 H3 H4 H5 H6) as (Hsound & _ & _).
  eexists. apply Hsound. vm_compute. reflexivity.
Defined.

(** ** Determinism and the order of enumeration *)














